(** * The 8-puzzle search engine of [project.py]

    A shallow embedding of the state-space search core of [project.py]
    (neighbour generation, the inversion-parity test, path reconstruction,
    breadth-first, depth-limited depth-first and uniform-cost search, and
    the shuffle) and of the program around it (solving, resetting, the
    display of a path and the buttons), followed by the properties proved
    about them.

    Conventions.
    - A Python [int] is a [Z]; a list of lists of ints is a [Grid].
    - A Python call either returns or raises; loops that Python runs until
      a condition fails are given a fuel argument, and running out of fuel
      is a third outcome, distinct from both.
    - The searches only read grids, so they are modelled on values.  The
      shuffle overwrites its argument, so it (and the neighbour generator,
      which it calls) is also modelled on a store of list objects.
    - What [solve_puzzle], [display_path] and [reset_puzzle] do to the
      terminal and the window is a list of events, one per call, in the
      order of the calls; of [draw_buttons] the list it returns is kept,
      which is what the click handler reads. *)

From Stdlib Require Import ZArith Lia.
From stdpp Require Import base tactics option list gmap strings pretty.

Local Open Scope Z_scope.

(** ** Outcomes of a Python call *)

Inductive exn : Type := TypeError | IndexError.

Inductive outcome (A : Type) : Type :=
  | Returns (a : A)
  | Raises (e : exn)
  | OutOfFuel.
Arguments Returns {A} a.
Arguments Raises {A} e.
Arguments OutOfFuel {A}.

Global Instance outcome_ret : MRet outcome := fun A a => Returns a.
Global Instance outcome_bind : MBind outcome := fun A B f m =>
  match m with
  | Returns a => f a
  | Raises e => Raises e
  | OutOfFuel => OutOfFuel
  end.

(** [for x in xs: s = body(x, s)], where the body may raise. *)
Fixpoint for_each {A S : Type} (xs : list A) (body : A -> S -> outcome S)
    (s : S) : outcome S :=
  match xs with
  | [] => Returns s
  | x :: xs' => s' ← body x s; for_each xs' body s'
  end.

(** ** Python lists indexed by an [int] *)

(** A negative index counts from the end. *)
Definition norm_index (len i : Z) : Z := if i <? 0 then i + len else i.

(** [l[i]] *)
Definition getitem {A : Type} (l : list A) (i : Z) : outcome A :=
  let k := norm_index (Z.of_nat (length l)) i in
  if k <? 0 then Raises IndexError
  else match l !! Z.to_nat k with
       | Some x => Returns x
       | None => Raises IndexError
       end.

(** [l[i] = x] *)
Definition setitem {A : Type} (l : list A) (i : Z) (x : A) : outcome (list A) :=
  let k := norm_index (Z.of_nat (length l)) i in
  if k <? 0 then Raises IndexError
  else match l !! Z.to_nat k with
       | Some _ => Returns (<[Z.to_nat k := x]> l)
       | None => Raises IndexError
       end.

(** [range(n)] *)
Definition range (n : Z) : list Z := seqZ 0 n.

(** ** Grids *)

Definition Grid : Type := list (list Z).

Definition GRID_SIZE : Z := 3.

Definition goal_state : Grid := [[1; 2; 3]; [4; 5; 6]; [7; 8; 0]].

(** [state[row][col]] *)
Definition getitem2 (state : Grid) (row col : Z) : outcome Z :=
  r ← getitem state row; getitem r col.

(** [state[row][col] = v], on a grid whose rows are not shared. *)
Definition setitem2 (state : Grid) (row col v : Z) : outcome Grid :=
  r ← getitem state row;
  r' ← setitem r col v;
  setitem state row r'.

(** ** find_zero *)

(** The two nested loops, over the subscript operation [state[row][col]]:
    the value model and the object-store model below read a cell in
    different ways and share the loops. *)
Section FindZero.
Variable cell : Z -> Z -> outcome Z.

Fixpoint find_zero_cols (row : Z) (cols : list Z) : outcome (option (Z * Z)) :=
  match cols with
  | [] => Returns None
  | col :: cols' =>
      v ← cell row col;
      if v =? 0 then Returns (Some (row, col))
      else find_zero_cols row cols'
  end.

Fixpoint find_zero_rows (rows : list Z) : outcome (option (Z * Z)) :=
  match rows with
  | [] => Returns None
  | row :: rows' =>
      found ← find_zero_cols row (range GRID_SIZE);
      match found with
      | Some pos => Returns (Some pos)
      | None => find_zero_rows rows'
      end
  end.

Definition find_zero_at : outcome (option (Z * Z)) :=
  find_zero_rows (range GRID_SIZE).
End FindZero.

Definition find_zero (state : Grid) : outcome (option (Z * Z)) :=
  find_zero_at (getitem2 state).

(** ** get_neighbors *)

Definition directions : list (Z * Z) := [(-1, 0); (1, 0); (0, -1); (0, 1)].

Definition in_bounds (new_row new_col : Z) : bool :=
  (0 <=? new_row) && (new_row <? GRID_SIZE) &&
  (0 <=? new_col) && (new_col <? GRID_SIZE).

(** One iteration of the loop over [directions].  Subscripting [zero_pos]
    when [find_zero] returned [None] raises [TypeError]. *)
Definition neighbor_step (state : Grid) (zero_pos : option (Z * Z))
    (d : Z * Z) (neighbors : list Grid) : outcome (list Grid) :=
  match zero_pos with
  | None => Raises TypeError
  | Some (zr, zc) =>
      let new_row := zr + fst d in
      let new_col := zc + snd d in
      if in_bounds new_row new_col then
        let new_state := state in
        v ← getitem2 new_state new_row new_col;
        new_state ← setitem2 new_state zr zc v;
        new_state ← setitem2 new_state new_row new_col 0;
        Returns (neighbors ++ [new_state])
      else Returns neighbors
  end.

Definition get_neighbors (state : Grid) : outcome (list Grid) :=
  zero_pos ← find_zero state;
  for_each directions (neighbor_step state zero_pos) [].

(** ** is_solvable *)

Definition flat_state (state : Grid) : list Z :=
  row ← state; List.filter (fun num => negb (num =? 0)) row.

(** The inner loop: how many later entries are smaller than [x]. *)
Fixpoint count_smaller (x : Z) (rest : list Z) : Z :=
  match rest with
  | [] => 0
  | y :: rest' => (if x >? y then 1 else 0) + count_smaller x rest'
  end.

Fixpoint inversions (flat : list Z) : Z :=
  match flat with
  | [] => 0
  | x :: rest => count_smaller x rest + inversions rest
  end.

Definition is_solvable (state : Grid) : bool :=
  inversions (flat_state state) mod 2 =? 0.

(** ** reconstruct_path *)

(** Grids are used as dictionary keys and set members after conversion to
    a tuple of tuples; the conversion keeps the contents. *)
Definition as_tuple (g : Grid) : Grid := g.

Fixpoint reconstruct_loop (fuel : nat) (came_from : gmap Grid Grid)
    (current : Grid) (path : list Grid) : outcome (list Grid) :=
  match fuel with
  | O => OutOfFuel
  | S fuel' =>
      match came_from !! current with
      | Some previous =>
          reconstruct_loop fuel' came_from previous (path ++ [current])
      | None => Returns (reverse path)
      end
  end.

Definition reconstruct_path (fuel : nat) (came_from : gmap Grid Grid)
    (current : Grid) : outcome (list Grid) :=
  reconstruct_loop fuel came_from current [].


(** ** bfs *)

(** The deque, the visited set and the predecessor dictionary. *)
Record bfs_state : Type := BfsState {
  bfs_queue : list Grid;
  bfs_visited : gset Grid;
  bfs_came_from : gmap Grid Grid
}.

(** The body of [for neighbor in get_neighbors(current)]. *)
Definition bfs_visit (current neighbor : Grid) (st : bfs_state) : bfs_state :=
  let neighbor_tuple := as_tuple neighbor in
  if decide (neighbor_tuple ∈ bfs_visited st) then st
  else BfsState (bfs_queue st ++ [neighbor])
                ({[neighbor_tuple]} ∪ bfs_visited st)
                (<[neighbor_tuple := as_tuple current]> (bfs_came_from st)).

Fixpoint bfs_loop (fuel : nat) (goal : Grid) (st : bfs_state)
    : outcome (option (list Grid)) :=
  match fuel with
  | O => OutOfFuel
  | S fuel' =>
      match bfs_queue st with
      | [] => Returns None
      | current :: queue' =>
          if decide (current = goal) then
            path ← reconstruct_path fuel' (bfs_came_from st) (as_tuple current);
            Returns (Some path)
          else
            neighbors ← get_neighbors current;
            bfs_loop fuel' goal
              (foldl (fun st neighbor => bfs_visit current neighbor st)
                     (BfsState queue' (bfs_visited st) (bfs_came_from st))
                     neighbors)
      end
  end.

Definition bfs (fuel : nat) (start goal : Grid) : outcome (option (list Grid)) :=
  bfs_loop fuel goal (BfsState [start] {[as_tuple start]} ∅).

(** ** dfs *)

(** A stack entry: the state, the path taken to it, and its depth.  The
    head of the Rocq list is the top of the stack (the end of the Python
    list, where [append] and [pop] work). *)
Definition dfs_entry : Type := Grid * list Grid * Z.

(** The body of [for neighbor in reversed(get_neighbors(current))]. *)
Definition dfs_push (visited : gset Grid) (current : Grid) (path : list Grid)
    (depth : Z) (neighbor : Grid) (stack : list dfs_entry) : list dfs_entry :=
  let neighbor_tuple := as_tuple neighbor in
  if decide (neighbor_tuple ∈ visited) then stack
  else (neighbor, path ++ [current], depth + 1) :: stack.

Fixpoint dfs_loop (fuel : nat) (goal : Grid) (depth_limit : Z)
    (stack : list dfs_entry) (visited : gset Grid)
    : outcome (option (list Grid)) :=
  match fuel with
  | O => OutOfFuel
  | S fuel' =>
      match stack with
      | [] => Returns None
      | (current, path, depth) :: stack' =>
          let current_tuple := as_tuple current in
          if depth >? depth_limit then
            dfs_loop fuel' goal depth_limit stack' visited
          else if decide (current_tuple ∈ visited) then
            dfs_loop fuel' goal depth_limit stack' visited
          else
            let visited' := {[current_tuple]} ∪ visited in
            if decide (current = goal) then Returns (Some (path ++ [current]))
            else
              neighbors ← get_neighbors current;
              dfs_loop fuel' goal depth_limit
                (foldl (fun stack neighbor =>
                          dfs_push visited' current path depth neighbor stack)
                       stack' (reverse neighbors))
                visited'
      end
  end.

Definition dfs (fuel : nat) (start goal : Grid) (depth_limit : Z)
    : outcome (option (list Grid)) :=
  dfs_loop fuel goal depth_limit [(start, [], 0)] ∅.

(** ** ucs *)

(** Python's ordering of lists: lexicographic, a proper prefix first. *)
Fixpoint row_compare (a b : list Z) : comparison :=
  match a, b with
  | [], [] => Eq
  | [], _ :: _ => Lt
  | _ :: _, [] => Gt
  | x :: a', y :: b' =>
      match x ?= y with
      | Eq => row_compare a' b'
      | c => c
      end
  end.

Fixpoint grid_compare (a b : Grid) : comparison :=
  match a, b with
  | [], [] => Eq
  | [], _ :: _ => Lt
  | _ :: _, [] => Gt
  | x :: a', y :: b' =>
      match row_compare x y with
      | Eq => grid_compare a' b'
      | c => c
      end
  end.

(** Python's ordering of the [(cost, state)] tuples on the heap. *)
Definition entry_le (e1 e2 : Z * Grid) : bool :=
  match fst e1 ?= fst e2 with
  | Lt => true
  | Gt => false
  | Eq => match grid_compare (snd e1) (snd e2) with Gt => false | _ => true end
  end.

(** The priority queue.  [heapq] keeps a binary heap in an array; what the
    search observes is only that [heappop] removes and returns the least
    entry, and the order above is total on values, so that entry is
    determined by the multiset of entries.  The queue is therefore kept as
    a list sorted by [entry_le]. *)
Fixpoint heappush (pq : list (Z * Grid)) (e : Z * Grid) : list (Z * Grid) :=
  match pq with
  | [] => [e]
  | e' :: pq' => if entry_le e e' then e :: pq else e' :: heappush pq' e
  end.

Definition heappop (pq : list (Z * Grid)) : option ((Z * Grid) * list (Z * Grid)) :=
  match pq with
  | [] => None
  | e :: pq' => Some (e, pq')
  end.

Record ucs_state : Type := UcsState {
  ucs_queue : list (Z * Grid);
  ucs_came_from : gmap Grid Grid;
  ucs_cost_so_far : gmap Grid Z
}.

(** The body of [for neighbor in get_neighbors(current)]. *)
Definition ucs_relax (current_cost : Z) (current_tuple : Grid) (neighbor : Grid)
    (st : ucs_state) : ucs_state :=
  let neighbor_tuple := as_tuple neighbor in
  let new_cost := current_cost + 1 in
  let improves :=
    match ucs_cost_so_far st !! neighbor_tuple with
    | None => true
    | Some old_cost => new_cost <? old_cost
    end in
  if improves then
    UcsState (heappush (ucs_queue st) (new_cost, neighbor))
             (<[neighbor_tuple := current_tuple]> (ucs_came_from st))
             (<[neighbor_tuple := new_cost]> (ucs_cost_so_far st))
  else st.

Fixpoint ucs_loop (fuel : nat) (goal : Grid) (st : ucs_state)
    (visited : gset Grid) : outcome (option (list Grid)) :=
  match fuel with
  | O => OutOfFuel
  | S fuel' =>
      match heappop (ucs_queue st) with
      | None => Returns None
      | Some ((current_cost, current), queue') =>
          if decide (current = goal) then
            path ← reconstruct_path fuel' (ucs_came_from st) (as_tuple current);
            Returns (Some path)
          else
            let current_tuple := as_tuple current in
            let st' := UcsState queue' (ucs_came_from st) (ucs_cost_so_far st) in
            if decide (current_tuple ∈ visited) then
              ucs_loop fuel' goal st' visited
            else
              neighbors ← get_neighbors current;
              ucs_loop fuel' goal
                (foldl (fun st neighbor =>
                          ucs_relax current_cost current_tuple neighbor st)
                       st' neighbors)
                ({[current_tuple]} ∪ visited)
      end
  end.

Definition ucs (fuel : nat) (start goal : Grid) : outcome (option (list Grid)) :=
  ucs_loop fuel goal
    (UcsState (heappush [] (0, start)) ∅ {[as_tuple start := 0]}) ∅.


(** ** The object store

    [get_neighbors] copies its argument before writing, and
    [shuffle_puzzle] overwrites its argument; both facts are about list
    objects, not list values.  A grid object is a list of references to
    row objects, each a list of ints. *)

Definition loc : Type := nat.

Inductive obj : Type :=
  | IntList (cells : list Z)
  | RefList (rows : list loc).

Abbreviation heap := (gmap loc obj).

(** A new object, at an address not in use. *)
Definition alloc (o : obj) (h : heap) : loc * heap :=
  let l := fresh (dom h) in (l, <[l := o]> h).

Definition load_rows (h : heap) (l : loc) : outcome (list loc) :=
  match h !! l with
  | Some (RefList rows) => Returns rows
  | _ => Raises TypeError
  end.

Definition load_cells (h : heap) (l : loc) : outcome (list Z) :=
  match h !! l with
  | Some (IntList cells) => Returns cells
  | _ => Raises TypeError
  end.

(** [state[row][col]] *)
Definition h_getitem2 (h : heap) (state : loc) (row col : Z) : outcome Z :=
  rows ← load_rows h state;
  r ← getitem rows row;
  cells ← load_cells h r;
  getitem cells col.

(** [state[row][col] = v]: the row object is updated in place. *)
Definition h_setitem2 (h : heap) (state : loc) (row col v : Z) : outcome heap :=
  rows ← load_rows h state;
  r ← getitem rows row;
  cells ← load_cells h r;
  cells' ← setitem cells col v;
  Returns (<[r := IntList cells']> h).

(** [[row[:] for row in state]]: a new row object per row, then a new
    outer list. *)
Fixpoint h_copy_rows (h : heap) (rows : list loc) : outcome (list loc * heap) :=
  match rows with
  | [] => Returns ([], h)
  | r :: rows' =>
      cells ← load_cells h r;
      let '(r', h1) := alloc (IntList cells) h in
      '(rs', h2) ← h_copy_rows h1 rows';
      Returns (r' :: rs', h2)
  end.

Definition h_copy_grid (h : heap) (state : loc) : outcome (loc * heap) :=
  rows ← load_rows h state;
  '(rows', h1) ← h_copy_rows h rows;
  Returns (alloc (RefList rows') h1).

Definition h_find_zero (h : heap) (state : loc) : outcome (option (Z * Z)) :=
  find_zero_at (h_getitem2 h state).

Definition h_neighbor_step (state : loc) (zero_pos : option (Z * Z))
    (d : Z * Z) (acc : list loc * heap) : outcome (list loc * heap) :=
  let '(neighbors, h) := acc in
  match zero_pos with
  | None => Raises TypeError
  | Some (zr, zc) =>
      let new_row := zr + fst d in
      let new_col := zc + snd d in
      if in_bounds new_row new_col then
        '(new_state, h) ← h_copy_grid h state;
        v ← h_getitem2 h new_state new_row new_col;
        h ← h_setitem2 h new_state zr zc v;
        h ← h_setitem2 h new_state new_row new_col 0;
        Returns (neighbors ++ [new_state], h)
      else Returns (neighbors, h)
  end.

(** [get_neighbors] on objects: the neighbours are new objects. *)
Definition h_get_neighbors (h : heap) (state : loc) : outcome (list loc * heap) :=
  zero_pos ← h_find_zero h state;
  for_each directions (h_neighbor_step state zero_pos) ([], h).

(** ** shuffle_puzzle *)

(** [random.choice(seq)] when the generator draws [k]; every element can be
    drawn, and an empty sequence raises [IndexError]. *)
Definition choice {A : Type} (k : nat) (seq : list A) : outcome A :=
  match seq !! (k mod length seq)%nat with
  | Some x => Returns x
  | None => Raises IndexError
  end.

(** [state[:] = src]: the outer list object [state] now holds the row
    references of [src]. *)
Definition h_assign_slice (h : heap) (state src : loc) : outcome heap :=
  rows ← load_rows h src;
  _ ← load_rows h state;
  Returns (<[state := RefList rows]> h).

(** One iteration; [rand i] is the draw of the [i]-th iteration. *)
Definition shuffle_step (rand : nat -> nat) (state : loc) (i : nat) (h : heap)
    : outcome heap :=
  '(neighbors, h) ← h_get_neighbors h state;
  chosen ← choice (rand i) neighbors;
  h_assign_slice h state chosen.

(** [shuffle_puzzle(state, moves)] returns the reference it was given. *)
Definition shuffle_puzzle (rand : nat -> nat) (h : heap) (state : loc) (moves : Z)
    : outcome (loc * heap) :=
  h' ← for_each (seq 0 (Z.to_nat moves)) (shuffle_step rand state) h;
  Returns (state, h').

(** The value of a grid object. *)
Definition read_row (h : heap) (r : loc) : option (list Z) :=
  match h !! r with
  | Some (IntList cells) => Some cells
  | _ => None
  end.

Definition read_grid (h : heap) (l : loc) : option Grid :=
  match h !! l with
  | Some (RefList rows) => mapM (read_row h) rows
  | _ => None
  end.

(** A grid object with the rows of [g], each in an object of its own. *)
Definition store_grid (g : Grid) (h : heap) : loc * heap :=
  let '(rows, h1) :=
    foldl (fun '(rows, h) cells =>
             let '(r, h') := alloc (IntList cells) h in (rows ++ [r], h'))
          ([], h) g in
  alloc (RefList rows) h1.


(** ** The program around the searches *)

(** What the program does to the terminal and the window, call by call:
    [clear_terminal()], [print] of a string, [print] of a row,
    [screen.fill(BG_COLOR)], [draw_puzzle(state, is_solution)],
    [draw_buttons()], [pygame.display.update()] and [time.sleep], the
    time in milliseconds. *)
Inductive event : Type :=
  | ClearTerminal
  | Print (line : string)
  | PrintRow (row : list Z)
  | ScreenFill
  | DrawPuzzle (state : Grid) (is_solution : bool)
  | DrawButtons
  | DisplayUpdate
  | Sleep (milliseconds : Z).

(** The body of [for i, state in enumerate(path)]. *)
Definition display_step (path : list Grid) (i : nat) (state : Grid)
    : list event :=
  [ScreenFill;
   DrawPuzzle state (Z.of_nat i =? Z.of_nat (length path) - 1);
   DrawButtons;
   DisplayUpdate;
   Sleep 500;
   Print ("Step " +:+ pretty (Z.of_nat i + 1) +:+ ":")] ++
  (PrintRow <$> state) ++
  [Print ""%string].

Definition display_path (path : list Grid) : list event :=
  concat (imap (display_step path) path).

(** [if path: display_path(path) else: print(...)]: [None] and the empty
    list are both false. *)
Definition show_path (path : option (list Grid)) : list event :=
  match path with
  | Some (state :: rest) => display_path (state :: rest)
  | _ => [Print "No solution found"]
  end.

(** [solve_puzzle(method)], as a function of the grid the global
    [initial_state] holds.  The searches get copies of the two globals and
    write to neither. *)
Definition solve_puzzle (fuel : nat) (initial_state : Grid) (method : string)
    : outcome (list event) :=
  if negb (is_solvable initial_state) then
    Returns [ClearTerminal; Print "Puzzle is not solvable!"]
  else
    let start := initial_state in
    let goal := goal_state in
    if String.eqb method "BFS" then
      path ← bfs fuel start goal;
      Returns (ClearTerminal :: show_path path)
    else if String.eqb method "DFS" then
      path ← dfs fuel start goal 50;
      Returns (ClearTerminal :: show_path path)
    else if String.eqb method "UCS" then
      path ← ucs fuel start goal;
      Returns (ClearTerminal :: show_path path)
    else
      Returns [ClearTerminal; Print "Unknown method"].

(** [reset_puzzle()]: the global [initial_state] is bound to a copy of the
    object of the global [goal_state], and the copy is shuffled.  The
    result carries the new binding. *)
Definition reset_puzzle (rand : nat → nat) (h : heap) (goal_state_ref : loc)
    : outcome (list event * loc * heap) :=
  '(initial_state, h) ← h_copy_grid h goal_state_ref;
  '(_, h) ← shuffle_puzzle rand h initial_state 30;
  Returns ([ClearTerminal], initial_state, h).

(** ** The buttons *)

Definition WIDTH : Z := 400.
Definition HEIGHT : Z := 500.

(** A [pygame.Rect]: left, top, width, height. *)
Record Rect : Type := MkRect {
  rect_left : Z;
  rect_top : Z;
  rect_width : Z;
  rect_height : Z
}.

(** [rect.collidepoint(x, y)]: the left and top edges are inside, the
    right and bottom edges are not. *)
Definition collidepoint (rect : Rect) (x y : Z) : bool :=
  (rect_left rect <=? x) && (x <? rect_left rect + rect_width rect) &&
  (rect_top rect <=? y) && (y <? rect_top rect + rect_height rect).

(** The list [draw_buttons] returns: the rectangle of each button and the
    method it stands for.  Its drawing is the event [DrawButtons]. *)
Definition draw_buttons : list (Rect * option string) :=
  let button_width := 90 in
  let button_height := 40 in
  let spacing := 10 in
  let start_x := (WIDTH - (4 * button_width + 3 * spacing)) `div` 2 in
  let start_y := HEIGHT - 60 in
  let buttons : list (string * option string) :=
    [("Shuffle"%string, None); ("Solve BFS"%string, Some "BFS"%string);
     ("Solve DFS"%string, Some "DFS"%string);
     ("Solve UCS"%string, Some "UCS"%string)] in
  imap (fun i button =>
          let x := start_x + Z.of_nat i * (button_width + spacing) in
          (MkRect x start_y button_width button_height, button.2))
       buttons.

(** What a click sets off. *)
Inductive action : Type :=
  | SolvePuzzle (method : string)
  | ResetPuzzle.

(** [if method: solve_puzzle(method=method) else: reset_puzzle()]: [None]
    and the empty string are false. *)
Definition button_action (method : option string) : action :=
  match method with
  | Some (String c s) => SolvePuzzle (String c s)
  | _ => ResetPuzzle
  end.

(** The handler of a [MOUSEBUTTONDOWN] event at [(x, y)]: the calls it
    makes, in order. *)
Definition on_mouse_button_down (x y : Z) : list action :=
  let button_rects := draw_buttons in
  foldl (fun calls '(rect, method) =>
           if collidepoint rect x y then calls ++ [button_action method]
           else calls)
        [] button_rects.

(** ** Vocabulary of the properties *)

(** A valid grid: three rows of three cells holding 0..8 once each. *)
Definition shape33 (g : Grid) : Prop :=
  length g = 3%nat ∧ Forall (fun row => length row = 3%nat) g.

Definition valid_grid (g : Grid) : Prop :=
  shape33 g ∧ concat g ≡ₚ seqZ 0 9.

(** The cell at a position, when the position is on the grid. *)
Definition cell_at (g : Grid) (p : Z * Z) : option Z :=
  if (0 <=? fst p) && (0 <=? snd p)
  then row ← g !! Z.to_nat (fst p); row !! Z.to_nat (snd p)
  else None.

Definition on_grid (p : Z * Z) : Prop :=
  0 <= fst p < GRID_SIZE ∧ 0 <= snd p < GRID_SIZE.

(** Orthogonally adjacent positions. *)
Definition adjacent (p q : Z * Z) : Prop :=
  Z.abs (fst p - fst q) + Z.abs (snd p - snd q) = 1.

(** [n] is [g] with the blank at [p] and the tile at [q] exchanged. *)
Definition swapped (g : Grid) (p q : Z * Z) (n : Grid) : Prop :=
  cell_at g p = Some 0 ∧
  cell_at n q = Some 0 ∧
  cell_at n p = cell_at g q ∧
  ∀ x, on_grid x → x ≠ p → x ≠ q → cell_at n x = cell_at g x.

(** One legal slide: [n] is among the neighbours the generator gives. *)
Definition is_neighbor (g n : Grid) : Prop :=
  ∃ ns, get_neighbors g = Returns ns ∧ n ∈ ns.

(** Consecutive elements are one slide apart. *)
Fixpoint slide_chain (path : list Grid) : Prop :=
  match path with
  | [] => True
  | g :: rest =>
      match rest with
      | [] => True
      | n :: _ => is_neighbor g n ∧ slide_chain rest
      end
  end.

(** A path in the sense of the data model: from [start] to [goal], both
    included, by legal slides. *)
Definition path_from_to (start goal : Grid) (path : list Grid) : Prop :=
  head path = Some start ∧ last path = Some goal ∧ slide_chain path.

(** The number of slides of a path. *)
Definition edge_count (path : list Grid) : Z := Z.of_nat (length path) - 1.

(** Where the blank sits: in a corner, on an edge, or in the centre. *)
Inductive place : Type := Corner | Edge | Center.

Definition place_of (p : Z * Z) : place :=
  let border x := (x =? 0) || (x =? GRID_SIZE - 1) in
  match border (fst p), border (snd p) with
  | true, true => Corner
  | false, false => Center
  | _, _ => Edge
  end.

Definition neighbor_count (p : Z * Z) : nat :=
  match place_of p with
  | Corner => 2
  | Edge => 3
  | Center => 4
  end.

(** The positions the blank moves to, in the order up, down, left, right. *)
Definition targets (p : Z * Z) : list (Z * Z) :=
  List.filter (fun q => in_bounds (fst q) (snd q))
    [(fst p - 1, snd p); (fst p + 1, snd p); (fst p, snd p - 1); (fst p, snd p + 1)].

(** Row-major order of positions. *)
Definition row_major_lt (q p : Z * Z) : Prop :=
  fst q < fst p ∨ (fst q = fst p ∧ snd q < snd p).

(** Each element of [path] has the one before it as its recorded
    predecessor, the first having [prev]. *)
Fixpoint linked (came_from : gmap Grid Grid) (prev : Grid) (path : list Grid)
    : Prop :=
  match path with
  | [] => True
  | x :: rest => came_from !! x = Some prev ∧ linked came_from x rest
  end.

(** The start of the concrete scenario: one slide from the goal. *)
Definition one_slide_start : Grid := [[1; 2; 3]; [4; 5; 6]; [7; 0; 8]].

(** ** Vocabulary of the object store *)

(** The goal grid as an object in an otherwise empty store. *)
Definition goal_loc : loc := (store_grid goal_state ∅).1.
Definition goal_heap : heap := (store_grid goal_state ∅).2.


(** [l] holds a grid object whose rows are the row objects [rows], with
    the contents of [g]. *)
Definition grid_obj (h : heap) (l : loc) (rows : list loc) (g : Grid) : Prop :=
  h !! l = Some (RefList rows) ∧
  Forall2 (fun r cells => h !! r = Some (IntList cells)) rows g.

(** A grid object made after [h0]: neither it nor its rows existed in
    [h0], and its rows are objects of their own. *)
Definition owned (h0 h : heap) (l : loc) (rows : list loc) (g : Grid) : Prop :=
  grid_obj h l rows g ∧ NoDup rows ∧ h0 !! l = None ∧
  Forall (fun r => h0 !! r = None) rows.

(** The neighbours built so far: [ls] are objects made after [h0] holding
    the values [ns]; nothing of [h0] has changed. *)
Definition built (h0 h : heap) (ls : list loc) (ns : list Grid) : Prop :=
  h0 ⊆ h ∧
  Forall2 (fun l n => ∃ rows, grid_obj h l rows n ∧ h0 !! l = None) ls ns.

(** The values a shuffle passes through: from each grid to one of its
    neighbours, the [i]-th draw choosing which. *)
Fixpoint walk (rand : nat -> nat) (i moves : nat) (g : Grid) : outcome Grid :=
  match moves with
  | O => Returns g
  | S moves' =>
      ns ← get_neighbors g;
      n ← choice (rand i) ns;
      walk rand (S i) moves' n
  end.

(** ** Vocabulary of the searches *)

(** The invariant of the [dfs] stack: the path of an entry, with its
    state put at the end, is a chain of slides that begins at the start. *)
Definition dfs_entry_ok (start : Grid) (e : dfs_entry) : Prop :=
  head (e.1.2 ++ [e.1.1]) = Some start ∧ slide_chain (e.1.2 ++ [e.1.1]).

(** The predecessor maps of [bfs] and [ucs]: the start has no entry, and
    every entry records a grid of which the key is a neighbour, itself the
    start or a key. *)
Definition came_from_ok (start : Grid) (came_from : gmap Grid Grid) : Prop :=
  came_from !! start = None ∧
  ∀ k p, came_from !! k = Some p →
         is_neighbor p k ∧ (p = start ∨ is_Some (came_from !! p)).

Definition known (start : Grid) (came_from : gmap Grid Grid) (g : Grid) : Prop :=
  g = start ∨ is_Some (came_from !! g).

Definition bfs_inv (start : Grid) (st : bfs_state) : Prop :=
  came_from_ok start (bfs_came_from st) ∧
  start ∈ bfs_visited st ∧
  Forall (known start (bfs_came_from st)) (bfs_queue st).

Definition ucs_inv (start : Grid) (st : ucs_state) : Prop :=
  came_from_ok start (ucs_came_from st) ∧
  ucs_cost_so_far st !! start = Some 0 ∧
  Forall (fun e : Z * Grid => 0 ≤ e.1 ∧ known start (ucs_came_from st) e.2)
         (ucs_queue st).

(** [reach start k g]: [g] is [k] slides away from [start]. *)
Inductive reach (start : Grid) : nat → Grid → Prop :=
  | reach_O : reach start 0 start
  | reach_S k g n : reach start k g → is_neighbor g n → reach start (S k) n.

(** All neighbours of [g] have been seen. *)
Definition expanded (visited : gset Grid) (g : Grid) : Prop :=
  ∀ n, is_neighbor g n → n ∈ visited.

(** The levels of a breadth-first search: [lvl] gives every grid seen its
    distance from the start; the queue holds grids of level [d] (in [A])
    followed by grids of level [d + 1] (in [B]); every grid of a lower
    level has been expanded, and so has every grid of level [d] that is
    not waiting in [A] (or excused by [ex], while it is being expanded). *)
Record bfs_levels (start : Grid) (d : nat) (A B : list Grid)
    (ex : Grid → Prop) (st : bfs_state) (lvl : gmap Grid nat) : Prop := {
  lv_queue : bfs_queue st = A ++ B;
  lv_start : lvl !! start = Some 0%nat;
  lv_dom : ∀ g, g ∈ bfs_visited st ↔ is_Some (lvl !! g);
  lv_min : ∀ g k j, lvl !! g = Some k → reach start j g → (k ≤ j)%nat;
  lv_pred : ∀ g p, bfs_came_from st !! g = Some p →
                   ∃ k, lvl !! p = Some k ∧ lvl !! g = Some (S k);
  lv_A : Forall (fun g => lvl !! g = Some d) A;
  lv_B : Forall (fun g => lvl !! g = Some (S d)) B;
  lv_below : ∀ g k, lvl !! g = Some k → (k < d)%nat →
                    expanded (bfs_visited st) g;
  lv_at : ∀ g, lvl !! g = Some d →
               g ∈ A ∨ expanded (bfs_visited st) g ∨ ex g;
  lv_top : ∀ g k, lvl !! g = Some k → (k ≤ S d)%nat ∧ (k = S d → g ∈ B);
  lv_near : ∀ g j, reach start j g → (j ≤ d)%nat → g ∈ bfs_visited st
}.

(** All neighbours of [g] have a recorded cost. *)
Definition costed (cost_so_far : gmap Grid Z) (g : Grid) : Prop :=
  ∀ n, is_neighbor g n → is_Some (cost_so_far !! n).

(** The levels of the uniform-cost search, the recorded costs serving as
    levels: the queue holds entries of cost [d] (in [A]) followed by
    entries of cost [d + 1] (in [B]). *)
Record ucs_levels (start : Grid) (d : Z) (A B : list (Z * Grid))
    (ex : Grid → Prop) (st : ucs_state) (visited : gset Grid) : Prop := {
  ul_queue : ucs_queue st = A ++ B;
  ul_start : ucs_cost_so_far st !! start = Some 0;
  ul_min : ∀ g k j, ucs_cost_so_far st !! g = Some k → reach start j g →
                    k ≤ Z.of_nat j;
  ul_pred : ∀ g p, ucs_came_from st !! g = Some p →
                   ∃ k, ucs_cost_so_far st !! p = Some k ∧
                        ucs_cost_so_far st !! g = Some (k + 1);
  ul_A : Forall (fun e : Z * Grid =>
                   e.1 = d ∧ ucs_cost_so_far st !! e.2 = Some d) A;
  ul_B : Forall (fun e : Z * Grid =>
                   e.1 = d + 1 ∧ ucs_cost_so_far st !! e.2 = Some (d + 1)) B;
  ul_below : ∀ g k, ucs_cost_so_far st !! g = Some k → k < d →
                    costed (ucs_cost_so_far st) g;
  ul_at : ∀ g, ucs_cost_so_far st !! g = Some d →
               (d, g) ∈ A ∨ costed (ucs_cost_so_far st) g ∨ ex g;
  ul_top : ∀ g k, ucs_cost_so_far st !! g = Some k →
                  0 ≤ k ≤ d + 1 ∧ (k = d + 1 → (d + 1, g) ∈ B);
  ul_near : ∀ g j, reach start j g → Z.of_nat j ≤ d →
                   is_Some (ucs_cost_so_far st !! g);
  ul_visited : ∀ g, g ∈ visited → costed (ucs_cost_so_far st) g
}.

(** ** Vocabulary of termination *)

(** A set of grids on which the neighbour generator returns and which it
    does not leave. *)
Definition closed (U : gset Grid) : Prop :=
  ∀ g, g ∈ U → ∃ ns, get_neighbors g = Returns ns ∧ ∀ n, n ∈ ns → n ∈ U.

Definition rows_of (cells : list Z) : Grid :=
  [take 3 cells; take 3 (drop 3 cells); drop 6 cells].

(** The finite set of all valid grids. *)
Definition valid_grids : gset Grid :=
  list_to_set (rows_of <$> permutations (seqZ 0 9)).

(** What is left to do: the grids not seen yet count twice, the grids
    waiting once. *)
Definition bfs_measure (U : gset Grid) (st : bfs_state) : nat :=
  (2 * size (U ∖ bfs_visited st) + length (bfs_queue st))%nat.

(** What is left to do: the grids not seen yet count five times (the pop
    that sees one pushes at most four), the stack entries once. *)
Definition dfs_measure (U : gset Grid) (stack : list dfs_entry)
    (visited : gset Grid) : nat :=
  (5 * size (U ∖ visited) + length stack)%nat.

(** What is left to do: the grids not expanded yet count five times (an
    expansion pushes at most four entries), the entries waiting once. *)
Definition ucs_measure (U : gset Grid) (st : ucs_state) (visited : gset Grid)
    : nat :=
  (5 * size (U ∖ visited) + length (ucs_queue st))%nat.

(** What the search carries besides its levels: it stays inside [U], and a
    goal with a recorded cost is waiting in the queue. *)
Definition ucs_within (U : gset Grid) (goal : Grid) (st : ucs_state) : Prop :=
  Forall (fun e : Z * Grid => e.2 ∈ U) (ucs_queue st) ∧
  (is_Some (ucs_cost_so_far st !! goal) → ∃ c, (c, goal) ∈ ucs_queue st).

(** ** Vocabulary of the program *)

(** The invariant of the [dfs] stack that bounds the result: the depth of
    an entry is the length of its path, the path has no grid twice, and
    every grid on it has been visited. *)
Definition dfs_entry_bounded (visited : gset Grid) (e : dfs_entry) : Prop :=
  Z.of_nat (length e.1.2) = e.2 ∧ NoDup e.1.2 ∧ ∀ x, x ∈ e.1.2 → x ∈ visited.

(** The colour of the blank's square on a chequerboard. *)
Definition blank_odd (g : Grid) : bool :=
  match find_zero g with
  | Returns (Some (row, col)) => Z.odd (row + col)
  | _ => false
  end.

(** The draws that go to the first neighbour and come back: [back] is the
    place of the start among the neighbours of that neighbour. *)
Definition there_and_back (back : nat) (i : nat) : nat :=
  if Nat.even i then 0%nat else back.

(** The frames a list of events draws. *)
Definition frames (events : list event) : list (Grid * bool) :=
  omap (fun e => match e with
                 | DrawPuzzle state is_solution => Some (state, is_solution)
                 | _ => None
                 end) events.

(** The goal with the tiles 7 and 8 exchanged. *)
Definition exchanged_start : Grid := [[1; 2; 3]; [4; 5; 6]; [8; 7; 0]].

(** A grid without a blank. *)
Definition blankless_start : Grid := [[1; 2; 3]; [4; 5; 6]; [7; 8; 9]].

(** * Properties *)

(** ** Grids of three rows of three cells, symbolically *)

Lemma shape33_inv g : shape33 g →
  ∃ a b c d e f x y z, g = [[a;b;c];[d;e;f];[x;y;z]].
Proof.
  intros [Hl Hr].
  destruct g as [|r1 [|r2 [|r3 [|]]]]; try discriminate.
  repeat match goal with H : Forall _ (_ :: _) |- _ => apply Forall_cons in H as [? H] end.
  destruct r1 as [|? [|? [|? [|]]]]; try discriminate.
  destruct r2 as [|? [|? [|? [|]]]]; try discriminate.
  destruct r3 as [|? [|? [|? [|]]]]; try discriminate.
  eauto 10.
Qed.

Lemma find_zero_33 a b c d e f x y z :
  find_zero [[a;b;c];[d;e;f];[x;y;z]] =
  Returns (if a =? 0 then Some (0,0) else if b =? 0 then Some (0,1) else
           if c =? 0 then Some (0,2) else if d =? 0 then Some (1,0) else
           if e =? 0 then Some (1,1) else if f =? 0 then Some (1,2) else
           if x =? 0 then Some (2,0) else if y =? 0 then Some (2,1) else
           if z =? 0 then Some (2,2) else None).
Proof.
  cbv -[Z.eqb].
  repeat (match goal with |- context [?v =? 0] => destruct (v =? 0) end; try reflexivity).
Qed.

Lemma get_neighbors_33 a b c d e f x y z :
  get_neighbors [[a; b; c]; [d; e; f]; [x; y; z]] =
  if a =? 0 then Returns
    [[[d; b; c]; [0; e; f]; [x; y; z]];
     [[b; 0; c]; [d; e; f]; [x; y; z]]]
  else if b =? 0 then Returns
    [[[a; e; c]; [d; 0; f]; [x; y; z]];
     [[0; a; c]; [d; e; f]; [x; y; z]];
     [[a; c; 0]; [d; e; f]; [x; y; z]]]
  else if c =? 0 then Returns
    [[[a; b; f]; [d; e; 0]; [x; y; z]];
     [[a; 0; b]; [d; e; f]; [x; y; z]]]
  else if d =? 0 then Returns
    [[[0; b; c]; [a; e; f]; [x; y; z]];
     [[a; b; c]; [x; e; f]; [0; y; z]];
     [[a; b; c]; [e; 0; f]; [x; y; z]]]
  else if e =? 0 then Returns
    [[[a; 0; c]; [d; b; f]; [x; y; z]];
     [[a; b; c]; [d; y; f]; [x; 0; z]];
     [[a; b; c]; [0; d; f]; [x; y; z]];
     [[a; b; c]; [d; f; 0]; [x; y; z]]]
  else if f =? 0 then Returns
    [[[a; b; 0]; [d; e; c]; [x; y; z]];
     [[a; b; c]; [d; e; z]; [x; y; 0]];
     [[a; b; c]; [d; 0; e]; [x; y; z]]]
  else if x =? 0 then Returns
    [[[a; b; c]; [0; e; f]; [d; y; z]];
     [[a; b; c]; [d; e; f]; [y; 0; z]]]
  else if y =? 0 then Returns
    [[[a; b; c]; [d; 0; f]; [x; e; z]];
     [[a; b; c]; [d; e; f]; [0; x; z]];
     [[a; b; c]; [d; e; f]; [x; z; 0]]]
  else if z =? 0 then Returns
    [[[a; b; c]; [d; e; 0]; [x; y; f]];
     [[a; b; c]; [d; e; f]; [x; 0; y]]]
  else Raises TypeError.
Proof.
  unfold get_neighbors. rewrite find_zero_33.
  repeat (match goal with |- context [?v =? 0] => destruct (v =? 0) end; [reflexivity|]).
  reflexivity.
Qed.

Lemma count_smaller_app x l1 l2 :
  count_smaller x (l1 ++ l2) = count_smaller x l1 + count_smaller x l2.
Proof. induction l1 as [|y l1 IH]; simpl; [done | rewrite IH; lia]. Qed.

Lemma mod2_shift u v k : u = v + 2 * k → u mod 2 = v mod 2.
Proof. intros ->. rewrite Z.mul_comm. apply Z_mod_plus_full. Qed.

Lemma inversions_jump l1 a b c l2 :
  a ≠ b → a ≠ c →
  inversions (l1 ++ a :: b :: c :: l2) mod 2 =
  inversions (l1 ++ b :: c :: a :: l2) mod 2.
Proof.
  intros Hab Hac. induction l1 as [|x l1 IH]; simpl.
  - rewrite !Z.gtb_ltb.
    destruct (Z.ltb_spec b a), (Z.ltb_spec a b), (Z.ltb_spec c a),
      (Z.ltb_spec a c); try lia;
      first [ apply (mod2_shift _ _ 0); lia | apply (mod2_shift _ _ 1); lia
            | apply (mod2_shift _ _ (-1)); lia ].
  - rewrite !count_smaller_app. simpl.
    rewrite (Z.add_mod _ (inversions (l1 ++ a :: _))), IH, <- Z.add_mod by lia.
    f_equal. lia.
Qed.

Lemma valid_grid_inv g :
  valid_grid g →
  ∃ a b c d e f x y z,
    g = [[a; b; c]; [d; e; f]; [x; y; z]] ∧
    [a; b; c; d; e; f; x; y; z] ≡ₚ seqZ 0 9.
Proof.
  intros [Hs Hp]. destruct (shape33_inv g Hs) as (a&b&c&d&e&f&x&y&z&->).
  by exists a, b, c, d, e, f, x, y, z.
Qed.


Lemma flat_state_33 a b c d e f x y z :
  flat_state [[a; b; c]; [d; e; f]; [x; y; z]] =
  List.filter (fun num => negb (num =? 0)) [a; b; c; d; e; f; x; y; z].
Proof.
  unfold flat_state. cbn [mbind list_bind]. 
  change [a; b; c; d; e; f; x; y; z] with ([a; b; c] ++ [d; e; f] ++ [x; y; z] ++ []).
  by rewrite !List.filter_app.
Qed.

Lemma filter_blank l :
  List.filter (fun num => negb (num =? 0)) (0 :: l) =
  List.filter (fun num => negb (num =? 0)) l.
Proof. done. Qed.

Lemma filter_tile v l :
  v ≠ 0 →
  List.filter (fun num => negb (num =? 0)) (v :: l) =
  v :: List.filter (fun num => negb (num =? 0)) l.
Proof. intros Hv. simpl. by rewrite (proj2 (Z.eqb_neq v 0) Hv). Qed.

Ltac neq := first [ assumption | apply not_eq_sym; assumption ].

Ltac jump :=
  first [ reflexivity
        | apply (inversions_jump []); neq | symmetry; apply (inversions_jump []); neq
        | apply (inversions_jump [_]); neq | symmetry; apply (inversions_jump [_]); neq
        | apply (inversions_jump [_; _]); neq | symmetry; apply (inversions_jump [_; _]); neq
        | apply (inversions_jump [_; _; _]); neq | symmetry; apply (inversions_jump [_; _; _]); neq
        | apply (inversions_jump [_; _; _; _]); neq | symmetry; apply (inversions_jump [_; _; _; _]); neq
        | apply (inversions_jump [_; _; _; _; _]); neq | symmetry; apply (inversions_jump [_; _; _; _; _]); neq ].

Lemma on_grid_cases p :
  on_grid p →
  p ∈ [(0, 0); (0, 1); (0, 2); (1, 0); (1, 1); (1, 2); (2, 0); (2, 1); (2, 2)].
Proof.
  destruct p as [r c]. unfold on_grid, GRID_SIZE. simpl. intros [Hr Hc].
  assert (r = 0 ∨ r = 1 ∨ r = 2) as Hr' by lia.
  assert (c = 0 ∨ c = 1 ∨ c = 2) as Hc' by lia.
  clear Hr Hc. set_unfold. destruct_or!; subst; tauto.
Qed.

Ltac valid_cases Hv :=
  let Hp := fresh "Hp" in
  let Hnd := fresh "Hnd" in
  let Hin := fresh "Hin" in
  apply valid_grid_inv in Hv as (?a & ?b & ?c & ?d & ?e & ?f & ?x & ?y & ?z & -> & Hp);
  pose proof (NoDup_seqZ 0 9) as Hnd; rewrite <- Hp in Hnd;
  assert (0 ∈ seqZ 0 9) as Hin by (apply elem_of_seqZ; lia); rewrite <- Hp in Hin;
  repeat rewrite ?NoDup_cons, ?not_elem_of_cons in Hnd; destruct_and!;
  set_unfold in Hin;
  rewrite ?find_zero_33, ?get_neighbors_33;
  repeat match goal with
         | |- context [?v =? 0] => destruct (Z.eqb_spec v 0); [subst v|]
         end;
  [ .. | exfalso; destruct_or!; congruence ].

(** Every neighbour of a valid grid has the inversion parity of the grid. *)
Lemma neighbor_parity g :
  valid_grid g →
  ∃ ns, get_neighbors g = Returns ns ∧ ∀ n, n ∈ ns → is_solvable n = is_solvable g.
Proof.
  intros Hv. valid_cases Hv.
  all: eexists; split; [reflexivity|]; intros g Hg; set_unfold in Hg.
  all: destruct_or!; try done; subst g; unfold is_solvable; rewrite !flat_state_33;
    repeat first [ rewrite filter_blank | rewrite filter_tile by neq ];
    f_equal; simpl List.filter.
  all: jump.
Qed.

(** What [get_neighbors] returns on a valid grid, as values. *)
Lemma neighbors_of_valid g :
  valid_grid g →
  ∃ p ns, find_zero g = Returns (Some p) ∧ on_grid p ∧
    get_neighbors g = Returns ns ∧
    (length ns = neighbor_count p ∧ 2 ≤ length ns ≤ 4)%nat ∧
    Forall2 (fun q n => adjacent p q ∧ swapped g p q n ∧ valid_grid n) (targets p) ns.
Proof.
  intros Hv. valid_cases Hv.
  all: do 2 eexists; split; [reflexivity|]; split; [by vm_compute|];
    split; [reflexivity|]; split; [vm_compute; lia|].
  all: match goal with
       | |- context [targets ?p] =>
           let t := eval vm_compute in (targets p) in change (targets p) with t
       end.
  all: repeat (apply List.Forall2_cons; [split_and?|]); try apply List.Forall2_nil.
  all: try reflexivity.
  all: try (split; [by split; [|repeat constructor]|]; simpl; rewrite <- Hp; solve_Permutation).
  all: unfold swapped; split_and?; try reflexivity.
  all: intros p Hp' **; apply on_grid_cases in Hp'; set_unfold in Hp'; destruct_or!; subst p; done.
Qed.

(** ** The object store refines the value model *)

Lemma read_grid_obj h l g :
  read_grid h l = Some g ↔ ∃ rows, grid_obj h l rows g.
Proof.
  unfold read_grid, grid_obj. split.
  - destruct (h !! l) as [[|rows]|] eqn:Hl; try done.
    intros Hm. exists rows. split; [done|].
    apply mapM_Some in Hm. eapply Forall2_impl; [done|].
    intros r cells. unfold read_row. by destruct (h !! r) as [[]|]; intros [= ->].
  - intros (rows & -> & HF). apply mapM_Some.
    eapply Forall2_impl; [done|]. intros r cells Hr. unfold read_row. by rewrite Hr.
Qed.

Lemma grid_obj_mono h h' l rows g :
  h ⊆ h' → grid_obj h l rows g → grid_obj h' l rows g.
Proof.
  intros Hsub [Hl HF]. split; [exact (lookup_weaken _ _ _ _ Hl Hsub)|].
  eapply Forall2_impl; [done|]. intros r cells Hr. exact (lookup_weaken _ _ _ _ Hr Hsub).
Qed.

Lemma getitem_Forall2 {A B} (P : A → B → Prop) (l : list A) (k : list B) i :
  Forall2 P l k →
  match getitem l i, getitem k i with
  | Returns x, Returns y => P x y ∧ ∃ j, l !! j = Some x ∧ k !! j = Some y
                            ∧ j = Z.to_nat (norm_index (Z.of_nat (length l)) i)
  | Raises e, Raises e' => e = e'
  | _, _ => False
  end.
Proof.
  intros HF. unfold getitem. rewrite <- (Forall2_length _ _ _ HF).
  destruct (_ <? 0); [done|].
  set (j := Z.to_nat _).
  destruct (l !! j) as [x|] eqn:Hx.
  - destruct (Forall2_lookup_l _ _ _ _ _ HF Hx) as (y & Hy & HP). rewrite Hy. eauto 10.
  - assert (k !! j = None) as ->; [|done].
    apply lookup_ge_None. apply lookup_ge_None in Hx.
    by rewrite <- (Forall2_length _ _ _ HF).
Qed.

Lemma h_getitem2_obj h l rows g row col :
  grid_obj h l rows g → h_getitem2 h l row col = getitem2 g row col.
Proof.
  intros [Hl HF]. unfold h_getitem2, getitem2, load_rows. rewrite Hl. simpl.
  pose proof (getitem_Forall2 _ _ _ row HF) as H.
  destruct (getitem rows row) as [r| |], (getitem g row) as [cells| |];
    try done; simpl.
  - destruct H as [Hr _]. unfold load_cells. by rewrite Hr.
  - by subst.
Qed.

Lemma find_zero_at_ext (f1 f2 : Z → Z → outcome Z) :
  (∀ r c, f1 r c = f2 r c) → find_zero_at f1 = find_zero_at f2.
Proof.
  intros Hf. unfold find_zero_at.
  assert (Hcols : ∀ row cols, find_zero_cols f1 row cols = find_zero_cols f2 row cols).
  { intros row cols. induction cols as [|c cols IH]; simpl; [done|].
    rewrite Hf. destruct (f2 row c); simpl; [|done..]. by rewrite IH. }
  assert (Hrows : ∀ rows, find_zero_rows f1 rows = find_zero_rows f2 rows);
    [|by apply Hrows].
  induction rows as [|r rows IH]; cbn [find_zero_rows]; [done|].
  rewrite Hcols. by destruct (find_zero_cols f2 r _) as [[]| |].
Qed.

Lemma h_find_zero_obj h l rows g :
  grid_obj h l rows g → h_find_zero h l = find_zero g.
Proof.
  intros Hg. apply find_zero_at_ext. intros. by eapply h_getitem2_obj.
Qed.

(** *** Copying *)

Lemma alloc_fresh o h l h' :
  alloc o h = (l, h') → h !! l = None ∧ h' = <[l := o]> h ∧ h ⊆ h'.
Proof.
  unfold alloc. intros [= <- <-].
  assert (h !! fresh (dom h) = None) as Hf.
  { apply not_elem_of_dom. apply is_fresh. }
  split_and!; [done..|]. by apply insert_subseteq.
Qed.

Lemma h_copy_rows_spec h rows g :
  Forall2 (fun r cells => h !! r = Some (IntList cells)) rows g →
  ∃ rows' h',
    h_copy_rows h rows = Returns (rows', h') ∧
    h ⊆ h' ∧
    Forall2 (fun r cells => h' !! r = Some (IntList cells)) rows' g ∧
    NoDup rows' ∧
    Forall (fun r => h !! r = None) rows' ∧
    (∀ k, h' !! k = None ∨ is_Some (h !! k) ∨ k ∈ rows').
Proof.
  intros HF. revert h rows HF. induction g as [|cells g IH]; intros h rows HF.
  - apply Forall2_nil_inv_r in HF as ->. exists [], h. simpl.
    split_and!; [done|done|constructor|constructor|constructor|].
    intros k0. destruct (h !! k0); eauto.
  - apply Forall2_cons_inv_r in HF as (r & rows0 & Hr & HF & ->).
    simpl. unfold load_cells at 1. rewrite Hr. simpl.
    destruct (alloc_fresh (IntList cells) h _ _ eq_refl) as (Hr' & _ & Hsub).
    set (r' := fresh (dom h)) in *.
    destruct (IH (<[r' := IntList cells]> h) rows0) as (rows' & h' & -> & Hsub' & HF' & Hnd & Hfr & Hdom).
    { eapply Forall2_impl; [done|]. intros r0 c0 H0.
      exact (lookup_weaken _ _ _ _ H0 Hsub). }
    simpl. exists (r' :: rows'), h'. split_and!; try done.
    + by trans (<[r' := IntList cells]> h).
    + constructor; [|done]. apply (lookup_weaken _ _ _ _ (lookup_insert_eq h r' _) Hsub').
    + constructor; [|done]. intros Hin.
      rewrite Forall_forall in Hfr. specialize (Hfr _ Hin).
      by rewrite lookup_insert_eq in Hfr.
    + constructor; [done|]. eapply Forall_impl; [done|]. simpl.
      intros k Hk. destruct (decide (r' = k)) as [->|]; [by rewrite lookup_insert_eq in Hk|].
      by rewrite lookup_insert_ne in Hk.
    + intros k. destruct (Hdom k) as [?|[Hk|?]]; [by left| |right; right; set_solver].
      destruct (decide (r' = k)) as [->|]; [right; right; set_solver|].
      rewrite lookup_insert_ne in Hk by done. by right; left.
Qed.

Lemma h_copy_grid_spec h l rows g :
  grid_obj h l rows g →
  ∃ l' h' rows',
    h_copy_grid h l = Returns (l', h') ∧ h ⊆ h' ∧ owned h h' l' rows' g.
Proof.
  intros [Hl HF]. unfold h_copy_grid, load_rows. rewrite Hl. simpl.
  destruct (h_copy_rows_spec h rows g HF) as (rows' & h1 & -> & Hsub & HF' & Hnd & Hfr & _).
  simpl. destruct (alloc_fresh (RefList rows') h1 _ _ eq_refl) as (Hl' & _ & Hsub').
  set (l' := fresh (dom h1)) in *.
  exists l', (<[l' := RefList rows']> h1), rows'. split; [done|].
  split; [by trans h1|]. unfold owned, grid_obj. split_and!; try done.
  - apply lookup_insert_eq.
  - eapply Forall2_impl; [done|]. intros r cells Hr.
    exact (lookup_weaken _ _ _ _ Hr Hsub').
  - destruct (h !! l') eqn:E; [|done].
    by rewrite (lookup_weaken _ _ _ _ E Hsub) in Hl'.
Qed.

Lemma setitem_getitem {A} (l : list A) i x y :
  getitem l i = Returns x →
  l !! Z.to_nat (norm_index (Z.of_nat (length l)) i) = Some x ∧
  setitem l i y = Returns (<[Z.to_nat (norm_index (Z.of_nat (length l)) i) := y]> l).
Proof.
  unfold getitem, setitem. destruct (_ <? 0); [done|].
  destruct (l !! _) eqn:E; [|done]. by intros [= ->].
Qed.

Lemma setitem_Returns {A} (l : list A) i y l' :
  setitem l i y = Returns l' → ∃ x, getitem l i = Returns x.
Proof.
  unfold getitem, setitem. destruct (_ <? 0); [done|].
  destruct (l !! _) eqn:E; [eauto|done].
Qed.

Lemma bind_Returns {A B} (m : outcome A) (f : A → outcome B) b :
  m ≫= f = Returns b ↔ ∃ a, m = Returns a ∧ f a = Returns b.
Proof.
  destruct m; simpl; split; try (intros (? & [=] & _); fail); try done; eauto.
  by intros (? & [= <-] & ?).
Qed.

Lemma h_setitem2_owned h0 h l rows g row col v g' :
  h0 ⊆ h → owned h0 h l rows g →
  setitem2 g row col v = Returns g' →
  ∃ h', h_setitem2 h l row col v = Returns h' ∧ h0 ⊆ h' ∧ owned h0 h' l rows g'.
Proof.
  intros Hsub ([Hl HF] & Hnd & Hl0 & Hfr) Hset.
  unfold setitem2 in Hset.
  apply bind_Returns in Hset as (cells & Hget & Hset).
  apply bind_Returns in Hset as (cells' & Hset & Hset').
  destruct (setitem_Returns _ _ _ _ Hset') as (cells0 & Hget0).
  apply (setitem_getitem _ _ _ cells') in Hget0 as [_ Hset''].
  rewrite Hset' in Hset''. injection Hset'' as ->.
  pose proof (getitem_Forall2 _ _ _ row HF) as Hrow. rewrite Hget in Hrow.
  destruct (getitem rows row) as [r| |] eqn:Hr; try done.
  destruct Hrow as (Hcells & j & Hj & Hj' & Hjeq).
  rewrite <- (Forall2_length _ _ _ HF), <- Hjeq.
  unfold h_setitem2, load_rows, load_cells. rewrite Hl. simpl. rewrite Hr. simpl.
  rewrite Hcells. simpl. rewrite Hset. simpl.
  eexists. split; [done|].
  assert (h0 !! r = None) as Hr0.
  { rewrite Forall_forall in Hfr. apply Hfr. by eapply list_elem_of_lookup_2. }
  split; [by apply insert_subseteq_r|].
  unfold owned, grid_obj. split_and!; try done.
  - rewrite lookup_insert_ne; [done|]. intros ->. congruence.
  - apply Forall2_same_length_lookup_2.
    { rewrite length_insert. by eapply Forall2_length. }
    intros i r' c' Hi Hi'.
    destruct (decide (i = j)) as [->|Hne].
    + rewrite list_lookup_insert_eq in Hi' by (by eapply lookup_lt_Some).
      injection Hi' as <-. rewrite Hj in Hi. injection Hi as <-.
      apply lookup_insert_eq.
    + rewrite list_lookup_insert_ne in Hi' by done.
      rewrite lookup_insert_ne.
      * exact (Forall2_lookup_lr _ _ _ _ _ _ HF Hi Hi').
      * intros ->. apply Hne. symmetry. by eapply NoDup_lookup.
Qed.

(** *** The loop of [get_neighbors] *)

Lemma for_each_sim {A S T} (R : S → T → Prop) (xs : list A)
    (f : A → S → outcome S) (k : A → T → outcome T) s t s' :
  (∀ x s t s', R s t → f x s = Returns s' → ∃ t', k x t = Returns t' ∧ R s' t') →
  R s t → for_each xs f s = Returns s' →
  ∃ t', for_each xs k t = Returns t' ∧ R s' t'.
Proof.
  intros Hstep. revert s t. induction xs as [|x xs IH]; intros s t HR; simpl.
  - intros [= <-]. eauto.
  - intros Hf. apply bind_Returns in Hf as (s1 & Hs1 & Hf).
    destruct (Hstep _ _ _ _ HR Hs1) as (t1 & -> & HR1). simpl. eauto.
Qed.

Lemma built_mono h0 h h' ls ns :
  h ⊆ h' → built h0 h ls ns → built h0 h' ls ns.
Proof.
  intros Hsub [H0 HF]. split; [by trans h|].
  eapply Forall2_impl; [done|]. intros l n (rows & Hg & Hl).
  exists rows. split; [by eapply grid_obj_mono|done].
Qed.

Lemma h_neighbor_step_spec h0 h l rows g zero_pos d ls ns ns' :
  grid_obj h0 l rows g → built h0 h ls ns →
  neighbor_step g zero_pos d ns = Returns ns' →
  ∃ ls' h', h_neighbor_step l zero_pos d (ls, h) = Returns (ls', h') ∧
            built h0 h' ls' ns'.
Proof.
  intros Hg Hb. unfold neighbor_step, h_neighbor_step.
  destruct zero_pos as [[zr zc]|]; [|done].
  destruct (in_bounds _ _); [|intros [= <-]; eauto].
  intros Hstep.
  apply bind_Returns in Hstep as (v & Hv & Hstep).
  apply bind_Returns in Hstep as (g1 & Hg1 & Hstep).
  apply bind_Returns in Hstep as (g2 & Hg2 & [= <-]).
  destruct Hb as [Hsub Hls].
  destruct (h_copy_grid_spec h l rows g) as (l' & h1 & rows' & -> & Hsub1 & Hown).
  { by eapply grid_obj_mono. }
  simpl. rewrite (h_getitem2_obj h1 l' rows' g) by apply Hown. rewrite Hv. simpl.
  destruct (h_setitem2_owned h h1 l' rows' g _ _ _ _ Hsub1 Hown Hg1)
    as (h2 & -> & Hsub2 & Hown2). simpl.
  destruct (h_setitem2_owned h h2 l' rows' g1 _ _ _ _ Hsub2 Hown2 Hg2)
    as (h3 & -> & Hsub3 & Hown3). simpl.
  do 2 eexists. split; [done|]. split; [by trans h|].
  apply Forall2_app.
  - eapply Forall2_impl; [done|]. intros k n (rows0 & Hk & Hk0).
    exists rows0. split; [by eapply grid_obj_mono|done].
  - constructor; [|constructor]. exists rows'. split; [apply Hown3|].
    destruct Hown3 as (_ & _ & Hl' & _).
    destruct (h0 !! l') eqn:E; [|done].
    by rewrite (lookup_weaken _ _ _ _ E Hsub) in Hl'.
Qed.

(** [get_neighbors] on objects returns new objects holding the values the
    value model computes, and leaves every existing object as it was. *)
Lemma h_get_neighbors_spec h l rows g ns :
  grid_obj h l rows g → get_neighbors g = Returns ns →
  ∃ ls h', h_get_neighbors h l = Returns (ls, h') ∧ built h h' ls ns.
Proof.
  intros Hg Hns. unfold get_neighbors in Hns.
  apply bind_Returns in Hns as (zero_pos & Hz & Hloop).
  destruct (for_each_sim (fun ns '(ls, h') => built h h' ls ns) directions
              (neighbor_step g zero_pos) (h_neighbor_step l zero_pos)
              [] ([], h) ns) as ([ls h'] & Hrun & Hb); [|by split; [|constructor]|done|].
  - intros d ns0 [ls0 h1] ns1 Hb Hs.
    destruct (h_neighbor_step_spec h h1 l rows g zero_pos d ls0 ns0 ns1 Hg Hb Hs)
      as (ls1 & h2 & ? & ?).
    by exists (ls1, h2).
  - exists ls, h'. split; [|done].
    unfold h_get_neighbors. rewrite (h_find_zero_obj h l rows g Hg), Hz. exact Hrun.
Qed.

(** *** shuffle_puzzle *)

Lemma choice_Forall2 {A B} (P : A → B → Prop) k (ls : list A) (ns : list B) n :
  Forall2 P ls ns → choice k ns = Returns n →
  ∃ l, choice k ls = Returns l ∧ P l n.
Proof.
  intros HF. unfold choice. rewrite (Forall2_length _ _ _ HF).
  destruct (ns !! _) as [n'|] eqn:Hn; [|done]. intros [= ->].
  destruct (Forall2_lookup_r _ _ _ _ _ HF Hn) as (l & -> & HP). eauto.
Qed.

Lemma choice_elem {A} k (xs : list A) :
  xs ≠ [] → ∃ x, choice k xs = Returns x ∧ x ∈ xs.
Proof.
  intros Hne. unfold choice.
  destruct (lookup_lt_is_Some_2 xs (k mod length xs)%nat) as [x Hx].
  { apply Nat.mod_upper_bound. by destruct xs. }
  rewrite Hx. exists x. split; [done|]. by eapply list_elem_of_lookup_2.
Qed.

Lemma shuffle_step_spec rand h l rows g i ns n :
  grid_obj h l rows g → get_neighbors g = Returns ns →
  choice (rand i) ns = Returns n →
  ∃ h' rows',
    shuffle_step rand l i h = Returns h' ∧ grid_obj h' l rows' n ∧
    ∀ k, k ≠ l → is_Some (h !! k) → h' !! k = h !! k.
Proof.
  intros Hg Hns Hn. unfold shuffle_step.
  destruct (h_get_neighbors_spec h l rows g ns Hg Hns) as (ls & h1 & -> & Hsub & HF).
  simpl.
  destruct (choice_Forall2 _ _ _ _ _ HF Hn) as (lc & -> & rows' & [Hlc Hrows] & Hfresh).
  simpl. unfold h_assign_slice, load_rows. rewrite Hlc. simpl.
  destruct Hg as [Hl _]. rewrite (lookup_weaken _ _ _ _ Hl Hsub). simpl.
  exists (<[l := RefList rows']> h1), rows'. split; [done|]. split.
  - split; [apply lookup_insert_eq|].
    eapply Forall2_impl; [done|]. intros r cells Hr.
    rewrite lookup_insert_ne; [done|]. intros ->.
    pose proof (lookup_weaken _ _ _ _ Hl Hsub). congruence.
  - intros k Hk [o Ho]. rewrite lookup_insert_ne by done.
    rewrite Ho. exact (lookup_weaken _ _ _ _ Ho Hsub).
Qed.

Lemma shuffle_loop_spec rand l moves : ∀ i h rows g g',
  grid_obj h l rows g → walk rand i moves g = Returns g' →
  ∃ h' rows',
    for_each (seq i moves) (shuffle_step rand l) h = Returns h' ∧
    grid_obj h' l rows' g' ∧
    ∀ k, k ≠ l → is_Some (h !! k) → h' !! k = h !! k.
Proof.
  induction moves as [|moves IH]; intros i h rows g g' Hg; simpl.
  - intros [= <-]. by exists h, rows.
  - intros Hw. apply bind_Returns in Hw as (ns & Hns & Hw).
    apply bind_Returns in Hw as (n & Hn & Hw).
    destruct (shuffle_step_spec rand h l rows g i ns n Hg Hns Hn)
      as (h1 & rows1 & -> & Hg1 & Hfr1). simpl.
    destruct (IH (S i) h1 rows1 n g' Hg1 Hw) as (h' & rows' & -> & Hg' & Hfr).
    exists h', rows'. split_and!; [done..|].
    intros k Hk Hs. rewrite Hfr; [by apply Hfr1|done|]. by rewrite Hfr1.
Qed.

Lemma walk_valid rand moves : ∀ i g,
  valid_grid g →
  ∃ g', walk rand i moves g = Returns g' ∧ valid_grid g' ∧
        is_solvable g' = is_solvable g.
Proof.
  induction moves as [|moves IH]; intros i g Hv; simpl; [by exists g|].
  destruct (neighbors_of_valid g Hv) as (p & ns & _ & _ & Hns & [_ Hlen] & HF).
  destruct (neighbor_parity g Hv) as (ns' & Hns' & Hpar).
  rewrite Hns in Hns'. injection Hns' as <-. rewrite Hns. simpl.
  destruct (choice_elem (rand i) ns) as (n & -> & Hn).
  { intros ->. simpl in Hlen. lia. }
  simpl. destruct (IH (S i) n) as (g' & -> & Hv' & Hs').
  - apply list_elem_of_lookup in Hn as [j Hj].
    destruct (Forall2_lookup_r _ _ _ _ _ HF Hj) as (q & _ & _ & _ & Hvn). done.
  - exists g'. split_and!; [done..|]. by rewrite Hs', Hpar.
Qed.

(** ** Grids and their neighbours *)

Lemma goal_state_valid : valid_grid goal_state.
Proof.
  split; [by split; [|repeat constructor]|]. vm_compute. solve_Permutation.
Qed.

Lemma one_slide_start_valid : valid_grid one_slide_start.
Proof.
  split; [by split; [|repeat constructor]|]. vm_compute. solve_Permutation.
Qed.

(** C4: for every valid grid [g], [get_neighbors g] returns, and
    [is_solvable] gives the same answer on [g] and on each neighbour
    returned: the parity of the inversion count is invariant under one
    slide of the blank. *)
Theorem is_solvable_invariant_under_slide (g : Grid) :
  valid_grid g →
  ∃ ns, get_neighbors g = Returns ns ∧
        ∀ n, n ∈ ns → is_solvable g = is_solvable n.
Proof.
  intros Hv. destruct (neighbor_parity g Hv) as (ns & Hns & Hpar).
  exists ns. split; [done|]. intros n Hn. symmetry. by apply Hpar.
Qed.

Lemma is_solvable_invariant_under_slide_witness :
  valid_grid goal_state ∧
  ∃ ns, get_neighbors goal_state = Returns ns ∧
        ∀ n, n ∈ ns → is_solvable goal_state = is_solvable n.
Proof.
  split; [exact goal_state_valid|].
  apply (is_solvable_invariant_under_slide goal_state). exact goal_state_valid.
Defined.

(** C5: on a valid grid with the blank at [p], [get_neighbors] returns
    between 2 and 4 grids (2 when [p] is a corner, 3 on an edge, 4 in the
    centre), one for each of the positions above, below, left of and right
    of [p] that is on the grid, in that order; each is a valid grid that
    differs from [g] only in that the blank and the tile at that position
    have changed places.  On objects, the neighbours are objects that did
    not exist before, and every object that existed, the argument among
    them, is unchanged. *)
Theorem get_neighbors_of_valid_grid (g : Grid) :
  valid_grid g →
  ∃ p ns,
    find_zero g = Returns (Some p) ∧ on_grid p ∧
    get_neighbors g = Returns ns ∧
    (2 ≤ length ns ≤ 4)%nat ∧ length ns = neighbor_count p ∧
    Forall2 (fun q n => adjacent p q ∧ swapped g p q n ∧ valid_grid n)
            (targets p) ns ∧
    ∀ (h : heap) (l : loc),
      read_grid h l = Some g →
      ∃ ls h',
        h_get_neighbors h l = Returns (ls, h') ∧
        h ⊆ h' ∧ read_grid h' l = Some g ∧
        Forall2 (fun l' n => read_grid h' l' = Some n ∧ h !! l' = None) ls ns.
Proof.
  intros Hv.
  destruct (neighbors_of_valid g Hv) as (p & ns & Hz & Hp & Hns & [Hlen Hrange] & HF).
  exists p, ns. split_and!; try done; try lia.
  intros h l Hread. apply read_grid_obj in Hread as [rows Hg].
  destruct (h_get_neighbors_spec h l rows g ns Hg Hns) as (ls & h' & Hrun & Hsub & Hls).
  exists ls, h'. split_and!; try done.
  - apply read_grid_obj. exists rows. by eapply grid_obj_mono.
  - eapply Forall2_impl; [done|]. intros l' n (rows' & Hl' & Hfresh).
    split; [|done]. apply read_grid_obj. by exists rows'.
Qed.

Lemma get_neighbors_of_valid_grid_witness :
  valid_grid goal_state ∧
  ∃ p ns,
    find_zero goal_state = Returns (Some p) ∧ on_grid p ∧
    get_neighbors goal_state = Returns ns ∧
    (2 ≤ length ns ≤ 4)%nat ∧ length ns = neighbor_count p ∧
    Forall2 (fun q n => adjacent p q ∧ swapped goal_state p q n ∧ valid_grid n)
            (targets p) ns ∧
    ∀ (h : heap) (l : loc),
      read_grid h l = Some goal_state →
      ∃ ls h',
        h_get_neighbors h l = Returns (ls, h') ∧
        h ⊆ h' ∧ read_grid h' l = Some goal_state ∧
        Forall2 (fun l' n => read_grid h' l' = Some n ∧ h !! l' = None) ls ns.
Proof.
  split; [exact goal_state_valid|].
  apply (get_neighbors_of_valid_grid goal_state). exact goal_state_valid.
Defined.


(** C10: on a grid of three rows of three cells that holds a zero,
    [find_zero] returns the position of the first zero in row-major order
    and [get_neighbors] returns; on one that holds no zero, [find_zero]
    returns [None] and [get_neighbors] raises [TypeError] when it
    subscripts that result. *)
Theorem find_zero_first_blank (g : Grid) :
  shape33 g →
  (0 ∈ concat g →
     ∃ p, find_zero g = Returns (Some p) ∧ on_grid p ∧
          cell_at g p = Some 0 ∧
          (∀ q, on_grid q → row_major_lt q p → cell_at g q ≠ Some 0) ∧
          ∃ ns, get_neighbors g = Returns ns) ∧
  (0 ∉ concat g →
     find_zero g = Returns None ∧ get_neighbors g = Raises TypeError).
Proof.
  intros Hs. apply shape33_inv in Hs as (a & b & c & d & e & f & x & y & z & ->).
  rewrite find_zero_33, get_neighbors_33.
  repeat match goal with
         | |- context [?v =? 0] => destruct (Z.eqb_spec v 0); [subst v|]
         end.
  all: split; [intros Hin | intros Hnin].
  all: try (exfalso; apply Hnin; simpl; rewrite !elem_of_cons; auto 20; fail).
  all: try (eexists; split; [reflexivity|]; split; [by vm_compute|];
            split; [reflexivity|]; split; [|by eexists];
            intros q Hq Hlt; apply on_grid_cases in Hq; set_unfold in Hq;
            unfold row_major_lt in Hlt;
            destruct_or!; subst q; simpl in Hlt; try lia;
            vm_compute; congruence).
  - exfalso. simpl in Hin. set_unfold in Hin. destruct_or!; congruence.
  - done.
Qed.

Lemma find_zero_first_blank_witness :
  shape33 goal_state ∧
  (0 ∈ concat goal_state →
     ∃ p, find_zero goal_state = Returns (Some p) ∧ on_grid p ∧
          cell_at goal_state p = Some 0 ∧
          (∀ q, on_grid q → row_major_lt q p → cell_at goal_state q ≠ Some 0) ∧
          ∃ ns, get_neighbors goal_state = Returns ns) ∧
  (0 ∉ concat goal_state →
     find_zero goal_state = Returns None ∧
     get_neighbors goal_state = Raises TypeError).
Proof.
  assert (shape33 goal_state) as Hs by (by split; [|repeat constructor]).
  split; [exact Hs|]. apply (find_zero_first_blank goal_state). exact Hs.
Defined.

(** ** The shuffle *)

(** What [shuffle_puzzle] does to the store: it returns the reference it
    was given, the object at that reference holds the end of the walk, and
    the other objects that existed are unchanged. *)
Lemma shuffle_puzzle_spec rand h l g moves :
  valid_grid g → read_grid h l = Some g →
  ∃ h' g',
    shuffle_puzzle rand h l moves = Returns (l, h') ∧
    walk rand 0 (Z.to_nat moves) g = Returns g' ∧
    valid_grid g' ∧ is_solvable g' = is_solvable g ∧
    read_grid h' l = Some g' ∧
    ∀ k, k ≠ l → is_Some (h !! k) → h' !! k = h !! k.
Proof.
  intros Hv Hread. apply read_grid_obj in Hread as [rows Hg].
  destruct (walk_valid rand (Z.to_nat moves) 0 g Hv) as (g' & Hw & Hv' & Hs).
  destruct (shuffle_loop_spec rand l (Z.to_nat moves) 0 h rows g g' Hg Hw)
    as (h' & rows' & Hrun & Hg' & Hfr).
  exists h', g'. unfold shuffle_puzzle. rewrite Hrun. simpl.
  split_and!; try done. apply read_grid_obj. by exists rows'.
Qed.

(** C8: whatever the draws of the random generator and whatever the
    number of moves, [shuffle_puzzle] on an object holding the goal grid
    returns, and the grid it leaves in that object is one for which
    [is_solvable] is true. *)
Theorem shuffle_of_goal_is_solvable (rand : nat → nat) (h : heap) (l : loc)
    (N : Z) :
  read_grid h l = Some goal_state →
  ∃ h' g',
    shuffle_puzzle rand h l N = Returns (l, h') ∧
    read_grid h' l = Some g' ∧ is_solvable g' = true.
Proof.
  intros Hread.
  destruct (shuffle_puzzle_spec rand h l goal_state N goal_state_valid Hread)
    as (h' & g' & Hrun & _ & _ & Hs & Hread' & _).
  exists h', g'. split_and!; [done..|]. by rewrite Hs.
Qed.

Lemma shuffle_of_goal_is_solvable_witness :
  read_grid goal_heap goal_loc = Some goal_state ∧
  ∃ h' g',
    shuffle_puzzle (fun i => i) goal_heap goal_loc 30 = Returns (goal_loc, h') ∧
    read_grid h' goal_loc = Some g' ∧ is_solvable g' = true.
Proof.
  split; [vm_compute; reflexivity|].
  apply (shuffle_of_goal_is_solvable (fun i => i) goal_heap goal_loc 30).
  vm_compute; reflexivity.
Defined.

(** C9, as the code has it: [shuffle_puzzle] returns the reference it was
    given, not a new grid, and the caller's grid object is overwritten
    with the end of the random walk from its former value; every other
    object that existed keeps its contents. *)
Theorem shuffle_puzzle_in_place (rand : nat → nat) (h : heap) (l : loc)
    (g : Grid) (moves : Z) :
  valid_grid g → read_grid h l = Some g →
  ∃ h' g',
    shuffle_puzzle rand h l moves = Returns (l, h') ∧
    walk rand 0 (Z.to_nat moves) g = Returns g' ∧
    read_grid h' l = Some g' ∧
    ∀ k, k ≠ l → is_Some (h !! k) → h' !! k = h !! k.
Proof.
  intros Hv Hread.
  destruct (shuffle_puzzle_spec rand h l g moves Hv Hread)
    as (h' & g' & ? & ? & _ & _ & ? & ?).
  by exists h', g'.
Qed.

Lemma shuffle_puzzle_in_place_witness :
  valid_grid goal_state ∧ read_grid goal_heap goal_loc = Some goal_state ∧
  ∃ h' g',
    shuffle_puzzle (fun _ => 0%nat) goal_heap goal_loc 1 = Returns (goal_loc, h') ∧
    walk (fun _ => 0%nat) 0 (Z.to_nat 1) goal_state = Returns g' ∧
    read_grid h' goal_loc = Some g' ∧
    ∀ k, k ≠ goal_loc → is_Some (goal_heap !! k) → h' !! k = goal_heap !! k.
Proof.
  split; [exact goal_state_valid|]. split; [vm_compute; reflexivity|].
  apply (shuffle_puzzle_in_place (fun _ => 0%nat) goal_heap goal_loc goal_state 1).
  - exact goal_state_valid.
  - vm_compute; reflexivity.
Defined.

(** C9 as stated fails: after one move on the goal grid, the reference
    returned is the argument, which existed before the call, and the grid
    read through it is no longer the goal. *)
Lemma shuffle_puzzle_overwrites_argument :
  read_grid goal_heap goal_loc = Some goal_state ∧
  ∃ h',
    shuffle_puzzle (fun _ => 0%nat) goal_heap goal_loc 1 = Returns (goal_loc, h') ∧
    is_Some (goal_heap !! goal_loc) ∧
    read_grid h' goal_loc = Some [[1; 2; 3]; [4; 5; 0]; [7; 8; 6]] ∧
    read_grid h' goal_loc ≠ read_grid goal_heap goal_loc.
Proof.
  split; [vm_compute; reflexivity|].
  eexists. split; [vm_compute; reflexivity|].
  split; [vm_compute; eexists; reflexivity|].
  split; [vm_compute; reflexivity|].
  vm_compute. discriminate.
Qed.

(** ** reconstruct_path *)

Lemma reconstruct_loop_never_raises fuel came_from current path e :
  reconstruct_loop fuel came_from current path ≠ Raises e.
Proof.
  revert current path. induction fuel as [|fuel IH]; intros current path; simpl.
  - done.
  - destruct (came_from !! current); [apply IH|done].
Qed.

Lemma linked_snoc came_from s chain x :
  linked came_from s (chain ++ [x]) ↔
  linked came_from s chain ∧
  ∃ p, last (s :: chain) = Some p ∧ came_from !! x = Some p.
Proof.
  revert s. induction chain as [|y chain IH]; intros s; simpl.
  - split; [intros [? _]; eauto|]. by intros (_ & p & [= <-] & ?).
  - rewrite IH. destruct chain; simpl; naive_solver.
Qed.

Lemma linked_entries came_from s chain x :
  linked came_from s chain → x ∈ chain → is_Some (came_from !! x).
Proof.
  revert s. induction chain as [|y chain IH]; intros s; simpl.
  - by intros _ ?%elem_of_nil.
  - intros [Hy Hl] [->|Hx]%elem_of_cons; [by eexists|]. by eapply IH.
Qed.

(** What the loop returns: the walk back from [current], reversed, put
    before what had been collected. *)
Lemma reconstruct_loop_returns fuel came_from : ∀ current acc path,
  reconstruct_loop fuel came_from current acc = Returns path →
  ∃ s chain,
    came_from !! s = None ∧ linked came_from s chain ∧
    last (s :: chain) = Some current ∧ path = chain ++ reverse acc.
Proof.
  induction fuel as [|fuel IH]; intros current acc path; simpl; [done|].
  destruct (came_from !! current) as [previous|] eqn:Hc.
  - intros Hrun. destruct (IH _ _ _ Hrun) as (s & chain & Hs & Hl & Hlast & ->).
    exists s, (chain ++ [current]). split_and!; [done| | |].
    + apply linked_snoc. eauto.
    + by rewrite app_comm_cons, last_snoc.
    + by rewrite reverse_app, <- app_assoc.
  - intros [= <-]. by exists current, [].
Qed.

(** The loop does return when the walk back is finite and the fuel covers
    it. *)
Lemma reconstruct_loop_total came_from s : ∀ chain current acc fuel,
  came_from !! s = None → linked came_from s chain →
  last (s :: chain) = Some current → (length chain < fuel)%nat →
  reconstruct_loop fuel came_from current acc = Returns (chain ++ reverse acc).
Proof.
  induction chain as [|x chain IH] using rev_ind; intros current acc fuel Hs Hl Hlast Hfuel.
  - injection Hlast as <-. destruct fuel; [simpl in Hfuel; lia|]. simpl. by rewrite Hs.
  - rewrite app_comm_cons, last_snoc in Hlast. injection Hlast as ->.
    apply linked_snoc in Hl as (Hl & p & Hp & Hx).
    rewrite length_app in Hfuel. simpl in Hfuel.
    destruct fuel; [lia|]. simpl. rewrite Hx.
    rewrite (IH p (acc ++ [current]) fuel); [|done..|lia].
    by rewrite reverse_app, <- app_assoc.
Qed.

(** C6, with the failure clause corrected: [reconstruct_path] never
    raises, whether or not the terminal grid has an entry in the
    predecessor map.  When the walk from the terminal back through the
    recorded predecessors comes to a grid [s] with no entry,
    [reconstruct_path] returns as soon as the fuel exceeds the length of
    the walk, and the list it returns is an end of that walk read from
    [s] to the terminal: it is in start-to-goal order, its last element
    is the terminal when the terminal has an entry, and every grid of the
    walk that has an entry is in it.  Whether [s] itself heads the list
    is left open here; it is the matter of C1 to C3. *)
Theorem reconstruct_path_spec (came_from : gmap Grid Grid) (terminal : Grid) :
  (∀ fuel e, reconstruct_path fuel came_from terminal ≠ Raises e) ∧
  (∀ s chain fuel,
     came_from !! s = None → linked came_from s chain →
     last (s :: chain) = Some terminal → (length chain < fuel)%nat →
     ∃ path,
       reconstruct_path fuel came_from terminal = Returns path ∧
       path `suffix_of` (s :: chain) ∧
       (is_Some (came_from !! terminal) → last path = Some terminal) ∧
       (∀ x, x ∈ s :: chain → is_Some (came_from !! x) → x ∈ path)).
Proof.
  split.
  - intros fuel e. apply reconstruct_loop_never_raises.
  - intros s chain fuel Hs Hl Hlast Hfuel. exists chain. split_and!.
    + unfold reconstruct_path.
      rewrite (reconstruct_loop_total came_from s chain terminal [] fuel) by done.
      by rewrite app_nil_r.
    + by exists [s].
    + intros [p Hp]. destruct chain as [|x chain _] using rev_ind.
      * injection Hlast as <-. congruence.
      * rewrite app_comm_cons, last_snoc in Hlast. by rewrite last_snoc.
    + intros x [->|Hx]%elem_of_cons [p Hp]; [congruence|done].
Qed.

(** C6 as stated fails: asked for a terminal that is absent from the map,
    [reconstruct_path] does not fail; it returns the empty list. *)
Lemma reconstruct_path_absent_returns_empty :
  (∅ : gmap Grid Grid) !! goal_state = None ∧
  reconstruct_path 1 ∅ goal_state = Returns [] ∧
  ∀ fuel e, reconstruct_path fuel ∅ goal_state ≠ Raises e.
Proof.
  split_and!; [done..|]. intros fuel e. apply reconstruct_loop_never_raises.
Qed.

(** ** More fuel does not change a result *)

Lemma reconstruct_loop_mono fuel came_from : ∀ current acc path fuel',
  reconstruct_loop fuel came_from current acc = Returns path →
  (fuel ≤ fuel')%nat →
  reconstruct_loop fuel' came_from current acc = Returns path.
Proof.
  induction fuel as [|fuel IH]; intros current acc path fuel'; simpl; [done|].
  intros Hrun Hle. destruct fuel' as [|fuel']; [lia|]. simpl.
  destruct (came_from !! current); [|done]. apply IH; [done|lia].
Qed.

Lemma bfs_loop_mono fuel goal : ∀ st r fuel',
  bfs_loop fuel goal st = Returns r → (fuel ≤ fuel')%nat →
  bfs_loop fuel' goal st = Returns r.
Proof.
  induction fuel as [|fuel IH]; intros st r fuel'; simpl; [done|].
  intros Hrun Hle. destruct fuel' as [|fuel']; [lia|]. simpl.
  destruct (bfs_queue st) as [|current queue']; [done|].
  destruct (decide (current = goal)).
  - apply bind_Returns in Hrun as (path & Hpath & Hr).
    unfold reconstruct_path in *.
    by rewrite (reconstruct_loop_mono fuel _ _ _ path fuel' Hpath) by lia.
  - apply bind_Returns in Hrun as (ns & -> & Hr). simpl. apply IH; [done|lia].
Qed.

Lemma ucs_loop_mono fuel goal : ∀ st visited r fuel',
  ucs_loop fuel goal st visited = Returns r → (fuel ≤ fuel')%nat →
  ucs_loop fuel' goal st visited = Returns r.
Proof.
  induction fuel as [|fuel IH]; intros st visited r fuel'; simpl; [done|].
  intros Hrun Hle. destruct fuel' as [|fuel']; [lia|]. simpl.
  destruct (heappop (ucs_queue st)) as [[[cost current] queue']|]; [|done].
  destruct (decide (current = goal)).
  - apply bind_Returns in Hrun as (path & Hpath & Hr).
    unfold reconstruct_path in *.
    by rewrite (reconstruct_loop_mono fuel _ _ _ path fuel' Hpath) by lia.
  - destruct (decide (as_tuple current ∈ visited)).
    + apply IH; [done|lia].
    + apply bind_Returns in Hrun as (ns & -> & Hr). simpl. apply IH; [done|lia].
Qed.

Lemma dfs_loop_mono fuel goal depth_limit : ∀ stack visited r fuel',
  dfs_loop fuel goal depth_limit stack visited = Returns r →
  (fuel ≤ fuel')%nat →
  dfs_loop fuel' goal depth_limit stack visited = Returns r.
Proof.
  induction fuel as [|fuel IH]; intros stack visited r fuel'; simpl; [done|].
  intros Hrun Hle. destruct fuel' as [|fuel']; [lia|]. simpl.
  destruct stack as [|[[current path] depth] stack']; [done|].
  destruct (depth >? depth_limit); [apply IH; [done|lia]|].
  destruct (decide (as_tuple current ∈ visited)); [apply IH; [done|lia]|].
  destruct (decide (current = goal)); [done|].
  apply bind_Returns in Hrun as (ns & -> & Hr). simpl. apply IH; [done|lia].
Qed.

(** ** dfs with a depth limit of zero *)

Lemma dfs_loop_too_deep goal depth_limit : ∀ stack fuel visited,
  Forall (fun e : dfs_entry => e.2 > depth_limit) stack →
  (length stack < fuel)%nat →
  dfs_loop fuel goal depth_limit stack visited = Returns None.
Proof.
  induction stack as [|[[current path] depth] stack IH]; intros fuel visited Hdeep Hfuel.
  - destruct fuel; [simpl in Hfuel; lia|done].
  - destruct fuel; [lia|]. simpl in *.
    apply Forall_cons in Hdeep as [Hd Hdeep]. simpl in Hd.
    rewrite (proj2 (Z.gtb_gt depth depth_limit)) by lia.
    apply IH; [done|lia].
Qed.

Lemma dfs_push_all visited current path depth neighbors : ∀ stack,
  let stack' := foldl (fun stack neighbor =>
                         dfs_push visited current path depth neighbor stack)
                      stack neighbors in
  (length stack' ≤ length stack + length neighbors)%nat ∧
  ∀ P : dfs_entry → Prop,
    Forall P stack → (∀ n, P (n, path ++ [current], depth + 1)) →
    Forall P stack'.
Proof.
  induction neighbors as [|n neighbors IH]; intros stack; simpl.
  - split; [lia|done].
  - destruct (IH (dfs_push visited current path depth n stack)) as [Hlen HP].
    unfold dfs_push in *. destruct (decide (as_tuple n ∈ visited)); simpl in *.
    + split; [lia|]. intros P HF Hn. by apply HP.
    + split; [lia|]. intros P HF Hn. apply HP; [|done]. by constructor.
Qed.

(** C7: with [depth_limit = 0], [dfs] from a valid start other than the
    goal returns [None]: the neighbours of the start are pushed at depth 1
    and discarded when popped.  (A start equal to the goal is returned as
    the one-element path.) *)
Theorem dfs_depth_limit_zero (start goal : Grid) :
  valid_grid start → start ≠ goal →
  ∀ fuel, (6 ≤ fuel)%nat → dfs fuel start goal 0 = Returns None.
Proof.
  intros Hv Hne fuel Hfuel.
  destruct (neighbors_of_valid start Hv) as (p & ns & _ & _ & Hns & [_ Hlen] & _).
  destruct fuel as [|fuel]; [lia|]. unfold dfs. simpl.
  destruct (decide (as_tuple start ∈ (∅ : gset Grid))) as [Hin|_]; [set_solver|].
  destruct (decide (start = goal)); [done|]. rewrite Hns. simpl.
  destruct (dfs_push_all ({[as_tuple start]} ∪ ∅) start [] 0 (reverse ns) [])
    as [Hl HP].
  apply dfs_loop_too_deep.
  - apply HP; [constructor|]. intros nb. simpl. lia.
  - rewrite length_reverse in Hl. simpl in Hl. eapply Nat.le_lt_trans; [exact Hl|lia].
Qed.

Lemma dfs_depth_limit_zero_witness :
  valid_grid one_slide_start ∧ one_slide_start ≠ goal_state ∧
  ∀ fuel, (6 ≤ fuel)%nat → dfs fuel one_slide_start goal_state 0 = Returns None.
Proof.
  split; [exact one_slide_start_valid|]. split; [discriminate|].
  apply (dfs_depth_limit_zero one_slide_start goal_state).
  - exact one_slide_start_valid.
  - discriminate.
Defined.

(** With the same limit a start that is the goal is found at once. *)
Lemma dfs_depth_limit_zero_at_goal goal fuel :
  (1 ≤ fuel)%nat → dfs fuel goal goal 0 = Returns (Some [goal]).
Proof.
  intros Hfuel. destruct fuel as [|fuel]; [lia|]. unfold dfs. simpl.
  destruct (decide (as_tuple goal ∈ (∅ : gset Grid))) as [Hin|_]; [set_solver|].
  by destruct (decide (goal = goal)).
Qed.

(** ** What the searches return, in general *)

Lemma slide_chain_snoc path g n :
  slide_chain (path ++ [g]) → is_neighbor g n →
  slide_chain ((path ++ [g]) ++ [n]).
Proof.
  intros Hc Hn. induction path as [|x path IH]; simpl in *.
  - done.
  - destruct (path ++ [g]) as [|y rest] eqn:E.
    + by destruct path.
    + simpl. destruct Hc as [Hxy Hc]. split; [done|]. by apply IH.
Qed.

Lemma dfs_loop_sound start goal depth_limit fuel : ∀ stack visited path,
  Forall (dfs_entry_ok start) stack →
  dfs_loop fuel goal depth_limit stack visited = Returns (Some path) →
  path_from_to start goal path.
Proof.
  induction fuel as [|fuel IH]; intros stack visited result Hok; simpl; [done|].
  destruct stack as [|[[current path] depth] stack']; [done|].
  apply Forall_cons in Hok as [[Hhead Hchain] Hok]. simpl in Hhead, Hchain.
  destruct (depth >? depth_limit); [by apply IH|].
  destruct (decide (as_tuple current ∈ visited)); [by apply IH|].
  destruct (decide (current = goal)) as [->|Hne].
  - intros [= <-]. split_and!; [done| |done]. by rewrite last_snoc.
  - intros Hrun. apply bind_Returns in Hrun as (ns & Hns & Hrun).
    eapply IH; [|exact Hrun].
    assert (∀ l stack0,
      Forall (dfs_entry_ok start) stack0 → l ⊆ ns →
      Forall (dfs_entry_ok start)
        (foldl (fun stack neighbor =>
                  dfs_push ({[as_tuple current]} ∪ visited) current path depth
                           neighbor stack) stack0 l)) as Hpush.
    { induction l as [|nb l IHl]; intros stack0 H0 Hsub; simpl; [done|].
      apply IHl; [|set_solver]. unfold dfs_push.
      destruct (decide (as_tuple nb ∈ _)); [done|]. constructor; [|done].
      split; simpl.
      - by destruct path.
      - apply slide_chain_snoc; [done|]. exists ns. split; [done|set_solver]. }
    apply Hpush; [done|]. intros x. rewrite elem_of_reverse. done.
Qed.

(** Every path [dfs] returns is a path in the sense of the data model. *)
Lemma dfs_sound fuel start goal depth_limit path :
  dfs fuel start goal depth_limit = Returns (Some path) →
  path_from_to start goal path.
Proof.
  apply dfs_loop_sound. constructor; [|constructor]. by split.
Qed.

(** *** bfs *)

Lemma came_from_ok_insert start came_from current n :
  came_from_ok start came_from → n ≠ start →
  known start came_from current → is_neighbor current n →
  came_from_ok start (<[n := current]> came_from).
Proof.
  intros [Hs Hcf] Hne Hcur Hn. split; [by rewrite lookup_insert_ne|].
  intros k p. rewrite lookup_insert. destruct (decide (n = k)) as [->|Hk].
  - intros [= <-]. split; [done|]. destruct Hcur as [->|Hsome]; [by left|].
    right. rewrite lookup_insert. by destruct (decide (k = current)).
  - intros Hkp. destruct (Hcf k p Hkp) as [Hnb Hp]. split; [done|].
    destruct Hp as [->|Hsome]; [by left|].
    right. rewrite lookup_insert. by destruct (decide (n = p)).
Qed.

Lemma known_insert start came_from n current g :
  known start came_from g → known start (<[n := current]> came_from) g.
Proof.
  intros [->|Hsome]; [by left|]. right.
  rewrite lookup_insert. by destruct (decide (n = g)).
Qed.

Lemma bfs_visit_inv start current n st :
  bfs_inv start st → known start (bfs_came_from st) current →
  is_neighbor current n →
  bfs_inv start (bfs_visit current n st) ∧
  known start (bfs_came_from (bfs_visit current n st)) current.
Proof.
  intros (Hcf & Hs & Hq) Hcur Hn. unfold bfs_visit, as_tuple.
  destruct (decide (n ∈ bfs_visited st)) as [|Hnew]; [done|]. simpl.
  assert (n ≠ start) by (by intros ->).
  split; [|by apply known_insert]. split_and!.
  - by apply came_from_ok_insert.
  - set_solver.
  - apply Forall_app. split.
    + eapply Forall_impl; [done|]. intros g. apply known_insert.
    + constructor; [|done]. right. simpl. by rewrite lookup_insert_eq.
Qed.

Lemma bfs_visit_all_inv start current ns : ∀ l st,
  l ⊆ ns → get_neighbors current = Returns ns →
  bfs_inv start st → known start (bfs_came_from st) current →
  bfs_inv start (foldl (fun st neighbor => bfs_visit current neighbor st) st l).
Proof.
  induction l as [|n l IH]; intros st Hsub Hns Hinv Hcur; simpl; [done|].
  destruct (bfs_visit_inv start current n st Hinv Hcur) as [Hinv' Hcur'].
  { exists ns. split; [done|set_solver]. }
  apply IH; [set_solver|done..].
Qed.

Lemma linked_slide_chain start came_from : ∀ chain s,
  came_from_ok start came_from → linked came_from s chain →
  slide_chain (s :: chain).
Proof.
  induction chain as [|x chain IH]; intros s Hcf; simpl; [done|].
  intros [Hx Hl]. split; [by apply Hcf|]. by apply IH.
Qed.

(** Walking back through such a map from a known grid ends at the start. *)
Lemma reconstruct_path_sound start came_from terminal fuel path :
  came_from_ok start came_from → known start came_from terminal →
  reconstruct_path fuel came_from terminal = Returns path →
  path_from_to start terminal (start :: path) ∧ linked came_from start path.
Proof.
  intros Hcf Hknown Hrun.
  apply reconstruct_loop_returns in Hrun as (s & chain & Hs & Hl & Hlast & ->).
  rewrite app_nil_r.
  assert (s = start) as ->.
  { destruct chain as [|x chain]; simpl in *.
    - injection Hlast as ->. destruct Hknown as [->|[? ?]]; [done|congruence].
    - destruct Hl as [Hx _]. destruct Hcf as [_ Hcf].
      destruct (Hcf x s Hx) as [_ [->|[? ?]]]; [done|congruence]. }
  split; [|done]. split_and!; [done..|]. by eapply linked_slide_chain.
Qed.

Lemma bfs_loop_sound start goal fuel : ∀ st path,
  bfs_inv start st →
  bfs_loop fuel goal st = Returns (Some path) →
  path_from_to start goal (start :: path).
Proof.
  induction fuel as [|fuel IH]; intros st path Hinv; simpl; [done|].
  destruct Hinv as (Hcf & Hs & Hq).
  destruct (bfs_queue st) as [|current queue'] eqn:Hqueue; [done|].
  apply Forall_cons in Hq as [Hcur Hq].
  destruct (decide (current = goal)) as [->|Hne].
  - intros Hrun. apply bind_Returns in Hrun as (p & Hp & [= <-]).
    by eapply reconstruct_path_sound.
  - intros Hrun. apply bind_Returns in Hrun as (ns & Hns & Hrun).
    eapply IH; [|exact Hrun].
    by apply (bfs_visit_all_inv start current ns).
Qed.

(** The list [bfs] returns, with the start put in front of it, is a path
    from the start to the goal. *)
Lemma bfs_sound fuel start goal path :
  bfs fuel start goal = Returns (Some path) →
  path_from_to start goal (start :: path).
Proof.
  apply bfs_loop_sound. split_and!; simpl.
  - by split.
  - set_solver.
  - constructor; [by left|done].
Qed.

(** *** ucs *)

Lemma heappush_Forall (P : Z * Grid → Prop) pq e :
  Forall P pq → P e → Forall P (heappush pq e).
Proof.
  intros Hpq He. induction pq as [|e' pq IH]; simpl; [by constructor|].
  apply Forall_cons in Hpq as [He' Hpq].
  destruct (entry_le e e'); constructor; auto.
Qed.

Lemma ucs_relax_inv start cost current n st :
  ucs_inv start st → 0 ≤ cost → known start (ucs_came_from st) current →
  is_neighbor current n →
  ucs_inv start (ucs_relax cost current n st) ∧
  known start (ucs_came_from (ucs_relax cost current n st)) current.
Proof.
  intros (Hcf & Hs & Hq) Hcost Hcur Hn. unfold ucs_relax, as_tuple.
  destruct (match ucs_cost_so_far st !! n with
            | Some old_cost => cost + 1 <? old_cost
            | None => true
            end) eqn:Himp; [|done]. simpl.
  assert (n ≠ start) as Hne.
  { intros ->. rewrite Hs in Himp. apply Z.ltb_lt in Himp. lia. }
  split; [|by apply known_insert]. split_and!; simpl.
  - by apply came_from_ok_insert.
  - by rewrite lookup_insert_ne.
  - apply heappush_Forall.
    + eapply Forall_impl; [done|]. intros e [? ?]. split; [done|].
      by apply known_insert.
    + simpl. split; [lia|]. right. by rewrite lookup_insert_eq.
Qed.

Lemma ucs_relax_all_inv start cost current ns : ∀ l st,
  l ⊆ ns → get_neighbors current = Returns ns → 0 ≤ cost →
  ucs_inv start st → known start (ucs_came_from st) current →
  ucs_inv start
    (foldl (fun st neighbor => ucs_relax cost (as_tuple current) neighbor st) st l).
Proof.
  induction l as [|n l IH]; intros st Hsub Hns Hcost Hinv Hcur; simpl; [done|].
  destruct (ucs_relax_inv start cost current n st Hinv Hcost Hcur) as [Hinv' Hcur'].
  { exists ns. split; [done|set_solver]. }
  apply IH; [set_solver|done..].
Qed.

Lemma ucs_loop_sound start goal fuel : ∀ st visited path,
  ucs_inv start st →
  ucs_loop fuel goal st visited = Returns (Some path) →
  path_from_to start goal (start :: path).
Proof.
  induction fuel as [|fuel IH]; intros st visited path Hinv; simpl; [done|].
  destruct Hinv as (Hcf & Hs & Hq).
  destruct (ucs_queue st) as [|[cost current] queue'] eqn:Hqueue; simpl; [done|].
  apply Forall_cons in Hq as [[Hcost Hcur] Hq]. simpl in Hcost, Hcur.
  destruct (decide (current = goal)) as [->|Hne].
  - intros Hrun. apply bind_Returns in Hrun as (p & Hp & [= <-]).
    by eapply reconstruct_path_sound.
  - destruct (decide (as_tuple current ∈ visited)).
    + apply IH. by split_and!.
    + intros Hrun. apply bind_Returns in Hrun as (ns & Hns & Hrun).
      eapply IH; [|exact Hrun].
      apply (ucs_relax_all_inv start cost current ns); try done.
Qed.

(** The list [ucs] returns, with the start put in front of it, is a path
    from the start to the goal. *)
Lemma ucs_sound fuel start goal path :
  ucs fuel start goal = Returns (Some path) →
  path_from_to start goal (start :: path).
Proof.
  apply ucs_loop_sound. split_and!; simpl.
  - by split.
  - apply lookup_singleton_eq.
  - constructor; [|done]. split; [done|by left].
Qed.

(** *** bfs returns a shortest path *)

Lemma path_reach start : ∀ path g,
  slide_chain (start :: path) → last (start :: path) = Some g →
  reach start (length path) g.
Proof.
  induction path as [|x path IH] using rev_ind; intros g Hc Hl.
  - injection Hl as <-. constructor.
  - rewrite app_comm_cons, last_snoc in Hl. injection Hl as ->.
    rewrite length_app, Nat.add_comm. simpl.
    assert (∃ p, last (start :: path) = Some p) as [p Hp].
    { destruct (last (start :: path)) eqn:E; [eauto|].
      by apply last_None in E. }
    assert (slide_chain (start :: path) ∧ is_neighbor p g) as [Hc' Hn].
    { clear IH. revert Hc Hp. generalize start as s.
      induction path as [|y path IH]; intros s; simpl.
      - intros [? _] [= <-]. done.
      - intros [Hsy Hc] Hp. destruct (IH y Hc Hp) as [? ?]. done. }
    econstructor; [by apply IH|done].
Qed.

Lemma levels_init start :
  bfs_levels start 0 [start] [] (fun _ => False)
             (BfsState [start] {[as_tuple start]} ∅) {[start := 0%nat]}.
Proof.
  unfold as_tuple. split; simpl.
  - done.
  - apply lookup_singleton_eq.
  - intros g. rewrite elem_of_singleton. split.
    + intros ->. rewrite lookup_singleton_eq. by eexists.
    + intros [k Hk]. by apply lookup_singleton_Some in Hk as [-> _].
  - intros g k j Hk _. apply lookup_singleton_Some in Hk as [_ <-]. lia.
  - intros g p Hp. by rewrite lookup_empty in Hp.
  - constructor; [apply lookup_singleton_eq|done].
  - done.
  - intros g k _ ?. lia.
  - intros g Hg. apply lookup_singleton_Some in Hg as [<- _]. left. set_solver.
  - intros g k Hk. apply lookup_singleton_Some in Hk as [_ <-]. split; [lia|done].
  - intros g j Hr Hj. assert (j = 0%nat) as -> by lia. inversion Hr. set_solver.
Qed.

Lemma levels_shift start d B st lvl :
  bfs_levels start d [] B (fun _ => False) st lvl →
  bfs_levels start (S d) B [] (fun _ => False) st lvl.
Proof.
  intros H. assert (∀ g, lvl !! g = Some d → expanded (bfs_visited st) g) as Hd.
  { intros g Hg. destruct (lv_at _ _ _ _ _ _ _ H g Hg) as [Hin|[?|[]]]; [|done].
    by apply elem_of_nil in Hin. }
  assert (∀ g k, lvl !! g = Some k → (k < S d)%nat → expanded (bfs_visited st) g)
    as Hbelow.
  { intros g k Hk Hlt. destruct (decide (k = d)) as [->|]; [by apply Hd|].
    eapply (lv_below _ _ _ _ _ _ _ H); [done|lia]. }
  split.
  - rewrite (lv_queue _ _ _ _ _ _ _ H). simpl. by rewrite app_nil_r.
  - apply H.
  - apply H.
  - apply H.
  - apply H.
  - apply H.
  - done.
  - done.
  - intros g Hg. left. by apply (lv_top _ _ _ _ _ _ _ H g (S d)).
  - intros g k Hk. destruct (lv_top _ _ _ _ _ _ _ H g k Hk) as [Hle _].
    split; [lia|]. intros ->. lia.
  - intros g j Hr Hj. destruct (decide (j ≤ d)%nat) as [|Hgt].
    { by eapply (lv_near _ _ _ _ _ _ _ H). }
    assert (j = S d) as -> by lia. inversion Hr as [|k x n Hx Hn]; subst.
    assert (x ∈ bfs_visited st) as Hv by (by eapply (lv_near _ _ _ _ _ _ _ H)).
    apply (lv_dom _ _ _ _ _ _ _ H) in Hv as [k Hk].
    pose proof (lv_min _ _ _ _ _ _ _ H x k d Hk Hx).
    eapply Hbelow; [done|lia|done].
Qed.

Lemma levels_pop start d current A B st lvl queue' :
  bfs_levels start d (current :: A) B (fun _ => False) st lvl →
  bfs_queue st = current :: queue' →
  queue' = A ++ B ∧ lvl !! current = Some d ∧
  bfs_levels start d A B (eq current)
             (BfsState queue' (bfs_visited st) (bfs_came_from st)) lvl.
Proof.
  intros H Hq. pose proof (lv_queue _ _ _ _ _ _ _ H) as Hq'.
  rewrite Hq in Hq'. simpl in Hq'. injection Hq' as ->.
  pose proof (lv_A _ _ _ _ _ _ _ H) as HA. apply Forall_cons in HA as [Hc HA].
  split; [done|]. split; [done|]. split; simpl; try apply H; try done.
  intros g Hg. destruct (lv_at _ _ _ _ _ _ _ H g Hg) as [Hin|[?|[]]]; [|by auto].
  apply elem_of_cons in Hin as [->|?]; auto.
Qed.

Lemma levels_visit start d current A B st lvl n :
  bfs_levels start d A B (eq current) st lvl →
  lvl !! current = Some d → is_neighbor current n →
  ∃ B' lvl',
    bfs_levels start d A B' (eq current) (bfs_visit current n st) lvl' ∧
    lvl' !! current = Some d ∧
    n ∈ bfs_visited (bfs_visit current n st) ∧
    bfs_visited st ⊆ bfs_visited (bfs_visit current n st).
Proof.
  intros H Hcur Hn. unfold bfs_visit, as_tuple.
  destruct (decide (n ∈ bfs_visited st)) as [Hin|Hnew].
  { exists B, lvl. by split_and!. }
  simpl. exists (B ++ [n]), (<[n := S d]> lvl).
  assert (lvl !! n = None) as Hnone.
  { destruct (lvl !! n) eqn:E; [|done]. exfalso. apply Hnew.
    apply (lv_dom _ _ _ _ _ _ _ H). by eexists. }
  assert (∀ g k, lvl !! g = Some k → <[n := S d]> lvl !! g = Some k) as Hkeep.
  { intros g k Hg. rewrite lookup_insert_ne; [done|]. intros ->. congruence. }
  assert (∀ g k, <[n := S d]> lvl !! g = Some k →
                 (g = n ∧ k = S d) ∨ (g ≠ n ∧ lvl !! g = Some k)) as Hcases.
  { intros g k. rewrite lookup_insert. destruct (decide (n = g)) as [->|];
      [intros [= <-]; by left|by right]. }
  assert (∀ g, expanded (bfs_visited st) g →
               expanded ({[n]} ∪ bfs_visited st) g) as Hexp.
  { intros g Hg x Hx. apply elem_of_union_r. by apply Hg. }
  split_and!; [|by apply Hkeep|set_solver..]. split; simpl.
  - by rewrite (lv_queue _ _ _ _ _ _ _ H), app_assoc.
  - apply Hkeep, H.
  - intros g. rewrite elem_of_union, elem_of_singleton, lookup_insert.
    rewrite (lv_dom _ _ _ _ _ _ _ H). destruct (decide (n = g)) as [->|].
    + split; [by eexists|by left].
    + split; [by intros [->|?]|by right].
  - intros g k j Hk Hr. destruct (Hcases g k Hk) as [[-> ->]|[_ Hg]];
      [|by eapply (lv_min _ _ _ _ _ _ _ H)].
    destruct (decide (S d ≤ j)%nat) as [|Hlt]; [done|]. exfalso. apply Hnew.
    inversion Hr as [|j' x y Hx Hy]; subst.
    { apply (lv_dom _ _ _ _ _ _ _ H). rewrite (lv_start _ _ _ _ _ _ _ H). by eexists. }
    assert (x ∈ bfs_visited st) as Hv.
    { eapply (lv_near _ _ _ _ _ _ _ H); [done|lia]. }
    apply (lv_dom _ _ _ _ _ _ _ H) in Hv as [k Hk'].
    pose proof (lv_min _ _ _ _ _ _ _ H x k j' Hk' Hx).
    eapply (lv_below _ _ _ _ _ _ _ H); [done|lia|done].
  - intros g p. rewrite lookup_insert. destruct (decide (n = g)) as [->|Hne].
    + intros [= <-]. exists d. split; [by apply Hkeep|].
      by rewrite lookup_insert_eq.
    + intros Hp. destruct (lv_pred _ _ _ _ _ _ _ H g p Hp) as (k & Hk & Hg).
      exists k. split; by apply Hkeep.
  - eapply Forall_impl; [apply H|]. simpl. intros g. apply Hkeep.
  - apply Forall_app. split.
    + eapply Forall_impl; [apply H|]. simpl. intros g. apply Hkeep.
    + constructor; [apply lookup_insert_eq|done].
  - intros g k Hk Hlt. destruct (Hcases g k Hk) as [[-> ->]|[_ Hg]]; [lia|].
    apply Hexp. by eapply (lv_below _ _ _ _ _ _ _ H).
  - intros g Hg. destruct (Hcases g d Hg) as [[-> ?]|[_ Hg']]; [lia|].
    destruct (lv_at _ _ _ _ _ _ _ H g Hg') as [?|[?|?]]; auto.
  - intros g k Hk. destruct (Hcases g k Hk) as [[-> ->]|[_ Hg]].
    + split; [lia|]. intros _. set_solver.
    + destruct (lv_top _ _ _ _ _ _ _ H g k Hg) as [Hle HB]. split; [done|].
      intros Hk'. apply elem_of_app. left. by apply HB.
  - intros g j Hr Hj. apply elem_of_union_r. by eapply (lv_near _ _ _ _ _ _ _ H).
Qed.

Lemma levels_visit_all start d current A ns : ∀ l B st lvl,
  l ⊆ ns → get_neighbors current = Returns ns →
  bfs_levels start d A B (eq current) st lvl → lvl !! current = Some d →
  let st' := foldl (fun st neighbor => bfs_visit current neighbor st) st l in
  ∃ B' lvl',
    bfs_levels start d A B' (eq current) st' lvl' ∧
    bfs_visited st ⊆ bfs_visited st' ∧
    ∀ n, n ∈ l → n ∈ bfs_visited st'.
Proof.
  induction l as [|n l IH]; intros B st lvl Hsub Hns H Hcur; simpl.
  { exists B, lvl. split_and!; [done..|]. by intros ? ?%elem_of_nil. }
  destruct (levels_visit start d current A B st lvl n H Hcur)
    as (B1 & lvl1 & H1 & Hcur1 & Hn1 & Hsub1).
  { exists ns. split; [done|set_solver]. }
  destruct (IH B1 (bfs_visit current n st) lvl1) as (B' & lvl' & H' & Hsub' & Hall);
    [set_solver|done..|].
  exists B', lvl'. split_and!; [done|set_solver|].
  intros x [->|Hx]%elem_of_cons; [set_solver|by apply Hall].
Qed.

Lemma levels_expanded start d current A B st lvl ns :
  bfs_levels start d A B (eq current) st lvl →
  get_neighbors current = Returns ns →
  (∀ n, n ∈ ns → n ∈ bfs_visited st) →
  bfs_levels start d A B (fun _ => False) st lvl.
Proof.
  intros H Hns Hall. split; try apply H.
  intros g Hg. destruct (lv_at _ _ _ _ _ _ _ H g Hg) as [?|[?|<-]]; auto.
  right; left. intros n (ns' & Hns' & Hn). rewrite Hns in Hns'.
  injection Hns' as <-. by apply Hall.
Qed.

Lemma linked_level start d A B ex st lvl : ∀ chain s k,
  bfs_levels start d A B ex st lvl →
  linked (bfs_came_from st) s chain → lvl !! s = Some k →
  ∃ g, last (s :: chain) = Some g ∧ lvl !! g = Some (k + length chain)%nat.
Proof.
  induction chain as [|x chain IH]; intros s k H Hl Hs.
  - exists s. split; [done|]. by rewrite Nat.add_0_r.
  - destruct Hl as [Hx Hl].
    destruct (lv_pred _ _ _ _ _ _ _ H x s Hx) as (k' & Hk' & Hxl).
    rewrite Hs in Hk'. injection Hk' as <-.
    destruct (IH x (S k) H Hl Hxl) as (g & Hg & Hgl).
    exists g. split; [done|]. simpl. by rewrite Nat.add_succ_r.
Qed.

Lemma bfs_loop_shortest start goal fuel : ∀ st d A B lvl path j,
  bfs_inv start st → bfs_levels start d A B (fun _ => False) st lvl →
  bfs_loop fuel goal st = Returns (Some path) →
  reach start j goal → (length path ≤ j)%nat.
Proof.
  induction fuel as [|fuel IH]; intros st d A B lvl path j Hinv H; simpl; [done|].
  destruct (bfs_queue st) as [|current queue'] eqn:Hqueue; [done|].
  assert (∃ d' A' B', bfs_levels start d' (current :: A') B' (fun _ => False) st lvl)
    as (d' & A' & B' & H').
  { pose proof (lv_queue _ _ _ _ _ _ _ H) as Hq. rewrite Hqueue in Hq.
    destruct A as [|a A].
    - apply levels_shift in H. simpl in Hq. subst B. by exists (S d), queue', [].
    - simpl in Hq. injection Hq as <- _. by exists d, A, B. }
  clear d A B H.
  destruct (levels_pop start d' current A' B' st lvl queue' H' Hqueue)
    as (-> & Hcur & Hpop).
  destruct Hinv as (Hcf & Hs & Hq). rewrite Hqueue in Hq.
  apply Forall_cons in Hq as [Hknown Hq].
  destruct (decide (current = goal)) as [->|Hne].
  - intros Hrun Hreach. apply bind_Returns in Hrun as (p & Hp & [= <-]).
    destruct (reconstruct_path_sound start _ goal fuel p Hcf Hknown Hp)
      as [(_ & Hlast & _) Hlinked].
    destruct (linked_level start d' (goal :: A') B' _ st lvl p start 0 H' Hlinked)
      as (g & Hg & Hgl); [apply H'|].
    rewrite Hlast in Hg. injection Hg as <-. simpl in Hgl.
    by eapply (lv_min _ _ _ _ _ _ _ H').
  - intros Hrun Hreach. apply bind_Returns in Hrun as (ns & Hns & Hrun).
    set (st0 := BfsState (A' ++ B') (bfs_visited st) (bfs_came_from st)) in *.
    destruct (levels_visit_all start d' current A' ns ns B' st0 lvl)
      as (B1 & lvl1 & H1 & _ & Hall); [done..|].
    eapply (IH _ d' A' B1 lvl1); [| |exact Hrun|done].
    + apply (bfs_visit_all_inv start current ns); [done..| |done].
      by split_and!.
    + by eapply levels_expanded.
Qed.

(** The list [bfs] returns, with the start in front, is a shortest path
    from the start to the goal. *)
Lemma bfs_shortest fuel start goal path :
  bfs fuel start goal = Returns (Some path) →
  path_from_to start goal (start :: path) ∧
  ∀ q, path_from_to start goal q → edge_count (start :: path) ≤ edge_count q.
Proof.
  intros Hrun. split; [by eapply bfs_sound|].
  intros q (Hhead & Hlast & Hchain). destruct q as [|s q]; [done|].
  injection Hhead as ->.
  pose proof (path_reach start q goal Hchain Hlast) as Hreach.
  assert (length path ≤ length q)%nat; [|unfold edge_count; simpl; lia].
  eapply (bfs_loop_shortest start goal fuel _ 0 [start] [] _ path);
    [|apply levels_init|exact Hrun|done].
  split_and!; simpl; [by split|set_solver|]. constructor; [by left|done].
Qed.

(** *** ucs returns a shortest path *)

Lemma elem_of_heappush pq e x : x ∈ heappush pq e ↔ x = e ∨ x ∈ pq.
Proof.
  induction pq as [|e' pq IH]; simpl; [set_solver|].
  destruct (entry_le e e'); set_solver.
Qed.

Lemma heappush_app A B e :
  Forall (fun a => entry_le e a = false) A →
  heappush (A ++ B) e = A ++ heappush B e.
Proof.
  induction 1 as [|a A Ha _ IH]; simpl; [done|]. by rewrite Ha, IH.
Qed.

Lemma ucs_levels_init start :
  ucs_levels start 0 [(0, start)] [] (fun _ => False)
    (UcsState (heappush [] (0, start)) ∅ {[as_tuple start := 0]}) ∅.
Proof.
  unfold as_tuple. split; simpl.
  - done.
  - apply lookup_singleton_eq.
  - intros g k j Hk _. apply lookup_singleton_Some in Hk as [_ <-]. lia.
  - intros g p Hp. by rewrite lookup_empty in Hp.
  - constructor; [|done]. split; [done|apply lookup_singleton_eq].
  - done.
  - intros g k Hk ?. apply lookup_singleton_Some in Hk as [_ <-]. lia.
  - intros g Hg. apply lookup_singleton_Some in Hg as [<- _]. left. set_solver.
  - intros g k Hk. apply lookup_singleton_Some in Hk as [_ <-]. split; [lia|done].
  - intros g j Hr Hj. assert (j = 0%nat) as -> by lia. inversion Hr.
    rewrite lookup_singleton_eq. by eexists.
  - set_solver.
Qed.

Lemma ucs_levels_shift start d B st visited :
  ucs_levels start d [] B (fun _ => False) st visited →
  ucs_levels start (d + 1) B [] (fun _ => False) st visited.
Proof.
  intros H.
  assert (∀ g, ucs_cost_so_far st !! g = Some d → costed (ucs_cost_so_far st) g)
    as Hd.
  { intros g Hg. destruct (ul_at _ _ _ _ _ _ _ H g Hg) as [Hin|[?|[]]]; [|done].
    by apply elem_of_nil in Hin. }
  assert (∀ g k, ucs_cost_so_far st !! g = Some k → k < d + 1 →
                 costed (ucs_cost_so_far st) g) as Hbelow.
  { intros g k Hk Hlt. destruct (decide (k = d)) as [->|]; [by apply Hd|].
    eapply (ul_below _ _ _ _ _ _ _ H); [done|lia]. }
  split; try apply H.
  - rewrite (ul_queue _ _ _ _ _ _ _ H). simpl. by rewrite app_nil_r.
  - done.
  - done.
  - intros g Hg. left. by apply (ul_top _ _ _ _ _ _ _ H g (d + 1)).
  - intros g k Hk. destruct (ul_top _ _ _ _ _ _ _ H g k Hk) as [Hle _].
    split; [lia|]. intros ->. lia.
  - intros g j Hr Hj. destruct (decide (Z.of_nat j ≤ d)) as [|Hgt].
    { by eapply (ul_near _ _ _ _ _ _ _ H). }
    inversion Hr as [|k x n Hx Hn]; subst.
    { rewrite (ul_start _ _ _ _ _ _ _ H). by eexists. }
    destruct (ul_near _ _ _ _ _ _ _ H x k Hx) as [c Hc]; [lia|].
    pose proof (ul_min _ _ _ _ _ _ _ H x c k Hc Hx).
    eapply Hbelow; [done|lia|done].
Qed.

Lemma ucs_levels_pop start d cost current A B st visited queue' :
  ucs_levels start d ((cost, current) :: A) B (fun _ => False) st visited →
  ucs_queue st = (cost, current) :: queue' →
  queue' = A ++ B ∧ cost = d ∧ ucs_cost_so_far st !! current = Some d ∧
  ucs_levels start d A B (eq current)
    (UcsState queue' (ucs_came_from st) (ucs_cost_so_far st)) visited.
Proof.
  intros H Hq. pose proof (ul_queue _ _ _ _ _ _ _ H) as Hq'.
  rewrite Hq in Hq'. simpl in Hq'. injection Hq' as ->.
  pose proof (ul_A _ _ _ _ _ _ _ H) as HA.
  apply Forall_cons in HA as [[Hc Hcost] HA]. simpl in Hc, Hcost.
  split_and!; [done..|]. split; simpl; try apply H; try done.
  intros g Hg. destruct (ul_at _ _ _ _ _ _ _ H g Hg) as [Hin|[?|[]]]; [|by auto].
  apply elem_of_cons in Hin as [[= _ ->]|?]; auto.
Qed.

Lemma ucs_levels_relax start d current A B st visited n :
  ucs_levels start d A B (eq current) st visited →
  ucs_cost_so_far st !! current = Some d → is_neighbor current n →
  ∃ B',
    ucs_levels start d A B' (eq current)
               (ucs_relax d (as_tuple current) n st) visited ∧
    ucs_cost_so_far (ucs_relax d (as_tuple current) n st) !! current = Some d ∧
    is_Some (ucs_cost_so_far (ucs_relax d (as_tuple current) n st) !! n) ∧
    ∀ g, is_Some (ucs_cost_so_far st !! g) →
         is_Some (ucs_cost_so_far (ucs_relax d (as_tuple current) n st) !! g).
Proof.
  intros H Hcur Hn. unfold ucs_relax, as_tuple.
  destruct (ucs_cost_so_far st !! n) as [old|] eqn:Hold.
  { destruct (ul_top _ _ _ _ _ _ _ H n old Hold) as [Hle _].
    rewrite (proj2 (Z.ltb_ge (d + 1) old)) by lia.
    exists B. split_and!; [done..|by rewrite Hold|done]. }
  simpl. exists (heappush B (d + 1, n)).
  assert (∀ g k, (ucs_cost_so_far st) !! g = Some k → <[n := d + 1]> (ucs_cost_so_far st) !! g = Some k) as Hkeep.
  { intros g k Hg. rewrite lookup_insert_ne; [done|]. intros ->. congruence. }
  assert (∀ g k, <[n := d + 1]> (ucs_cost_so_far st) !! g = Some k →
                 (g = n ∧ k = d + 1) ∨ (g ≠ n ∧ (ucs_cost_so_far st) !! g = Some k)) as Hcases.
  { intros g k. rewrite lookup_insert. destruct (decide (n = g)) as [->|];
      [intros [= <-]; by left|by right]. }
  assert (∀ g, costed (ucs_cost_so_far st) g → costed (<[n := d + 1]> (ucs_cost_so_far st)) g) as Hexp.
  { intros g Hg x Hx. destruct (Hg x Hx) as [k Hk]. exists k. by apply Hkeep. }
  assert (0 ≤ d) as Hd0.
  { by destruct (ul_top _ _ _ _ _ _ _ H current d Hcur) as [[? _] _]. }
  split_and!; [|by apply Hkeep|by rewrite lookup_insert_eq|
               intros g [k Hk]; exists k; by apply Hkeep].
  split; simpl.
  - rewrite (ul_queue _ _ _ _ _ _ _ H). apply heappush_app.
    eapply Forall_impl; [apply H|]. simpl. intros [c g] [Hc _]. simpl in Hc.
    unfold entry_le. simpl. subst c.
    by rewrite (proj2 (Z.compare_gt_iff (d + 1) d)) by lia.
  - apply Hkeep, H.
  - intros g k j Hk Hr. destruct (Hcases g k Hk) as [[-> ->]|[_ Hg]];
      [|by eapply (ul_min _ _ _ _ _ _ _ H)].
    destruct (decide (d + 1 ≤ Z.of_nat j)) as [|Hlt]; [done|]. exfalso.
    inversion Hr as [|j' x y Hx Hy]; subst.
    { pose proof (ul_start _ _ _ _ _ _ _ H). congruence. }
    destruct (ul_near _ _ _ _ _ _ _ H x j' Hx) as [c Hc]; [lia|].
    pose proof (ul_min _ _ _ _ _ _ _ H x c j' Hc Hx).
    destruct (ul_below _ _ _ _ _ _ _ H x c Hc) with (n := n) as [? ?];
      [lia|done|]. congruence.
  - intros g p. rewrite lookup_insert. destruct (decide (n = g)) as [->|Hne].
    + intros [= <-]. exists d. split; [by apply Hkeep|].
      by rewrite lookup_insert_eq.
    + intros Hp. destruct (ul_pred _ _ _ _ _ _ _ H g p Hp) as (k & Hk & Hg).
      exists k. split; by apply Hkeep.
  - eapply Forall_impl; [apply H|]. simpl. intros e [? ?]. split; [done|].
    by apply Hkeep.
  - apply heappush_Forall.
    + eapply Forall_impl; [apply H|]. simpl. intros e [? ?]. split; [done|].
      by apply Hkeep.
    + simpl. split; [done|]. apply lookup_insert_eq.
  - intros g k Hk Hlt. destruct (Hcases g k Hk) as [[-> ->]|[_ Hg]]; [lia|].
    apply Hexp. by eapply (ul_below _ _ _ _ _ _ _ H).
  - intros g Hg. destruct (Hcases g d Hg) as [[-> ?]|[_ Hg']]; [lia|].
    destruct (ul_at _ _ _ _ _ _ _ H g Hg') as [?|[?|?]]; auto.
  - intros g k Hk. destruct (Hcases g k Hk) as [[-> ->]|[_ Hg]].
    + split; [lia|]. intros _. apply elem_of_heappush. by left.
    + destruct (ul_top _ _ _ _ _ _ _ H g k Hg) as [Hle HB]. split; [done|].
      intros Hk'. apply elem_of_heappush. right. by apply HB.
  - intros g j Hr Hj. destruct (ul_near _ _ _ _ _ _ _ H g j Hr Hj) as [k Hk].
    exists k. by apply Hkeep.
  - intros g Hg. apply Hexp. by apply (ul_visited _ _ _ _ _ _ _ H).
Qed.

Lemma ucs_relax_keeps_costs cost current g : ∀ l st,
  is_Some (ucs_cost_so_far st !! g) →
  is_Some (ucs_cost_so_far
             (foldl (fun st neighbor => ucs_relax cost current neighbor st) st l)
           !! g).
Proof.
  induction l as [|y l IH]; intros st Hg; simpl; [done|].
  apply IH. unfold ucs_relax.
  destruct (match ucs_cost_so_far st !! as_tuple y with
            | Some old_cost => cost + 1 <? old_cost
            | None => true
            end); [|done].
  simpl. rewrite lookup_insert. by destruct (decide (as_tuple y = g)).
Qed.

Lemma ucs_levels_relax_all start d current A ns visited : ∀ l B st,
  l ⊆ ns → get_neighbors current = Returns ns →
  ucs_levels start d A B (eq current) st visited →
  ucs_cost_so_far st !! current = Some d →
  let st' := foldl (fun st neighbor =>
                      ucs_relax d (as_tuple current) neighbor st) st l in
  ∃ B',
    ucs_levels start d A B' (eq current) st' visited ∧
    ∀ n, n ∈ l → is_Some (ucs_cost_so_far st' !! n).
Proof.
  induction l as [|n l IH]; intros B st Hsub Hns H Hcur; simpl.
  { exists B. split; [done|]. by intros ? ?%elem_of_nil. }
  destruct (ucs_levels_relax start d current A B st visited n H Hcur)
    as (B1 & H1 & Hcur1 & Hn1 & Hmono).
  { exists ns. split; [done|set_solver]. }
  destruct (IH B1 (ucs_relax d (as_tuple current) n st)) as (B' & H' & Hall);
    [set_solver|done..|].
  exists B'. split; [done|].
  intros x [->|Hx]%elem_of_cons; [|by apply Hall].
  by apply ucs_relax_keeps_costs.
Qed.

Lemma ucs_levels_expanded start d current A B st visited ns :
  ucs_levels start d A B (eq current) st visited →
  get_neighbors current = Returns ns →
  (∀ n, n ∈ ns → is_Some (ucs_cost_so_far st !! n)) →
  ucs_levels start d A B (fun _ => False) st ({[as_tuple current]} ∪ visited).
Proof.
  intros H Hns Hall.
  assert (costed (ucs_cost_so_far st) current) as Hc.
  { intros n (ns' & Hns' & Hn). rewrite Hns in Hns'. injection Hns' as <-.
    by apply Hall. }
  split; try apply H.
  - intros g Hg. destruct (ul_at _ _ _ _ _ _ _ H g Hg) as [?|[?|<-]]; auto.
  - intros g [->%elem_of_singleton|Hg]%elem_of_union; [done|].
    by apply (ul_visited _ _ _ _ _ _ _ H).
Qed.

(** A popped entry that has been expanded before is dropped. *)
Lemma ucs_levels_skip start d current A B st visited :
  ucs_levels start d A B (eq current) st visited →
  current ∈ visited →
  ucs_levels start d A B (fun _ => False) st visited.
Proof.
  intros H Hv. split; try apply H.
  intros g Hg. destruct (ul_at _ _ _ _ _ _ _ H g Hg) as [?|[?|<-]]; auto.
  right; left. by apply (ul_visited _ _ _ _ _ _ _ H).
Qed.

Lemma ucs_linked_level start d A B ex st visited : ∀ chain s k,
  ucs_levels start d A B ex st visited →
  linked (ucs_came_from st) s chain → ucs_cost_so_far st !! s = Some k →
  ∃ g, last (s :: chain) = Some g ∧
       ucs_cost_so_far st !! g = Some (k + Z.of_nat (length chain)).
Proof.
  induction chain as [|x chain IH]; intros s k H Hl Hs.
  - exists s. split; [done|]. by rewrite Z.add_0_r.
  - destruct Hl as [Hx Hl].
    destruct (ul_pred _ _ _ _ _ _ _ H x s Hx) as (k' & Hk' & Hxl).
    rewrite Hs in Hk'. injection Hk' as <-.
    destruct (IH x (k + 1) H Hl Hxl) as (g & Hg & Hgl).
    exists g. split; [done|]. rewrite Hgl. f_equal. simpl length. lia.
Qed.

Lemma ucs_loop_shortest start goal fuel : ∀ st visited d A B path j,
  ucs_inv start st → ucs_levels start d A B (fun _ => False) st visited →
  ucs_loop fuel goal st visited = Returns (Some path) →
  reach start j goal → (length path ≤ j)%nat.
Proof.
  induction fuel as [|fuel IH]; intros st visited d A B path j Hinv H; simpl;
    [done|].
  destruct (ucs_queue st) as [|[cost current] queue'] eqn:Hqueue; simpl; [done|].
  assert (∃ d' A' B',
            ucs_levels start d' ((cost, current) :: A') B' (fun _ => False)
                       st visited) as (d' & A' & B' & H').
  { pose proof (ul_queue _ _ _ _ _ _ _ H) as Hq. rewrite Hqueue in Hq.
    destruct A as [|a A].
    - apply ucs_levels_shift in H. simpl in Hq. subst B.
      by exists (d + 1), queue', [].
    - simpl in Hq. injection Hq as <- _. by exists d, A, B. }
  clear d A B H.
  destruct (ucs_levels_pop start d' cost current A' B' st visited queue' H' Hqueue)
    as (-> & -> & Hcur & Hpop).
  destruct Hinv as (Hcf & Hs & Hq). rewrite Hqueue in Hq.
  apply Forall_cons in Hq as [[Hcost Hknown] Hq]. simpl in Hcost, Hknown.
  destruct (decide (current = goal)) as [->|Hne].
  - intros Hrun Hreach. apply bind_Returns in Hrun as (p & Hp & [= <-]).
    destruct (reconstruct_path_sound start _ goal fuel p Hcf Hknown Hp)
      as [(_ & Hlast & _) Hlinked].
    destruct (ucs_linked_level start d' ((d', goal) :: A') B' _ st visited
                p start 0 H' Hlinked) as (g & Hg & Hgl); [apply H'|].
    rewrite Hlast in Hg. injection Hg as <-.
    pose proof (ul_min _ _ _ _ _ _ _ H' goal _ j Hgl Hreach). lia.
  - set (st0 := UcsState (A' ++ B') (ucs_came_from st) (ucs_cost_so_far st)) in *.
    assert (ucs_inv start st0) as Hinv0 by (by split_and!).
    destruct (decide (as_tuple current ∈ visited)) as [Hv|Hv].
    + intros Hrun Hreach.
      eapply (IH _ _ d' A' B'); [done| |exact Hrun|done].
      by apply (ucs_levels_skip start d' current).
    + intros Hrun Hreach. apply bind_Returns in Hrun as (ns & Hns & Hrun).
      destruct (ucs_levels_relax_all start d' current A' ns visited ns B' st0)
        as (B1 & H1 & Hall); [done..|].
      eapply (IH _ _ d' A' B1); [| |exact Hrun|done].
      * by apply (ucs_relax_all_inv start d' current ns).
      * by eapply ucs_levels_expanded.
Qed.

(** The list [ucs] returns, with the start in front, is a shortest path
    from the start to the goal. *)
Lemma ucs_shortest fuel start goal path :
  ucs fuel start goal = Returns (Some path) →
  path_from_to start goal (start :: path) ∧
  ∀ q, path_from_to start goal q → edge_count (start :: path) ≤ edge_count q.
Proof.
  intros Hrun. split; [by eapply ucs_sound|].
  intros q (Hhead & Hlast & Hchain). destruct q as [|s q]; [done|].
  injection Hhead as ->.
  pose proof (path_reach start q goal Hchain Hlast) as Hreach.
  assert (length path ≤ length q)%nat; [|unfold edge_count; simpl; lia].
  eapply (ucs_loop_shortest start goal fuel _ _ 0 [(0, start)] [] path);
    [|apply ucs_levels_init|exact Hrun|done].
  split_and!; simpl; [by split|apply lookup_singleton_eq|].
  constructor; [|done]. split; [done|by left].
Qed.

(** [bfs] and [ucs] return lists of the same length. *)
Lemma ucs_as_short_as_bfs fuel fuel' start goal p p' :
  bfs fuel start goal = Returns (Some p) →
  ucs fuel' start goal = Returns (Some p') →
  length p' = length p.
Proof.
  intros [Hb Hbmin]%bfs_shortest [Hu Humin]%ucs_shortest.
  specialize (Hbmin _ Hu). specialize (Humin _ Hb).
  unfold edge_count in *. simpl in *. lia.
Qed.

(** ** The searches return *)

(** *** bfs returns when the goal can be reached *)

Lemma reconstruct_by_level start d A B ex st lvl fuel : ∀ g k acc,
  bfs_levels start d A B ex st lvl →
  lvl !! g = Some k → (k < fuel)%nat →
  ∃ path, reconstruct_loop fuel (bfs_came_from st) g acc = Returns path.
Proof.
  induction fuel as [|fuel IH]; intros g k acc H Hg Hk; [lia|]. simpl.
  destruct (bfs_came_from st !! g) as [p|] eqn:Hp; [|eauto].
  destruct (lv_pred _ _ _ _ _ _ _ H g p Hp) as (k' & Hk' & Hg').
  rewrite Hg in Hg'. injection Hg' as ->. eapply IH; [done..|lia].
Qed.

Lemma levels_exhausted start d st lvl j g :
  bfs_levels start d [] [] (fun _ => False) st lvl →
  reach start j g → g ∈ bfs_visited st.
Proof.
  intros H Hr.
  assert (∀ m, bfs_levels start (m + d) [] [] (fun _ => False) st lvl) as Hall.
  { induction m as [|m IH]; [done|]. by apply levels_shift in IH. }
  eapply (lv_near _ _ _ _ _ _ _ (Hall j)); [done|lia].
Qed.

Lemma size_unseen (U V : gset Grid) n :
  n ∈ U → n ∉ V → size (U ∖ V) = S (size (U ∖ ({[n]} ∪ V))).
Proof.
  intros HU HV.
  assert (U ∖ V = {[n]} ∪ U ∖ ({[n]} ∪ V)) as ->.
  { apply set_eq. intros x. rewrite !elem_of_union, !elem_of_difference,
      elem_of_union, elem_of_singleton.
    destruct (decide (x = n)) as [->|]; naive_solver. }
  rewrite size_union by set_solver. by rewrite size_singleton.
Qed.

Lemma bfs_visit_progress U goal current n st :
  n ∈ U → bfs_visited st ⊆ U →
  (goal ∈ bfs_visited st → goal ∈ bfs_queue st) →
  let st' := bfs_visit current n st in
  bfs_visited st' ⊆ U ∧
  (goal ∈ bfs_visited st' → goal ∈ bfs_queue st') ∧
  (bfs_measure U st' ≤ bfs_measure U st)%nat.
Proof.
  intros Hn HU Hg. unfold bfs_visit, as_tuple.
  destruct (decide (n ∈ bfs_visited st)) as [|Hnew]; [done|]. simpl.
  split_and!.
  - set_solver.
  - intros [->%elem_of_singleton|Hin]%elem_of_union; set_solver.
  - unfold bfs_measure. simpl. rewrite length_app. simpl.
    rewrite (size_unseen U (bfs_visited st) n) by done. lia.
Qed.

Lemma bfs_visit_all_progress U goal current : ∀ l st,
  (∀ n, n ∈ l → n ∈ U) → bfs_visited st ⊆ U →
  (goal ∈ bfs_visited st → goal ∈ bfs_queue st) →
  let st' := foldl (fun st neighbor => bfs_visit current neighbor st) st l in
  bfs_visited st' ⊆ U ∧
  (goal ∈ bfs_visited st' → goal ∈ bfs_queue st') ∧
  (bfs_measure U st' ≤ bfs_measure U st)%nat.
Proof.
  induction l as [|n l IH]; intros st Hl HU Hg; simpl; [done|].
  destruct (bfs_visit_progress U goal current n st) as (HU1 & Hg1 & Hm1);
    [set_solver|done..|].
  destruct (IH (bfs_visit current n st)) as (HU' & Hg' & Hm');
    [set_solver|done..|].
  split_and!; [done..|lia].
Qed.

Lemma bfs_loop_total U start goal j fuel : ∀ st d A B lvl,
  closed U → reach start j goal →
  bfs_inv start st → bfs_levels start d A B (fun _ => False) st lvl →
  bfs_visited st ⊆ U →
  (goal ∈ bfs_visited st → goal ∈ bfs_queue st) →
  (2 * bfs_measure U st + d + 2 ≤ fuel)%nat →
  ∃ path, bfs_loop fuel goal st = Returns (Some path).
Proof.
  induction fuel as [|fuel IH]; intros st d A B lvl HUc Hreach Hinv H HU Hgoal Hfuel;
    [lia|]. simpl.
  destruct (bfs_queue st) as [|current queue'] eqn:Hqueue.
  { exfalso. pose proof (lv_queue _ _ _ _ _ _ _ H) as Hq. rewrite Hqueue in Hq.
    symmetry in Hq. apply app_eq_nil in Hq as [-> ->].
    pose proof (levels_exhausted start d st lvl j goal H Hreach) as Hv.
    apply Hgoal in Hv. rewrite ?Hqueue in Hv. by apply elem_of_nil in Hv. }
  assert (∃ d' A' B', (d' ≤ S d)%nat ∧
            bfs_levels start d' (current :: A') B' (fun _ => False) st lvl)
    as (d' & A' & B' & Hd' & H').
  { pose proof (lv_queue _ _ _ _ _ _ _ H) as Hq. rewrite Hqueue in Hq.
    destruct A as [|a A].
    - apply levels_shift in H. simpl in Hq. subst B.
      exists (S d), queue', []. by split.
    - simpl in Hq. injection Hq as <- _. exists d, A, B. split; [lia|done]. }
  clear A B H.
  destruct (levels_pop start d' current A' B' st lvl queue' H' Hqueue)
    as (-> & Hcur & Hpop).
  assert (bfs_measure U st =
          S (bfs_measure U (BfsState (A' ++ B') (bfs_visited st)
                                     (bfs_came_from st)))) as Hm.
  { unfold bfs_measure. rewrite Hqueue. simpl. lia. }
  destruct (decide (current = goal)) as [->|Hne].
  - destruct (reconstruct_by_level start d' (goal :: A') B' _ st lvl fuel
                goal d' [] H' Hcur) as [path Hpath]; [lia|].
    exists path. unfold reconstruct_path, as_tuple. by rewrite Hpath.
  - assert (current ∈ U) as HcU.
    { apply HU. apply (lv_dom _ _ _ _ _ _ _ H'). by eexists. }
    destruct (HUc current HcU) as (ns & Hns & HnsU). rewrite Hns. simpl.
    destruct Hinv as (Hcf & Hs & Hq). rewrite Hqueue in Hq.
    apply Forall_cons in Hq as [Hknown Hq].
    set (st0 := BfsState (A' ++ B') (bfs_visited st) (bfs_came_from st)) in *.
    destruct (levels_visit_all start d' current A' ns ns B' st0 lvl)
      as (B1 & lvl1 & H1 & _ & Hall); [done..|].
    destruct (bfs_visit_all_progress U goal current ns st0) as (HU1 & Hg1 & Hm1);
      [done|done| |].
    { simpl. intros Hv. apply Hgoal in Hv. rewrite ?Hqueue in Hv.
      apply elem_of_cons in Hv as [->|?]; done. }
    eapply (IH _ d' A' B1 lvl1); [done|done| | |done|done|lia].
    + apply (bfs_visit_all_inv start current ns); [done..| |done].
      by split_and!.
    + by eapply levels_expanded.
Qed.

(** With enough fuel [bfs] returns a list whenever the goal can be reached
    from the start inside a finite closed set of grids. *)
Lemma bfs_total U start goal j fuel :
  closed U → start ∈ U → reach start j goal →
  (4 * size U + 4 ≤ fuel)%nat →
  ∃ path, bfs fuel start goal = Returns (Some path).
Proof.
  intros HUc Hs Hreach Hfuel.
  eapply (bfs_loop_total U start goal j fuel _ 0 [start] []);
    [done|done| |apply levels_init| | |].
  - split_and!; simpl; [by split|set_solver|]. constructor; [by left|done].
  - simpl. unfold as_tuple. set_solver.
  - simpl. unfold as_tuple. set_solver.
  - unfold bfs_measure. simpl.
    pose proof (subseteq_size (U ∖ {[as_tuple start]}) U). 
    assert (size (U ∖ {[as_tuple start]}) ≤ size U)%nat by (apply subseteq_size; set_solver).
    lia.
Qed.

(** *** The valid grids *)

Lemma elem_of_valid_grids g : g ∈ valid_grids ↔ valid_grid g.
Proof.
  unfold valid_grids. rewrite elem_of_list_to_set, list_elem_of_fmap. split.
  - intros (cells & -> & Hp). apply permutations_Permutation in Hp.
    assert (length cells = 9%nat) as Hlen by (by rewrite <- Hp).
    do 10 (destruct cells as [|? cells]; try discriminate).
    split; [by split; [|repeat constructor]|]. simpl. by symmetry.
  - intros Hv. pose proof Hv as [_ Hp].
    apply valid_grid_inv in Hv as (a&b&c&d&e&f&x&y&z&->&_).
    exists [a; b; c; d; e; f; x; y; z]. split; [done|].
    apply permutations_Permutation. by symmetry.
Qed.

Lemma valid_grids_closed : closed valid_grids.
Proof.
  intros g Hg%elem_of_valid_grids.
  destruct (neighbors_of_valid g Hg) as (p & ns & _ & _ & Hns & _ & HF).
  exists ns. split; [done|]. intros n Hn. apply elem_of_valid_grids.
  apply list_elem_of_lookup in Hn as [i Hi].
  by destruct (Forall2_lookup_r _ _ _ _ _ HF Hi) as (q & _ & _ & _ & Hvn).
Qed.

(** *** dfs terminates *)

Lemma neighbor_step_length state zero_pos d ns ns' :
  neighbor_step state zero_pos d ns = Returns ns' →
  (length ns' ≤ S (length ns))%nat.
Proof.
  unfold neighbor_step. destruct zero_pos as [[zr zc]|]; [|done].
  destruct (in_bounds _ _); [|intros [= <-]; lia].
  intros H. apply bind_Returns in H as (v & _ & H).
  apply bind_Returns in H as (g1 & _ & H).
  apply bind_Returns in H as (g2 & _ & [= <-]).
  rewrite length_app. simpl. lia.
Qed.

(** There are four directions, so at most four neighbours. *)
Lemma get_neighbors_length g ns :
  get_neighbors g = Returns ns → (length ns ≤ 4)%nat.
Proof.
  unfold get_neighbors. intros H. apply bind_Returns in H as (zp & _ & H).
  assert (∀ ds acc out,
            for_each ds (neighbor_step g zp) acc = Returns out →
            (length out ≤ length acc + length ds)%nat) as Hlen.
  { induction ds as [|d ds IH]; intros acc out; simpl.
    - intros [= <-]. lia.
    - intros Hrun. apply bind_Returns in Hrun as (acc' & Hstep & Hrun).
      apply neighbor_step_length in Hstep. apply IH in Hrun. lia. }
  apply Hlen in H. simpl in H. lia.
Qed.

Lemma dfs_push_all_within (U : gset Grid) visited current path depth :
  ∀ neighbors stack,
  Forall (fun e : dfs_entry => e.1.1 ∈ U) stack →
  (∀ nb, nb ∈ neighbors → nb ∈ U) →
  Forall (fun e : dfs_entry => e.1.1 ∈ U)
    (foldl (fun stack neighbor =>
              dfs_push visited current path depth neighbor stack)
           stack neighbors).
Proof.
  induction neighbors as [|nb neighbors IH]; intros stack HU Hns; simpl; [done|].
  apply IH; [|intros x Hx; apply Hns; by right].
  unfold dfs_push. destruct (decide _); [done|].
  constructor; [|done]. simpl. apply Hns. by left.
Qed.

Lemma dfs_loop_terminates U goal depth_limit fuel : ∀ stack visited,
  closed U → Forall (fun e : dfs_entry => e.1.1 ∈ U) stack →
  (dfs_measure U stack visited < fuel)%nat →
  ∃ r, dfs_loop fuel goal depth_limit stack visited = Returns r.
Proof.
  induction fuel as [|fuel IH]; intros stack visited HUc HU Hfuel; [lia|]. simpl.
  destruct stack as [|[[current path] depth] stack']; [eauto|].
  apply Forall_cons in HU as [HcU HU]. simpl in HcU.
  unfold dfs_measure in *. simpl in Hfuel.
  destruct (depth >? depth_limit); [apply IH; [done..|lia]|].
  destruct (decide (as_tuple current ∈ visited)) as [|Hnew];
    [apply IH; [done..|lia]|].
  destruct (decide (current = goal)); [eauto|].
  destruct (HUc current HcU) as (ns & Hns & HnsU). rewrite Hns. simpl.
  pose proof (get_neighbors_length current ns Hns) as Hlen.
  destruct (dfs_push_all ({[as_tuple current]} ∪ visited) current path depth
              (reverse ns) stack') as [Hl _].
  rewrite length_reverse in Hl.
  pose proof (size_unseen U visited current HcU Hnew) as Hsize.
  apply IH; [done| |].
  - apply dfs_push_all_within; [done|]. intros nb Hnb. apply HnsU.
    by rewrite elem_of_reverse in Hnb.
  - unfold as_tuple in *.
    eapply Nat.le_lt_trans;
      [apply Nat.add_le_mono_l; exact Hl|]. lia.
Qed.

Lemma dfs_total U start goal depth_limit fuel :
  closed U → start ∈ U → (5 * size U + 2 ≤ fuel)%nat →
  ∃ r, dfs fuel start goal depth_limit = Returns r.
Proof.
  intros HUc Hs Hfuel. apply (dfs_loop_terminates U); [done| |].
  - constructor; [done|constructor].
  - unfold dfs_measure. simpl.
    assert (size (U ∖ ∅) ≤ size U)%nat
      by (apply subseteq_size; set_solver).
    lia.
Qed.

(** *** ucs returns when the goal can be reached *)

Lemma length_heappush pq e : length (heappush pq e) = S (length pq).
Proof.
  induction pq as [|e' pq IH]; simpl; [done|].
  destruct (entry_le e e'); simpl; [done|]. by rewrite IH.
Qed.

Lemma reconstruct_by_cost start d A B ex st visited fuel : ∀ g k acc,
  ucs_levels start d A B ex st visited →
  ucs_cost_so_far st !! g = Some k → (Z.to_nat k < fuel)%nat →
  ∃ path, reconstruct_loop fuel (ucs_came_from st) g acc = Returns path.
Proof.
  induction fuel as [|fuel IH]; intros g k acc H Hg Hk; [lia|]. simpl.
  destruct (ucs_came_from st !! g) as [p|] eqn:Hp; [|eauto].
  destruct (ul_pred _ _ _ _ _ _ _ H g p Hp) as (k' & Hk' & Hg').
  rewrite Hg in Hg'. injection Hg' as ->.
  destruct (ul_top _ _ _ _ _ _ _ H p k' Hk') as [Hle _].
  eapply IH; [done..|lia].
Qed.

Lemma ucs_levels_exhausted start d st visited j g :
  ucs_levels start d [] [] (fun _ => False) st visited →
  reach start j g → is_Some (ucs_cost_so_far st !! g).
Proof.
  intros H Hr.
  assert (∀ m : nat, ucs_levels start (d + Z.of_nat m) [] [] (fun _ => False)
                       st visited) as Hall.
  { induction m as [|m IH]; [by rewrite Z.add_0_r|].
    apply ucs_levels_shift in IH.
    by replace (d + Z.of_nat (S m)) with (d + Z.of_nat m + 1) by lia. }
  eapply (ul_near _ _ _ _ _ _ _ (Hall (j + Z.abs_nat d)%nat)); [done|lia].
Qed.

Lemma ucs_relax_progress U goal cost current n st :
  n ∈ U → ucs_within U goal st →
  let st' := ucs_relax cost current n st in
  ucs_within U goal st' ∧
  (length (ucs_queue st') ≤ S (length (ucs_queue st)))%nat.
Proof.
  intros Hn [HU Hg]. unfold ucs_relax, as_tuple.
  destruct (match ucs_cost_so_far st !! n with
            | Some old_cost => cost + 1 <? old_cost
            | None => true
            end); [|split; [done|lia]].
  split; [split|]; cbn [ucs_queue ucs_cost_so_far].
  - by apply heappush_Forall.
  - intros Hc. destruct (decide (n = goal)) as [->|Hne].
    + exists (cost + 1). apply elem_of_heappush. by left.
    + cbn [ucs_cost_so_far] in Hc. rewrite lookup_insert_ne in Hc by done.
      destruct (Hg Hc) as [c Hin]. exists c. apply elem_of_heappush. by right.
  - rewrite length_heappush. lia.
Qed.

Lemma ucs_relax_all_progress U goal cost current : ∀ l st,
  (∀ n, n ∈ l → n ∈ U) → ucs_within U goal st →
  let st' := foldl (fun st neighbor => ucs_relax cost current neighbor st) st l in
  ucs_within U goal st' ∧
  (length (ucs_queue st') ≤ length (ucs_queue st) + length l)%nat.
Proof.
  induction l as [|n l IH]; intros st Hl Hw; simpl; [split; [done|lia]|].
  destruct (ucs_relax_progress U goal cost current n st) as [Hw1 Hlen1];
    [set_solver|done|].
  destruct (IH (ucs_relax cost current n st)) as [Hw' Hlen'];
    [set_solver|done|].
  split; [done|lia].
Qed.

Lemma ucs_loop_total U start goal j fuel : ∀ st visited d A B,
  closed U → reach start j goal →
  ucs_inv start st → ucs_levels start d A B (fun _ => False) st visited →
  ucs_within U goal st →
  (2 * ucs_measure U st visited + Z.to_nat d + 2 ≤ fuel)%nat →
  ∃ path, ucs_loop fuel goal st visited = Returns (Some path).
Proof.
  induction fuel as [|fuel IH];
    intros st visited d A B HUc Hreach Hinv H [HU Hgoal] Hfuel; [lia|]. simpl.
  destruct (ucs_queue st) as [|[cost current] queue'] eqn:Hqueue; simpl.
  { exfalso. pose proof (ul_queue _ _ _ _ _ _ _ H) as Hq. rewrite Hqueue in Hq.
    symmetry in Hq. apply app_eq_nil in Hq as [-> ->].
    pose proof (ucs_levels_exhausted start d st visited j goal H Hreach) as Hc.
    destruct (Hgoal Hc) as [c Hin]. by apply elem_of_nil in Hin. }
  assert (∃ d' A' B', (Z.to_nat d' ≤ S (Z.to_nat d))%nat ∧
            ucs_levels start d' ((cost, current) :: A') B' (fun _ => False)
                       st visited) as (d' & A' & B' & Hd' & H').
  { pose proof (ul_queue _ _ _ _ _ _ _ H) as Hq. rewrite Hqueue in Hq.
    destruct A as [|a A].
    - apply ucs_levels_shift in H. simpl in Hq. subst B.
      exists (d + 1), queue', []. split; [lia|done].
    - simpl in Hq. injection Hq as <- _. exists d, A, B. split; [lia|done]. }
  clear A B H.
  destruct (ucs_levels_pop start d' cost current A' B' st visited queue' H' Hqueue)
    as (-> & -> & Hcur & Hpop).
  unfold ucs_measure in Hfuel. rewrite Hqueue in Hfuel. simpl in Hfuel.
  destruct Hinv as (Hcf & Hs & Hq). rewrite Hqueue in Hq.
  apply Forall_cons in Hq as [[Hcost Hknown] Hq]. simpl in Hcost, Hknown.
  apply Forall_cons in HU as [HcU HU]. simpl in HcU.
  destruct (decide (current = goal)) as [->|Hne].
  - destruct (reconstruct_by_cost start d' ((d', goal) :: A') B' _ st visited
                fuel goal d' [] H' Hcur) as [path Hpath]; [lia|].
    exists path. unfold reconstruct_path, as_tuple. by rewrite Hpath.
  - set (st0 := UcsState (A' ++ B') (ucs_came_from st) (ucs_cost_so_far st)) in *.
    assert (ucs_inv start st0) as Hinv0 by (by split_and!).
    assert (ucs_within U goal st0) as Hw0.
    { split; [done|]. simpl. intros Hc. destruct (Hgoal Hc) as [c Hin].
      exists c. apply elem_of_cons in Hin as [[= _ <-]|?]; done. }
    destruct (decide (as_tuple current ∈ visited)) as [Hv|Hv].
    + eapply (IH _ _ d' A' B'); [done|done|done| |done|].
      * by apply (ucs_levels_skip start d' current).
      * unfold ucs_measure. simpl. lia.
    + destruct (HUc current HcU) as (ns & Hns & HnsU). rewrite Hns. simpl.
      pose proof (get_neighbors_length current ns Hns) as Hlen.
      destruct (ucs_levels_relax_all start d' current A' ns visited ns B' st0)
        as (B1 & H1 & Hall); [done..|].
      destruct (ucs_relax_all_progress U goal d' (as_tuple current) ns st0)
        as [Hw1 Hlen1]; [done..|].
      pose proof (size_unseen U visited current HcU Hv) as Hsize.
      eapply (IH _ _ d' A' B1); [done|done| | |done|].
      * by apply (ucs_relax_all_inv start d' current ns).
      * by eapply ucs_levels_expanded.
      * unfold ucs_measure, as_tuple in *. simpl in Hlen1. lia.
Qed.

(** With enough fuel [ucs] returns a list whenever the goal can be reached
    from the start inside a finite closed set of grids. *)
Lemma ucs_total U start goal j fuel :
  closed U → start ∈ U → reach start j goal →
  (10 * size U + 4 ≤ fuel)%nat →
  ∃ path, ucs fuel start goal = Returns (Some path).
Proof.
  intros HUc Hs Hreach Hfuel.
  eapply (ucs_loop_total U start goal j fuel _ _ 0 [(0, start)] []);
    [done|done| |apply ucs_levels_init| |].
  - split_and!; simpl; [by split|apply lookup_singleton_eq|].
    constructor; [|done]. split; [done|by left].
  - split; simpl.
    + constructor; [done|constructor].
    + unfold as_tuple. intros [c Hc]. apply lookup_singleton_Some in Hc as [<- _].
      exists 0. by left.
  - unfold ucs_measure. simpl.
    assert (size (U ∖ ∅) ≤ size U)%nat by (apply subseteq_size; set_solver).
    lia.
Qed.

(** ** The program and further properties of the searches *)

(** *** dfs: the depth limit and the visited set *)

Lemma dfs_entry_bounded_mono visited visited' e :
  visited ⊆ visited' → dfs_entry_bounded visited e → dfs_entry_bounded visited' e.
Proof. intros Hsub (? & ? & Hin). split_and!; [done..|]. intros x Hx. apply Hsub. by apply Hin. Qed.

Lemma dfs_loop_bounded goal depth_limit fuel : ∀ stack visited path,
  Forall (dfs_entry_bounded visited) stack →
  dfs_loop fuel goal depth_limit stack visited = Returns (Some path) →
  edge_count path ≤ depth_limit ∧ NoDup path.
Proof.
  induction fuel as [|fuel IH]; intros stack visited result Hok; simpl; [done|].
  destruct stack as [|[[current path] depth] stack']; [done|].
  apply Forall_cons in Hok as [(Hlen & Hnd & Hvis) Hok]. simpl in Hlen, Hnd, Hvis.
  destruct (Z.gtb_spec depth depth_limit) as [|Hle]; [by apply IH|].
  destruct (decide (as_tuple current ∈ visited)) as [|Hnew]; [by apply IH|].
  unfold as_tuple in *.
  assert (NoDup (path ++ [current])) as Hnd'.
  { apply NoDup_app. split_and!; [done| |apply NoDup_singleton].
    intros x Hx ->%list_elem_of_singleton. by apply Hnew, Hvis. }
  destruct (decide (current = goal)) as [->|Hne].
  - intros [= <-]. split; [|done].
    unfold edge_count. rewrite length_app. simpl. lia.
  - intros Hrun. apply bind_Returns in Hrun as (ns & Hns & Hrun).
    eapply IH; [|exact Hrun].
    apply dfs_push_all.
    + eapply Forall_impl; [done|]. intros e.
      apply dfs_entry_bounded_mono. set_solver.
    + intros nb. split_and!; simpl; [|done|].
      * rewrite length_app. simpl. lia.
      * intros x [Hx| ->%list_elem_of_singleton]%elem_of_app; [|set_solver].
        apply elem_of_union_r. by apply Hvis.
Qed.

Lemma dfs_bounded fuel start goal depth_limit path :
  dfs fuel start goal depth_limit = Returns (Some path) →
  edge_count path ≤ depth_limit ∧ NoDup path.
Proof.
  apply dfs_loop_bounded. constructor; [|constructor].
  split_and!; simpl; [done|constructor|]. by intros x ?%elem_of_nil.
Qed.

(** *** Slides can be undone *)

Ltac decide_blank :=
  repeat match goal with
         | |- context [0 =? 0] => rewrite (Z.eqb_refl 0)
         | |- context [?v =? 0] =>
             rewrite (proj2 (Z.eqb_neq v 0)) by neq
         end.

Lemma is_neighbor_sym g n : valid_grid g → is_neighbor g n → is_neighbor n g.
Proof.
  intros Hv (ns & Hns & Hn). revert Hns Hn. valid_cases Hv.
  all: intros [= <-] Hn; set_unfold in Hn; destruct_or!; try done; subst n.
  all: eexists; split; [rewrite get_neighbors_33; decide_blank; reflexivity|].
  all: rewrite !elem_of_cons; auto 10.
Qed.

Lemma neighbors_distinct g :
  valid_grid g →
  ∃ ns, get_neighbors g = Returns ns ∧ NoDup ns ∧ g ∉ ns.
Proof.
  intros Hv. valid_cases Hv.
  all: eexists; split; [reflexivity|]; split.
  all: repeat (apply NoDup_cons; split); try apply NoDup_nil_2.
  all: rewrite ?not_elem_of_cons; split_and?; try apply not_elem_of_nil.
  all: intros [=]; congruence.
Qed.

Lemma reach_valid start j g :
  valid_grid start → reach start j g →
  valid_grid g ∧ is_solvable g = is_solvable start.
Proof.
  intros Hv. induction 1 as [|k g n _ [IHv IHs] (ns & Hns & Hn)]; [done|].
  destruct (neighbors_of_valid g IHv) as (p & ns' & _ & _ & Hns' & _ & HF).
  destruct (neighbor_parity g IHv) as (ns'' & Hns'' & Hpar).
  rewrite Hns in Hns', Hns''. injection Hns' as <-. injection Hns'' as <-.
  split; [|by rewrite (Hpar n Hn)].
  apply list_elem_of_lookup in Hn as [i Hi].
  by destruct (Forall2_lookup_r _ _ _ _ _ HF Hi) as (q & _ & _ & _ & Hvn).
Qed.

Lemma reach_step_front start j g n :
  is_neighbor n start → reach start j g → reach n (S j) g.
Proof.
  intros Hn. induction 1 as [|k g x _ IH Hx].
  - by apply (reach_S _ 0 n); [constructor|].
  - by apply (reach_S _ (S k) g).
Qed.

Lemma reach_sym start j g :
  valid_grid start → reach start j g → reach g j start.
Proof.
  intros Hv. induction 1 as [|k g n Hr IH Hn]; [constructor|].
  apply (reach_step_front g); [|done].
  apply is_neighbor_sym; [|done]. by apply (reach_valid start k).
Qed.

(** *** bfs and ucs return, whether or not the goal can be reached *)

Lemma bfs_visit_all_within U current : ∀ l st,
  (∀ n, n ∈ l → n ∈ U) → bfs_visited st ⊆ U →
  let st' := foldl (fun st neighbor => bfs_visit current neighbor st) st l in
  bfs_visited st' ⊆ U ∧ (bfs_measure U st' ≤ bfs_measure U st)%nat.
Proof.
  induction l as [|n l IH]; intros st Hl HU; simpl; [done|].
  assert (bfs_visited (bfs_visit current n st) ⊆ U ∧
          (bfs_measure U (bfs_visit current n st) ≤ bfs_measure U st)%nat)
    as [HU1 Hm1].
  { unfold bfs_visit, as_tuple.
    destruct (decide (n ∈ bfs_visited st)) as [|Hnew]; [done|]. simpl.
    assert (n ∈ U) by (apply Hl; by left). split; [set_solver|].
    unfold bfs_measure. simpl. rewrite length_app. simpl.
    rewrite (size_unseen U (bfs_visited st) n) by done. lia. }
  destruct (IH (bfs_visit current n st)) as [HU' Hm'];
    [intros x Hx; apply Hl; by right|done|].
  split; [done|lia].
Qed.

Lemma bfs_loop_returns U start goal fuel : ∀ st d A B lvl,
  closed U →
  bfs_inv start st → bfs_levels start d A B (fun _ => False) st lvl →
  bfs_visited st ⊆ U →
  (2 * bfs_measure U st + d + 2 ≤ fuel)%nat →
  ∃ r, bfs_loop fuel goal st = Returns r.
Proof.
  induction fuel as [|fuel IH]; intros st d A B lvl HUc Hinv H HU Hfuel;
    [lia|]. simpl.
  destruct (bfs_queue st) as [|current queue'] eqn:Hqueue; [eauto|].
  assert (∃ d' A' B', (d' ≤ S d)%nat ∧
            bfs_levels start d' (current :: A') B' (fun _ => False) st lvl)
    as (d' & A' & B' & Hd' & H').
  { pose proof (lv_queue _ _ _ _ _ _ _ H) as Hq. rewrite Hqueue in Hq.
    destruct A as [|a A].
    - apply levels_shift in H. simpl in Hq. subst B.
      exists (S d), queue', []. by split.
    - simpl in Hq. injection Hq as <- _. exists d, A, B. split; [lia|done]. }
  clear A B H.
  destruct (levels_pop start d' current A' B' st lvl queue' H' Hqueue)
    as (-> & Hcur & Hpop).
  assert (bfs_measure U st =
          S (bfs_measure U (BfsState (A' ++ B') (bfs_visited st)
                                     (bfs_came_from st)))) as Hm.
  { unfold bfs_measure. rewrite Hqueue. simpl. lia. }
  destruct (decide (current = goal)) as [->|Hne].
  - destruct (reconstruct_by_level start d' (goal :: A') B' _ st lvl fuel
                goal d' [] H' Hcur) as [path Hpath]; [lia|].
    exists (Some path). unfold reconstruct_path, as_tuple. by rewrite Hpath.
  - assert (current ∈ U) as HcU.
    { apply HU. apply (lv_dom _ _ _ _ _ _ _ H'). by eexists. }
    destruct (HUc current HcU) as (ns & Hns & HnsU). rewrite Hns. simpl.
    destruct Hinv as (Hcf & Hs & Hq). rewrite Hqueue in Hq.
    apply Forall_cons in Hq as [Hknown Hq].
    set (st0 := BfsState (A' ++ B') (bfs_visited st) (bfs_came_from st)) in *.
    destruct (levels_visit_all start d' current A' ns ns B' st0 lvl)
      as (B1 & lvl1 & H1 & _ & Hall); [done..|].
    destruct (bfs_visit_all_within U current ns st0) as [HU1 Hm1]; [done..|].
    eapply (IH _ d' A' B1 lvl1); [done| | |done|lia].
    + apply (bfs_visit_all_inv start current ns); [done..| |done].
      by split_and!.
    + by eapply levels_expanded.
Qed.

Lemma bfs_returns U start goal fuel :
  closed U → start ∈ U → (4 * size U + 4 ≤ fuel)%nat →
  ∃ r, bfs fuel start goal = Returns r.
Proof.
  intros HUc Hs Hfuel.
  eapply (bfs_loop_returns U start goal fuel _ 0 [start] []);
    [done| |apply levels_init| |].
  - split_and!; simpl; [by split|set_solver|]. constructor; [by left|done].
  - simpl. unfold as_tuple. set_solver.
  - unfold bfs_measure. simpl.
    assert (size (U ∖ {[as_tuple start]}) ≤ size U)%nat
      by (apply subseteq_size; set_solver).
    lia.
Qed.

Lemma ucs_relax_all_within (U : gset Grid) cost current : ∀ l st,
  (∀ n, n ∈ l → n ∈ U) →
  Forall (fun e : Z * Grid => e.2 ∈ U) (ucs_queue st) →
  let st' := foldl (fun st neighbor => ucs_relax cost current neighbor st) st l in
  Forall (fun e : Z * Grid => e.2 ∈ U) (ucs_queue st') ∧
  (length (ucs_queue st') ≤ length (ucs_queue st) + length l)%nat.
Proof.
  induction l as [|n l IH]; intros st Hl HU; simpl; [split; [done|lia]|].
  assert (Forall (fun e : Z * Grid => e.2 ∈ U)
            (ucs_queue (ucs_relax cost current n st)) ∧
          (length (ucs_queue (ucs_relax cost current n st))
           ≤ S (length (ucs_queue st)))%nat) as [HU1 Hlen1].
  { unfold ucs_relax, as_tuple.
    destruct (match ucs_cost_so_far st !! n with
              | Some old_cost => cost + 1 <? old_cost
              | None => true
              end); [|split; [done|lia]].
    cbn [ucs_queue]. split.
    - apply heappush_Forall; [done|]. apply Hl. by left.
    - rewrite length_heappush. lia. }
  destruct (IH (ucs_relax cost current n st)) as [HU' Hlen'];
    [intros x Hx; apply Hl; by right|done|].
  split; [done|lia].
Qed.

Lemma ucs_loop_returns U start goal fuel : ∀ st visited d A B,
  closed U →
  ucs_inv start st → ucs_levels start d A B (fun _ => False) st visited →
  Forall (fun e : Z * Grid => e.2 ∈ U) (ucs_queue st) →
  (2 * ucs_measure U st visited + Z.to_nat d + 2 ≤ fuel)%nat →
  ∃ r, ucs_loop fuel goal st visited = Returns r.
Proof.
  induction fuel as [|fuel IH];
    intros st visited d A B HUc Hinv H HU Hfuel; [lia|]. simpl.
  destruct (ucs_queue st) as [|[cost current] queue'] eqn:Hqueue; simpl;
    [eauto|].
  assert (∃ d' A' B', (Z.to_nat d' ≤ S (Z.to_nat d))%nat ∧
            ucs_levels start d' ((cost, current) :: A') B' (fun _ => False)
                       st visited) as (d' & A' & B' & Hd' & H').
  { pose proof (ul_queue _ _ _ _ _ _ _ H) as Hq. rewrite Hqueue in Hq.
    destruct A as [|a A].
    - apply ucs_levels_shift in H. simpl in Hq. subst B.
      exists (d + 1), queue', []. split; [lia|done].
    - simpl in Hq. injection Hq as <- _. exists d, A, B. split; [lia|done]. }
  clear A B H.
  destruct (ucs_levels_pop start d' cost current A' B' st visited queue' H' Hqueue)
    as (-> & -> & Hcur & Hpop).
  unfold ucs_measure in Hfuel. rewrite Hqueue in Hfuel. simpl in Hfuel.
  destruct Hinv as (Hcf & Hs & Hq). rewrite Hqueue in Hq.
  apply Forall_cons in Hq as [[Hcost Hknown] Hq]. simpl in Hcost, Hknown.
  apply Forall_cons in HU as [HcU HU]. simpl in HcU.
  destruct (decide (current = goal)) as [->|Hne].
  - destruct (reconstruct_by_cost start d' ((d', goal) :: A') B' _ st visited
                fuel goal d' [] H' Hcur) as [path Hpath]; [lia|].
    exists (Some path). unfold reconstruct_path, as_tuple. by rewrite Hpath.
  - set (st0 := UcsState (A' ++ B') (ucs_came_from st) (ucs_cost_so_far st)) in *.
    assert (ucs_inv start st0) as Hinv0 by (by split_and!).
    destruct (decide (as_tuple current ∈ visited)) as [Hv|Hv].
    + eapply (IH _ _ d' A' B'); [done|done| |done|].
      * by apply (ucs_levels_skip start d' current).
      * unfold ucs_measure. simpl. lia.
    + destruct (HUc current HcU) as (ns & Hns & HnsU). rewrite Hns. simpl.
      pose proof (get_neighbors_length current ns Hns) as Hlen.
      destruct (ucs_levels_relax_all start d' current A' ns visited ns B' st0)
        as (B1 & H1 & Hall); [done..|].
      destruct (ucs_relax_all_within U d' (as_tuple current) ns st0)
        as [HU1 Hlen1]; [done..|].
      pose proof (size_unseen U visited current HcU Hv) as Hsize.
      eapply (IH _ _ d' A' B1); [done| | |done|].
      * by apply (ucs_relax_all_inv start d' current ns).
      * by eapply ucs_levels_expanded.
      * unfold ucs_measure, as_tuple in *. simpl in Hlen1. lia.
Qed.

Lemma ucs_returns U start goal fuel :
  closed U → start ∈ U → (10 * size U + 4 ≤ fuel)%nat →
  ∃ r, ucs fuel start goal = Returns r.
Proof.
  intros HUc Hs Hfuel.
  eapply (ucs_loop_returns U start goal fuel _ _ 0 [(0, start)] []);
    [done| |apply ucs_levels_init| |].
  - split_and!; simpl; [by split|apply lookup_singleton_eq|].
    constructor; [|done]. split; [done|by left].
  - simpl. constructor; [done|constructor].
  - unfold ucs_measure. simpl.
    assert (size (U ∖ ∅) ≤ size U)%nat by (apply subseteq_size; set_solver).
    lia.
Qed.

(** *** The walk of a shuffle *)

Lemma choice_Returns {A} k (xs : list A) x : choice k xs = Returns x → x ∈ xs.
Proof.
  unfold choice. destruct (xs !! _) eqn:E; [|done]. intros [= <-].
  by eapply list_elem_of_lookup_2.
Qed.

Lemma walk_reach rand moves : ∀ i g g',
  walk rand i moves g = Returns g' → reach g moves g'.
Proof.
  induction moves as [|moves IH]; intros i g g'; simpl.
  - intros [= <-]. constructor.
  - intros Hw. apply bind_Returns in Hw as (ns & Hns & Hw).
    apply bind_Returns in Hw as (n & Hn & Hw).
    apply (reach_step_front n); [|by eapply IH].
    exists ns. split; [done|]. by eapply choice_Returns.
Qed.

(** Each slide moves the blank to a square of the other colour. *)
Lemma neighbor_blank_odd g n :
  valid_grid g → is_neighbor g n → blank_odd n = negb (blank_odd g).
Proof.
  intros Hv (ns & Hns & Hn). revert Hns Hn. unfold blank_odd. valid_cases Hv.
  all: intros [= <-] Hn; set_unfold in Hn; destruct_or!; try done; subst n.
  all: rewrite find_zero_33; decide_blank; reflexivity.
Qed.

Lemma reach_blank_odd start j g :
  valid_grid start → reach start j g →
  blank_odd g = xorb (Nat.odd j) (blank_odd start).
Proof.
  intros Hv. induction 1 as [|k g n Hr IH Hn]; [done|].
  rewrite (neighbor_blank_odd g n); [|by apply (reach_valid start k)|done].
  rewrite IH, Nat.odd_succ, <- Nat.negb_odd. by destruct (Nat.odd k), (blank_odd start).
Qed.

Lemma reach_odd_differs start j g :
  valid_grid start → reach start j g → Nat.odd j = true → g ≠ start.
Proof.
  intros Hv Hr Hodd ->. pose proof (reach_blank_odd start j start Hv Hr) as H.
  rewrite Hodd in H. by destruct (blank_odd start).
Qed.

Lemma choice_at {A} k (xs : list A) x :
  xs !! k = Some x → choice k xs = Returns x.
Proof.
  intros Hk. unfold choice.
  rewrite Nat.mod_small by (by eapply lookup_lt_Some). by rewrite Hk.
Qed.

Lemma walk_there_and_back g :
  valid_grid g →
  ∃ back, ∀ n i, Nat.even i = true →
    walk (there_and_back back) i (2 * n) g = Returns g.
Proof.
  intros Hv.
  destruct (neighbors_of_valid g Hv) as (p & ns & _ & _ & Hns & [_ Hlen] & HF).
  destruct ns as [|n0 ns]; [simpl in Hlen; lia|].
  destruct (is_neighbor_sym g n0 Hv) as (ns' & Hns' & Hback).
  { exists (n0 :: ns). split; [done|by left]. }
  apply list_elem_of_lookup in Hback as [back Hback].
  exists back. induction n as [|n IH]; intros i Hi; [done|].
  replace (2 * S n)%nat with (S (S (2 * n))) by lia.
  assert (there_and_back back i = 0%nat) as Hthere
    by (unfold there_and_back; by rewrite Hi).
  assert (there_and_back back (S i) = back) as Hcome.
  { unfold there_and_back. by rewrite Nat.even_succ, <- Nat.negb_even, Hi. }
  cbn [walk]. rewrite Hns, Hthere, Hcome. cbn [mbind outcome_bind].
  rewrite (choice_at 0 (n0 :: ns) n0) by done. cbn [mbind outcome_bind].
  rewrite Hns'. cbn [mbind outcome_bind].
  rewrite (choice_at back ns' g) by done. cbn [mbind outcome_bind].
  apply IH. by rewrite !Nat.even_succ_succ.
Qed.

Lemma shuffle_odd_moves rand h l g moves :
  valid_grid g → read_grid h l = Some g → 0 ≤ moves → Z.odd moves = true →
  ∃ h' g',
    shuffle_puzzle rand h l moves = Returns (l, h') ∧
    read_grid h' l = Some g' ∧ g' ≠ g.
Proof.
  intros Hv Hread Hpos Hodd.
  destruct (shuffle_puzzle_spec rand h l g moves Hv Hread)
    as (h' & g' & Hrun & Hwalk & _ & _ & Hread' & _).
  exists h', g'. split_and!; [done..|].
  apply (reach_odd_differs g (Z.to_nat moves)); [done|by eapply walk_reach|].
  clear -Hpos Hodd. destruct (Nat.odd (Z.to_nat moves)) eqn:E; [done|].
  exfalso. apply Z.odd_spec in Hodd as [k Hk].
  apply not_true_iff_false in E. apply E. apply Nat.odd_spec.
  exists (Z.to_nat k). lia.
Qed.

Lemma shuffle_there_and_back h l g n :
  valid_grid g → read_grid h l = Some g →
  ∃ rand h',
    shuffle_puzzle rand h l (2 * Z.of_nat n) = Returns (l, h') ∧
    read_grid h' l = Some g.
Proof.
  intros Hv Hread. destruct (walk_there_and_back g Hv) as [back Hback].
  exists (there_and_back back).
  destruct (shuffle_puzzle_spec (there_and_back back) h l g (2 * Z.of_nat n)
              Hv Hread) as (h' & g' & Hrun & Hwalk & _ & _ & Hread' & _).
  replace (Z.to_nat (2 * Z.of_nat n)) with (2 * n)%nat in Hwalk by lia.
  rewrite (Hback n 0%nat eq_refl) in Hwalk. injection Hwalk as <-.
  by exists h'.
Qed.

(** *** A goal of the other parity is not found *)

Lemma bfs_unreachable U start goal fuel :
  closed U → start ∈ U → (∀ j, ¬ reach start j goal) →
  (4 * size U + 4 ≤ fuel)%nat →
  bfs fuel start goal = Returns None.
Proof.
  intros HUc Hs Hno Hfuel.
  destruct (bfs_returns U start goal fuel) as [[path|] Hr]; [done..| |done].
  exfalso. destruct (bfs_sound fuel _ _ _ Hr) as (_ & Hlast & Hchain).
  exact (Hno _ (path_reach start path goal Hchain Hlast)).
Qed.

Lemma ucs_unreachable U start goal fuel :
  closed U → start ∈ U → (∀ j, ¬ reach start j goal) →
  (10 * size U + 4 ≤ fuel)%nat →
  ucs fuel start goal = Returns None.
Proof.
  intros HUc Hs Hno Hfuel.
  destruct (ucs_returns U start goal fuel) as [[path|] Hr]; [done..| |done].
  exfalso. destruct (ucs_sound fuel _ _ _ Hr) as (_ & Hlast & Hchain).
  exact (Hno _ (path_reach start path goal Hchain Hlast)).
Qed.

Lemma dfs_unreachable U start goal depth_limit fuel :
  closed U → start ∈ U → (∀ j, ¬ reach start j goal) →
  (5 * size U + 2 ≤ fuel)%nat →
  dfs fuel start goal depth_limit = Returns None.
Proof.
  intros HUc Hs Hno Hfuel.
  destruct (dfs_total U start goal depth_limit fuel) as [[path|] Hr];
    [done..| |done].
  exfalso. destruct (dfs_sound fuel _ _ _ _ Hr) as (Hhead & Hlast & Hchain).
  destruct path as [|s q]; [done|]. injection Hhead as ->.
  exact (Hno _ (path_reach start q goal Hchain Hlast)).
Qed.

Lemma other_parity_unreachable start goal :
  valid_grid start → is_solvable start ≠ is_solvable goal →
  ∀ j, ¬ reach start j goal.
Proof.
  intros Hv Hne j Hr. destruct (reach_valid start j goal Hv Hr) as [_ Hs].
  by rewrite Hs in Hne.
Qed.

Lemma exchanged_valid : valid_grid exchanged_start.
Proof.
  split; [by split; [|repeat constructor]|]. vm_compute. solve_Permutation.
Qed.

Lemma searches_other_parity start goal depth_limit :
  valid_grid start → is_solvable start ≠ is_solvable goal →
  ∃ fuel0, ∀ fuel, (fuel0 ≤ fuel)%nat →
    bfs fuel start goal = Returns None ∧
    dfs fuel start goal depth_limit = Returns None ∧
    ucs fuel start goal = Returns None.
Proof.
  intros Hv Hne. exists (10 * size valid_grids + 4)%nat. intros fuel Hfuel.
  pose proof valid_grids_closed as Hc.
  pose proof (proj2 (elem_of_valid_grids _) Hv) as HU.
  pose proof (other_parity_unreachable start goal Hv Hne) as Hno.
  split_and!.
  - apply (bfs_unreachable valid_grids); [done..|lia].
  - apply (dfs_unreachable valid_grids); [done..|lia].
  - apply (ucs_unreachable valid_grids); [done..|lia].
Qed.

(** *** Exchanging two tiles *)

Lemma inversions_exchange l1 a b l2 :
  a ≠ b →
  inversions (l1 ++ b :: a :: l2) mod 2 =
  (inversions (l1 ++ a :: b :: l2) + 1) mod 2.
Proof.
  intros Hab. induction l1 as [|x l1 IH]; simpl.
  - rewrite !Z.gtb_ltb.
    destruct (Z.ltb_spec b a), (Z.ltb_spec a b); try lia;
      first [ apply (mod2_shift _ _ 0); lia | apply (mod2_shift _ _ (-1)); lia
            | apply (mod2_shift _ _ 1); lia ].
  - rewrite !count_smaller_app. simpl.
    rewrite (Z.add_mod _ (inversions (l1 ++ b :: _))), IH, <- Z.add_mod by lia.
    f_equal. lia.
Qed.

Lemma is_solvable_exchange g g' l1 a b l2 :
  flat_state g = l1 ++ a :: b :: l2 →
  flat_state g' = l1 ++ b :: a :: l2 →
  a ≠ b →
  is_solvable g' = negb (is_solvable g).
Proof.
  intros Hg Hg' Hab. unfold is_solvable.
  rewrite Hg, Hg', (inversions_exchange l1 a b l2 Hab).
  rewrite Z.add_mod by lia.
  pose proof (Z.mod_pos_bound (inversions (l1 ++ a :: b :: l2)) 2 ltac:(lia)).
  assert (inversions (l1 ++ a :: b :: l2) mod 2 = 0 ∨
          inversions (l1 ++ a :: b :: l2) mod 2 = 1) as [-> | ->] by lia;
    reflexivity.
Qed.

(** *** reconstruct_path on a map with a cycle *)

Lemma reconstruct_loop_cycle (came_from : gmap Grid Grid) (P : Grid → Prop) :
  (∀ k, P k → ∃ p, came_from !! k = Some p ∧ P p) →
  ∀ fuel current path, P current →
    reconstruct_loop fuel came_from current path = OutOfFuel.
Proof.
  intros Hcycle. induction fuel as [|fuel IH]; intros current path Hc; [done|].
  simpl. destruct (Hcycle current Hc) as (p & -> & Hp). by apply IH.
Qed.

(** *** dfs against bfs *)

Lemma dfs_not_shorter fuel fuel' start goal depth_limit p q :
  bfs fuel start goal = Returns (Some p) →
  dfs fuel' start goal depth_limit = Returns (Some q) →
  (length p + 1 ≤ length q)%nat.
Proof.
  intros Hp Hq. destruct (bfs_shortest fuel _ _ _ Hp) as [_ Hmin].
  apply dfs_sound, Hmin in Hq. unfold edge_count in Hq. simpl in Hq. lia.
Qed.

(** *** Grids without a blank *)

Lemma get_neighbors_no_blank g :
  shape33 g → 0 ∉ concat g → get_neighbors g = Raises TypeError.
Proof.
  intros Hs Hnin.
  apply shape33_inv in Hs as (a & b & c & d & e & f & x & y & z & ->).
  rewrite get_neighbors_33.
  repeat match goal with
         | |- context [?v =? 0] => destruct (Z.eqb_spec v 0); [subst v|]
         end; try done.
  all: exfalso; apply Hnin; simpl; rewrite !elem_of_cons; auto 20.
Qed.

Lemma searches_no_blank start goal depth_limit fuel :
  shape33 start → 0 ∉ concat start → start ≠ goal →
  (1 ≤ fuel)%nat → 0 ≤ depth_limit →
  bfs fuel start goal = Raises TypeError ∧
  dfs fuel start goal depth_limit = Raises TypeError ∧
  ucs fuel start goal = Raises TypeError.
Proof.
  intros Hs Hnin Hne Hfuel Hlimit.
  pose proof (get_neighbors_no_blank start Hs Hnin) as Hraise.
  destruct fuel as [|fuel]; [lia|]. split_and!.
  - unfold bfs. cbn [bfs_loop bfs_queue].
    rewrite decide_False by done. by rewrite Hraise.
  - unfold dfs. cbn [dfs_loop].
    destruct (Z.gtb_spec 0 depth_limit); [lia|].
    rewrite decide_False by set_solver. rewrite decide_False by done.
    by rewrite Hraise.
  - unfold ucs. cbn [ucs_loop heappush heappop ucs_queue].
    rewrite decide_False by done. rewrite decide_False by set_solver.
    by rewrite Hraise.
Qed.

Lemma shuffle_no_blank rand h l g moves :
  read_grid h l = Some g → shape33 g → 0 ∉ concat g → 1 ≤ moves →
  shuffle_puzzle rand h l moves = Raises TypeError.
Proof.
  intros Hread Hs Hnin Hmoves. apply read_grid_obj in Hread as [rows Hg].
  assert (find_zero g = Returns None) as Hz.
  { pose proof Hs as Hs'.
    apply shape33_inv in Hs' as (a & b & c & d & e & f & x & y & z & ->).
    rewrite find_zero_33.
    repeat match goal with
           | |- context [?v =? 0] => destruct (Z.eqb_spec v 0); [subst v|]
           end; try done.
    all: exfalso; apply Hnin; simpl; rewrite !elem_of_cons; auto 20. }
  unfold shuffle_puzzle.
  destruct (Z.to_nat moves) as [|n] eqn:E; [lia|]. simpl.
  unfold shuffle_step, h_get_neighbors.
  by rewrite (h_find_zero_obj h l rows g Hg), Hz.
Qed.

(** *** solve_puzzle and reset_puzzle *)

Lemma reach_path start j g :
  reach start j g →
  ∃ q, path_from_to start g (start :: q) ∧ length q = j.
Proof.
  induction 1 as [|k g n _ (q & (Hh & Hl & Hc) & Hlen) Hn].
  - by exists [].
  - exists (q ++ [n]). split; [|rewrite length_app; simpl; lia].
    split_and!; [done|by rewrite app_comm_cons, last_snoc|].
    destruct (last_Some (start :: q) g) as [Hq _].
    destruct (Hq Hl) as [q' Hq']. rewrite app_comm_cons, Hq'.
    apply slide_chain_snoc; [by rewrite <- Hq'|done].
Qed.

Lemma bfs_start_is_goal fuel g :
  (2 ≤ fuel)%nat → bfs fuel g g = Returns (Some []).
Proof.
  intros Hfuel. do 2 (destruct fuel as [|fuel]; [lia|]).
  unfold bfs. simpl. by rewrite decide_True.
Qed.

Lemma ucs_start_is_goal fuel g :
  (2 ≤ fuel)%nat → ucs fuel g g = Returns (Some []).
Proof.
  intros Hfuel. do 2 (destruct fuel as [|fuel]; [lia|]).
  unfold ucs. simpl. by rewrite decide_True.
Qed.

Lemma dfs_start_is_goal fuel g depth_limit :
  (1 ≤ fuel)%nat → 0 ≤ depth_limit →
  dfs fuel g g depth_limit = Returns (Some [g]).
Proof.
  intros Hfuel Hlimit. destruct fuel as [|fuel]; [lia|].
  unfold dfs. simpl.
  destruct (Z.gtb_spec 0 depth_limit); [lia|].
  rewrite decide_False by set_solver. by rewrite decide_True.
Qed.

Lemma goal_state_solvable : is_solvable goal_state = true.
Proof. reflexivity. Qed.

(** What [solve_puzzle] shows for a search that returned the rest of a
    shortest path. *)
Lemma show_rest_of_path initial_state path :
  path_from_to initial_state goal_state (initial_state :: path) →
  (initial_state = goal_state → path = []) →
  (initial_state = goal_state ∧ show_path (Some path) = [Print "No solution found"]) ∨
  (initial_state ≠ goal_state ∧ show_path (Some path) = display_path path).
Proof.
  intros (_ & Hlast & _) Hgoal.
  destruct (decide (initial_state = goal_state)) as [Heq|Hne].
  - left. split; [done|]. by rewrite (Hgoal Heq).
  - right. split; [done|]. destruct path as [|s path]; [|done].
    simpl in Hlast. congruence.
Qed.

Lemma solve_puzzle_solvable fuel initial_state :
  is_solvable initial_state = true →
  solve_puzzle fuel initial_state "BFS" =
    (path ← bfs fuel initial_state goal_state;
     Returns (ClearTerminal :: show_path path)) ∧
  solve_puzzle fuel initial_state "DFS" =
    (path ← dfs fuel initial_state goal_state 50;
     Returns (ClearTerminal :: show_path path)) ∧
  solve_puzzle fuel initial_state "UCS" =
    (path ← ucs fuel initial_state goal_state;
     Returns (ClearTerminal :: show_path path)).
Proof. intros Hs. unfold solve_puzzle. rewrite Hs. by split_and!. Qed.

Lemma solve_puzzle_bfs_from (initial_state : Grid) (j : nat) :
  valid_grid initial_state → reach initial_state j goal_state →
  ∃ fuel0, ∀ fuel, (fuel0 ≤ fuel)%nat →
    (initial_state = goal_state ∧
     solve_puzzle fuel initial_state "BFS" =
       Returns [ClearTerminal; Print "No solution found"]) ∨
    (initial_state ≠ goal_state ∧
     ∃ path,
       solve_puzzle fuel initial_state "BFS" =
         Returns (ClearTerminal :: display_path path) ∧
       path_from_to initial_state goal_state (initial_state :: path) ∧
       (length path ≤ j)%nat).
Proof.
  intros Hv Hreach. exists (4 * size valid_grids + 4)%nat. intros fuel Hfuel.
  destruct (bfs_total valid_grids initial_state goal_state j fuel)
    as [path Hpath];
    [apply valid_grids_closed|by apply elem_of_valid_grids|done..|].
  destruct (bfs_shortest fuel _ _ _ Hpath) as [Hp Hmin].
  destruct (reach_valid initial_state j goal_state Hv Hreach) as [_ Hs].
  destruct (solve_puzzle_solvable fuel initial_state) as (-> & _ & _);
    [by rewrite <- Hs|].
  rewrite Hpath. cbn [mbind outcome_bind].
  destruct (show_rest_of_path initial_state path Hp) as [[Heq ->]|[Hne ->]].
  - intros ->. rewrite bfs_start_is_goal in Hpath by lia. by injection Hpath.
  - by left.
  - right. split; [done|]. exists path. split_and!; [done..|].
    destruct (reach_path _ _ _ Hreach) as (q & Hq & <-).
    apply Hmin in Hq. unfold edge_count in Hq. simpl in Hq. lia.
Qed.

Lemma solve_puzzle_ucs_from (initial_state : Grid) (j : nat) :
  valid_grid initial_state → reach initial_state j goal_state →
  ∃ fuel0, ∀ fuel, (fuel0 ≤ fuel)%nat →
    (initial_state = goal_state ∧
     solve_puzzle fuel initial_state "UCS" =
       Returns [ClearTerminal; Print "No solution found"]) ∨
    (initial_state ≠ goal_state ∧
     ∃ path,
       solve_puzzle fuel initial_state "UCS" =
         Returns (ClearTerminal :: display_path path) ∧
       path_from_to initial_state goal_state (initial_state :: path) ∧
       (length path ≤ j)%nat).
Proof.
  intros Hv Hreach. exists (10 * size valid_grids + 4)%nat. intros fuel Hfuel.
  destruct (ucs_total valid_grids initial_state goal_state j fuel)
    as [path Hpath];
    [apply valid_grids_closed|by apply elem_of_valid_grids|done..|].
  destruct (ucs_shortest fuel _ _ _ Hpath) as [Hp Hmin].
  destruct (reach_valid initial_state j goal_state Hv Hreach) as [_ Hs].
  destruct (solve_puzzle_solvable fuel initial_state) as (_ & _ & ->);
    [by rewrite <- Hs|].
  rewrite Hpath. cbn [mbind outcome_bind].
  destruct (show_rest_of_path initial_state path Hp) as [[Heq ->]|[Hne ->]].
  - intros ->. rewrite ucs_start_is_goal in Hpath by lia. by injection Hpath.
  - by left.
  - right. split; [done|]. exists path. split_and!; [done..|].
    destruct (reach_path _ _ _ Hreach) as (q & Hq & <-).
    apply Hmin in Hq. unfold edge_count in Hq. simpl in Hq. lia.
Qed.

(** With [DFS], from a valid solvable grid: the program either reports
    that no solution was found or displays a path from the grid to the
    goal, the grid included, that takes at most fifty slides and passes
    through no grid twice. *)
Lemma solve_puzzle_dfs_from (initial_state : Grid) :
  valid_grid initial_state → is_solvable initial_state = true →
  ∃ fuel0, ∀ fuel, (fuel0 ≤ fuel)%nat →
    solve_puzzle fuel initial_state "DFS" =
      Returns [ClearTerminal; Print "No solution found"] ∨
    ∃ path,
      solve_puzzle fuel initial_state "DFS" =
        Returns (ClearTerminal :: display_path path) ∧
      path_from_to initial_state goal_state path ∧
      edge_count path ≤ 50 ∧ NoDup path.
Proof.
  intros Hv Hs. exists (5 * size valid_grids + 2)%nat. intros fuel Hfuel.
  destruct (dfs_total valid_grids initial_state goal_state 50 fuel) as [r Hr];
    [apply valid_grids_closed|by apply elem_of_valid_grids|done|].
  destruct (solve_puzzle_solvable fuel initial_state Hs) as (_ & -> & _).
  rewrite Hr. cbn [mbind outcome_bind].
  destruct r as [path|]; [|by left].
  pose proof (dfs_sound fuel _ _ _ _ Hr) as Hp.
  destruct (dfs_bounded fuel _ _ _ _ Hr) as [Hlen Hnd].
  destruct path as [|s path]; [by destruct Hp|].
  right. by exists (s :: path).
Qed.

(** On a valid grid [solve_puzzle] returns, whatever the method asked
    for. *)
Lemma solve_puzzle_total (initial_state : Grid) (method : string) :
  valid_grid initial_state →
  ∃ fuel0, ∀ fuel, (fuel0 ≤ fuel)%nat →
    ∃ events, solve_puzzle fuel initial_state method = Returns events.
Proof.
  intros Hv. exists (10 * size valid_grids + 4)%nat. intros fuel Hfuel.
  pose proof valid_grids_closed as Hc.
  pose proof (proj2 (elem_of_valid_grids _) Hv) as HU.
  unfold solve_puzzle. destruct (negb _); [eauto|]. simpl.
  destruct (String.eqb method "BFS").
  { destruct (bfs_returns valid_grids initial_state goal_state fuel)
      as [r ->]; [done|done|lia|]. simpl. eauto. }
  destruct (String.eqb method "DFS").
  { destruct (dfs_total valid_grids initial_state goal_state 50 fuel)
      as [r ->]; [done|done|lia|]. simpl. eauto. }
  destruct (String.eqb method "UCS"); [|eauto].
  destruct (ucs_returns valid_grids initial_state goal_state fuel)
    as [r ->]; [done|done|lia|]. simpl. eauto.
Qed.

(** [reset_puzzle] leaves the goal object as it was and binds
    [initial_state] to a new object holding a valid, solvable grid that is
    thirty slides from the goal. *)
Lemma reset_puzzle_correct (rand : nat → nat) (h : heap) (goal_state_ref : loc) :
  read_grid h goal_state_ref = Some goal_state →
  ∃ initial_state h' g,
    reset_puzzle rand h goal_state_ref =
      Returns ([ClearTerminal], initial_state, h') ∧
    h !! initial_state = None ∧
    read_grid h' goal_state_ref = Some goal_state ∧
    read_grid h' initial_state = Some g ∧
    valid_grid g ∧ is_solvable g = true ∧ reach g 30 goal_state.
Proof.
  intros Hread. apply read_grid_obj in Hread as [rows Hg].
  destruct (h_copy_grid_spec h goal_state_ref rows goal_state Hg)
    as (l' & h1 & rows' & Hcopy & Hsub & Hobj & _ & Hfresh & _).
  destruct (shuffle_puzzle_spec rand h1 l' goal_state 30 goal_state_valid)
    as (h' & g & Hshuffle & Hwalk & Hv & Hs & Hread' & Hframe).
  { apply read_grid_obj. by exists rows'. }
  exists l', h', g. unfold reset_puzzle. rewrite Hcopy. cbn [mbind outcome_bind].
  rewrite Hshuffle. cbn [mbind outcome_bind]. split_and!; try done.
  - apply read_grid_obj. exists rows. destruct Hg as [Hl HF]. split.
    + rewrite Hframe; [exact (lookup_weaken _ _ _ _ Hl Hsub)|congruence|].
      rewrite (lookup_weaken _ _ _ _ Hl Hsub). by eexists.
    + eapply Forall2_impl; [done|]. intros r cells Hr.
      rewrite Hframe; [exact (lookup_weaken _ _ _ _ Hr Hsub)|congruence|].
      rewrite (lookup_weaken _ _ _ _ Hr Hsub). by eexists.
  - apply reach_sym; [exact goal_state_valid|].
    by apply (walk_reach rand 30 0).
Qed.

(** A shuffle followed by a [BFS] solve: the program never reports an
    unsolvable puzzle; it displays at most thirty grids, unless the
    shuffle ended on the goal. *)
Lemma reset_then_solve_bfs_from (rand : nat → nat) (h : heap) (goal_state_ref : loc) :
  read_grid h goal_state_ref = Some goal_state →
  ∃ initial_state h' g,
    reset_puzzle rand h goal_state_ref =
      Returns ([ClearTerminal], initial_state, h') ∧
    read_grid h' initial_state = Some g ∧
    ∃ fuel0, ∀ fuel, (fuel0 ≤ fuel)%nat →
      (g = goal_state ∧
       solve_puzzle fuel g "BFS" =
         Returns [ClearTerminal; Print "No solution found"]) ∨
      (g ≠ goal_state ∧
       ∃ path,
         solve_puzzle fuel g "BFS" =
           Returns (ClearTerminal :: display_path path) ∧
         path_from_to g goal_state (g :: path) ∧
         (length path ≤ 30)%nat).
Proof.
  intros Hread.
  destruct (reset_puzzle_correct rand h goal_state_ref Hread)
    as (l & h' & g & Hrun & _ & _ & Hg & Hv & _ & Hreach).
  exists l, h', g. split_and!; [done..|].
  exact (solve_puzzle_bfs_from g 30 Hv Hreach).
Qed.

(** *** display_path *)

Lemma frames_app e1 e2 : frames (e1 ++ e2) = frames e1 ++ frames e2.
Proof. apply omap_app. Qed.

Lemma frames_rows (state : Grid) : frames (PrintRow <$> state) = [].
Proof. induction state as [|row state IH]; [done|]. exact IH. Qed.

Lemma frames_display_step path i state :
  frames (display_step path i state) =
  [(state, Z.of_nat i =? Z.of_nat (length path) - 1)].
Proof.
  unfold display_step. rewrite !frames_app, frames_rows. reflexivity.
Qed.

Lemma frames_display_steps path : ∀ states k,
  frames (concat (imap (fun i => display_step path (k + i)) states)) =
  imap (fun i state =>
          (state, Z.of_nat (k + i) =? Z.of_nat (length path) - 1)) states.
Proof.
  induction states as [|state states IH]; intros k; [done|].
  cbn [imap concat]. rewrite frames_app, frames_display_step. cbn [app].
  f_equal.
  rewrite (imap_ext _ (fun i => display_step path (S k + i))),
    (imap_ext (_ ∘ S) (fun i state =>
       (state, Z.of_nat (S k + i) =? Z.of_nat (length path) - 1))).
  - apply IH.
  - intros i x _. simpl. by rewrite Nat.add_succ_r.
  - intros i x _. simpl. by rewrite Nat.add_succ_r.
Qed.

Lemma display_path_frames_last path g :
  frames (display_path (path ++ [g])) =
  ((fun state => (state, false)) <$> path) ++ [(g, true)].
Proof.
  unfold display_path.
  change (display_step (path ++ [g]))
    with (fun i => display_step (path ++ [g]) (0 + i)).
  rewrite (frames_display_steps (path ++ [g]) (path ++ [g]) 0).
  rewrite imap_app. cbn [imap]. f_equal.
  - rewrite <- (imap_const (fun state => (state, false))).
    apply imap_ext. intros i x Hi. cbn beta.
    apply lookup_lt_Some in Hi. rewrite length_app. simpl.
    f_equal. apply Z.eqb_neq. lia.
  - rewrite length_app. simpl. do 2 f_equal. apply Z.eqb_eq. lia.
Qed.

(** *** The buttons *)

Lemma draw_buttons_eq :
  draw_buttons =
  [(MkRect 5 440 90 40, None); (MkRect 105 440 90 40, Some "BFS"%string);
   (MkRect 205 440 90 40, Some "DFS"%string);
   (MkRect 305 440 90 40, Some "UCS"%string)].
Proof. reflexivity. Qed.

Lemma on_mouse_button_down_cases x y :
  on_mouse_button_down x y = [] ∨
  on_mouse_button_down x y = [ResetPuzzle] ∨
  on_mouse_button_down x y = [SolvePuzzle "BFS"] ∨
  on_mouse_button_down x y = [SolvePuzzle "DFS"] ∨
  on_mouse_button_down x y = [SolvePuzzle "UCS"].
Proof.
  unfold on_mouse_button_down. rewrite draw_buttons_eq.
  unfold collidepoint. cbn [foldl rect_left rect_top rect_width rect_height].
  change (5 + 90) with 95. change (105 + 90) with 195.
  change (205 + 90) with 295. change (305 + 90) with 395.
  change (440 + 40) with 480.
  destruct (Z.leb_spec 440 y), (Z.ltb_spec y 480);
    rewrite ?andb_false_r; cbn; auto.
  rewrite !andb_true_r.
  destruct (Z.leb_spec 5 x), (Z.ltb_spec x 95),
    (Z.leb_spec 105 x), (Z.ltb_spec x 195),
    (Z.leb_spec 205 x), (Z.ltb_spec x 295),
    (Z.leb_spec 305 x), (Z.ltb_spec x 395); try lia; cbn; auto 10.
Qed.

Lemma Forall_concat_imap {A B} (P : B → Prop) (l : list A) : ∀ f : nat → A → list B,
  (∀ i x, Forall P (f i x)) → Forall P (concat (imap f l)).
Proof.
  induction l as [|x l IH]; intros f Hf; [constructor|].
  cbn [imap concat]. apply Forall_app. split; [apply Hf|].
  apply IH. intros i y. apply Hf.
Qed.

Lemma display_path_prints_steps path :
  Forall (fun e => e ≠ Print "Unknown method") (display_path path).
Proof.
  apply Forall_concat_imap. intros i state. unfold display_step.
  repeat (apply Forall_cons; split; [discriminate|]).
  apply Forall_app. split; [|by repeat constructor].
  apply Forall_fmap. apply Forall_forall. by intros.
Qed.

Lemma show_path_known path :
  Forall (fun e => e ≠ Print "Unknown method") (show_path path).
Proof.
  destruct path as [[|s p]|]; try (by repeat constructor).
  apply display_path_prints_steps.
Qed.

Lemma solve_puzzle_known_method fuel initial_state method events :
  method = "BFS"%string ∨ method = "DFS"%string ∨ method = "UCS"%string →
  solve_puzzle fuel initial_state method = Returns events →
  Print "Unknown method" ∉ events.
Proof.
  intros Hm. unfold solve_puzzle.
  destruct (negb _).
  { intros [= <-]. rewrite !not_elem_of_cons. split_and!; [done..|].
    apply not_elem_of_nil. }
  assert (∀ (r : outcome (option (list Grid))),
            (path ← r; Returns (ClearTerminal :: show_path path)) =
              Returns events →
            Print "Unknown method" ∉ events) as Hshow.
  { intros r Hr. apply bind_Returns in Hr as (path & _ & [= <-]).
    apply not_elem_of_cons. split; [done|].
    intros Hin. by apply (proj1 (Forall_forall _ _) (show_path_known path) _ Hin). }
  destruct_or!; subst method; cbn [String.eqb Ascii.eqb Bool.eqb]; apply Hshow.
Qed.

(** ** The concrete scenario: one slide from the goal *)

Lemma bfs_one_slide fuel :
  (6 ≤ fuel)%nat →
  bfs fuel one_slide_start goal_state = Returns (Some [goal_state]).
Proof. apply (bfs_loop_mono 6). vm_compute. reflexivity. Qed.

Lemma ucs_one_slide fuel :
  (6 ≤ fuel)%nat →
  ucs fuel one_slide_start goal_state = Returns (Some [goal_state]).
Proof. apply (ucs_loop_mono 6). vm_compute. reflexivity. Qed.

Lemma dfs_one_slide fuel :
  (9 ≤ fuel)%nat →
  dfs fuel one_slide_start goal_state 1 =
  Returns (Some [one_slide_start; goal_state]).
Proof. apply (dfs_loop_mono 9). vm_compute. reflexivity. Qed.

Lemma bfs_at_goal fuel :
  (2 ≤ fuel)%nat → bfs fuel goal_state goal_state = Returns (Some []).
Proof. apply (bfs_loop_mono 2). vm_compute. reflexivity. Qed.

Lemma one_slide_path :
  path_from_to one_slide_start goal_state [one_slide_start; goal_state].
Proof.
  split_and!; [done..|]. simpl. split; [|done].
  eexists. split; [vm_compute; reflexivity|]. rewrite !elem_of_cons. auto.
Qed.

Lemma one_slide_not_shorter q :
  path_from_to one_slide_start goal_state q → 1 ≤ edge_count q.
Proof.
  intros (Hhead & Hlast & _). unfold edge_count.
  destruct q as [|g [|n q]]; simpl in *; [done| |lia].
  injection Hhead as ->. by injection Hlast.
Qed.

(** C3: on the start [[1,2,3],[4,5,6],[7,0,8]] [is_solvable] is true, but
    [bfs] and [ucs] return the one-element list [[goal]], not the
    two-element path [[start, goal]]: [reconstruct_path] stops at the grid
    with no predecessor entry without collecting it. *)
Theorem one_slide_scenario :
  is_solvable one_slide_start = true ∧
  (∀ fuel, (6 ≤ fuel)%nat →
     bfs fuel one_slide_start goal_state = Returns (Some [goal_state])) ∧
  (∀ fuel, (6 ≤ fuel)%nat →
     ucs fuel one_slide_start goal_state = Returns (Some [goal_state])) ∧
  [goal_state] ≠ [one_slide_start; goal_state].
Proof.
  split_and!; [done|apply bfs_one_slide|apply ucs_one_slide|discriminate].
Qed.

(** C2: the list [bfs] and [ucs] return on that start does not begin with
    the start, so it is not a path from the start to the goal; [dfs], which
    builds its path as it goes, returns one that does. *)
Theorem bfs_path_omits_start :
  (∀ fuel, (6 ≤ fuel)%nat →
     ∃ path, bfs fuel one_slide_start goal_state = Returns (Some path) ∧
             head path ≠ Some one_slide_start ∧
             ¬ path_from_to one_slide_start goal_state path) ∧
  (∀ fuel, (6 ≤ fuel)%nat →
     ∃ path, ucs fuel one_slide_start goal_state = Returns (Some path) ∧
             head path ≠ Some one_slide_start ∧
             ¬ path_from_to one_slide_start goal_state path) ∧
  (∀ fuel, (9 ≤ fuel)%nat →
     ∃ path, dfs fuel one_slide_start goal_state 1 = Returns (Some path) ∧
             path_from_to one_slide_start goal_state path).
Proof.
  split_and!; intros fuel Hfuel.
  - exists [goal_state]. split; [by apply bfs_one_slide|].
    split; [discriminate|]. by intros [[=] _].
  - exists [goal_state]. split; [by apply ucs_one_slide|].
    split; [discriminate|]. by intros [[=] _].
  - exists [one_slide_start; goal_state]. split; [by apply dfs_one_slide|].
    apply one_slide_path.
Qed.

(** C1: on that start the list [bfs] and [ucs] return has no edge, while
    every path from the start to the goal has at least one; and on a start
    that is the goal [bfs] returns the empty list, which is no path. *)
Theorem bfs_result_below_minimum :
  (∀ fuel, (6 ≤ fuel)%nat →
     ∃ path, bfs fuel one_slide_start goal_state = Returns (Some path) ∧
             edge_count path = 0) ∧
  (∀ fuel, (6 ≤ fuel)%nat →
     ∃ path, ucs fuel one_slide_start goal_state = Returns (Some path) ∧
             edge_count path = 0) ∧
  path_from_to one_slide_start goal_state [one_slide_start; goal_state] ∧
  (∀ q, path_from_to one_slide_start goal_state q → 1 ≤ edge_count q) ∧
  (∀ fuel, (2 ≤ fuel)%nat →
     bfs fuel goal_state goal_state = Returns (Some [])) ∧
  ¬ path_from_to goal_state goal_state [].
Proof.
  split_and!.
  - intros fuel Hfuel. exists [goal_state]. by rewrite bfs_one_slide.
  - intros fuel Hfuel. exists [goal_state]. by rewrite ucs_one_slide.
  - apply one_slide_path.
  - apply one_slide_not_shorter.
  - apply bfs_at_goal.
  - by intros [[=] _].
Qed.

Lemma one_slide_reach : reach one_slide_start 1 goal_state.
Proof.
  apply (reach_S _ 0 one_slide_start); [constructor|].
  eexists. split; [vm_compute; reflexivity|]. rewrite !elem_of_cons. auto.
Qed.

(** ** Further properties of the searches *)

(** X1: whatever the start, the goal and the depth limit, a path returned
    by [dfs] begins at the start, ends at the goal, and each of its
    elements is a neighbour of the one before. *)
Theorem dfs_returns_a_path (fuel : nat) (start goal : Grid) (depth_limit : Z)
    (path : list Grid) :
  dfs fuel start goal depth_limit = Returns (Some path) →
  path_from_to start goal path.
Proof. apply dfs_sound. Qed.

Lemma dfs_returns_a_path_witness :
  dfs 9 one_slide_start goal_state 1 =
    Returns (Some [one_slide_start; goal_state]) ∧
  path_from_to one_slide_start goal_state [one_slide_start; goal_state].
Proof.
  assert (dfs 9 one_slide_start goal_state 1 =
            Returns (Some [one_slide_start; goal_state])) as Hrun
    by (vm_compute; reflexivity).
  split; [exact Hrun|].
  exact (dfs_returns_a_path 9 one_slide_start goal_state 1 _ Hrun).
Defined.

(** X2: the list [bfs] returns is the rest of a shortest path: with the
    start put in front of it, it is a path from the start to the goal,
    and no path from the start to the goal has fewer slides. *)
Theorem bfs_returns_a_shortest_path (fuel : nat) (start goal : Grid)
    (path : list Grid) :
  bfs fuel start goal = Returns (Some path) →
  path_from_to start goal (start :: path) ∧
  ∀ q, path_from_to start goal q → edge_count (start :: path) ≤ edge_count q.
Proof. apply bfs_shortest. Qed.

Lemma bfs_returns_a_shortest_path_witness :
  bfs 6 one_slide_start goal_state = Returns (Some [goal_state]) ∧
  path_from_to one_slide_start goal_state (one_slide_start :: [goal_state]) ∧
  ∀ q, path_from_to one_slide_start goal_state q →
       edge_count (one_slide_start :: [goal_state]) ≤ edge_count q.
Proof.
  assert (bfs 6 one_slide_start goal_state = Returns (Some [goal_state]))
    as Hrun by (vm_compute; reflexivity).
  split; [exact Hrun|].
  exact (bfs_returns_a_shortest_path 6 one_slide_start goal_state _ Hrun).
Defined.

(** X3: the same for [ucs]. *)
Theorem ucs_returns_a_shortest_path (fuel : nat) (start goal : Grid)
    (path : list Grid) :
  ucs fuel start goal = Returns (Some path) →
  path_from_to start goal (start :: path) ∧
  ∀ q, path_from_to start goal q → edge_count (start :: path) ≤ edge_count q.
Proof. apply ucs_shortest. Qed.

Lemma ucs_returns_a_shortest_path_witness :
  ucs 6 one_slide_start goal_state = Returns (Some [goal_state]) ∧
  path_from_to one_slide_start goal_state (one_slide_start :: [goal_state]) ∧
  ∀ q, path_from_to one_slide_start goal_state q →
       edge_count (one_slide_start :: [goal_state]) ≤ edge_count q.
Proof.
  assert (ucs 6 one_slide_start goal_state = Returns (Some [goal_state]))
    as Hrun by (vm_compute; reflexivity).
  split; [exact Hrun|].
  exact (ucs_returns_a_shortest_path 6 one_slide_start goal_state _ Hrun).
Defined.

(** X4: when [bfs] and [ucs] both return a list for the same start and
    goal, the two lists have the same length. *)
Theorem bfs_and_ucs_same_length (fuel fuel' : nat) (start goal : Grid)
    (p p' : list Grid) :
  bfs fuel start goal = Returns (Some p) →
  ucs fuel' start goal = Returns (Some p') →
  length p' = length p.
Proof. apply ucs_as_short_as_bfs. Qed.

Lemma bfs_and_ucs_same_length_witness :
  bfs 20 [[1; 2; 3]; [4; 0; 6]; [7; 5; 8]] goal_state =
    Returns (Some [one_slide_start; goal_state]) ∧
  ucs 20 [[1; 2; 3]; [4; 0; 6]; [7; 5; 8]] goal_state =
    Returns (Some [one_slide_start; goal_state]) ∧
  length [one_slide_start; goal_state] = length [one_slide_start; goal_state].
Proof.
  assert (bfs 20 [[1; 2; 3]; [4; 0; 6]; [7; 5; 8]] goal_state =
            Returns (Some [one_slide_start; goal_state])) as Hb
    by (vm_compute; reflexivity).
  assert (ucs 20 [[1; 2; 3]; [4; 0; 6]; [7; 5; 8]] goal_state =
            Returns (Some [one_slide_start; goal_state])) as Hu
    by (vm_compute; reflexivity).
  split; [exact Hb|]. split; [exact Hu|].
  exact (bfs_and_ucs_same_length 20 20 _ goal_state _ _ Hb Hu).
Defined.

(** X5: exchanging two different tiles that follow each other in
    row-major order, the blank skipped, turns the answer of [is_solvable]
    round. *)
Theorem is_solvable_flips_on_exchange (g g' : Grid) (l1 l2 : list Z) (a b : Z) :
  flat_state g = l1 ++ a :: b :: l2 →
  flat_state g' = l1 ++ b :: a :: l2 →
  a ≠ b →
  is_solvable g' = negb (is_solvable g).
Proof. apply is_solvable_exchange. Qed.

Lemma is_solvable_flips_on_exchange_witness :
  flat_state goal_state = [1; 2; 3; 4; 5; 6] ++ 7 :: 8 :: [] ∧
  flat_state exchanged_start =
    [1; 2; 3; 4; 5; 6] ++ 8 :: 7 :: [] ∧
  7 ≠ 8 ∧
  is_solvable exchanged_start = negb (is_solvable goal_state).
Proof.
  split; [reflexivity|]. split; [reflexivity|]. split; [lia|].
  apply (is_solvable_flips_on_exchange goal_state
           exchanged_start [1; 2; 3; 4; 5; 6] [] 7 8);
    [reflexivity|reflexivity|lia].
Defined.

(** X6: from a valid start from which the goal can be reached by slides,
    [bfs] returns once it has enough fuel, and the list it returns, with
    the start put in front, is a shortest path from the start to the
    goal. *)
Theorem bfs_finds_a_shortest_path (start goal : Grid) (j : nat) :
  valid_grid start → reach start j goal →
  ∃ fuel0, ∀ fuel, (fuel0 ≤ fuel)%nat →
    ∃ path,
      bfs fuel start goal = Returns (Some path) ∧
      path_from_to start goal (start :: path) ∧
      ∀ q, path_from_to start goal q →
           edge_count (start :: path) ≤ edge_count q.
Proof.
  intros Hv Hreach. exists (4 * size valid_grids + 4)%nat. intros fuel Hfuel.
  destruct (bfs_total valid_grids start goal j fuel) as [path Hpath];
    [apply valid_grids_closed|by apply elem_of_valid_grids|done..|].
  exists path. split; [done|]. by apply (bfs_shortest fuel).
Qed.

Lemma bfs_finds_a_shortest_path_witness :
  valid_grid one_slide_start ∧ reach one_slide_start 1 goal_state ∧
  ∃ fuel0, ∀ fuel, (fuel0 ≤ fuel)%nat →
    ∃ path,
      bfs fuel one_slide_start goal_state = Returns (Some path) ∧
      path_from_to one_slide_start goal_state (one_slide_start :: path) ∧
      ∀ q, path_from_to one_slide_start goal_state q →
           edge_count (one_slide_start :: path) ≤ edge_count q.
Proof.
  split; [exact one_slide_start_valid|]. split; [exact one_slide_reach|].
  exact (bfs_finds_a_shortest_path one_slide_start goal_state 1
           one_slide_start_valid one_slide_reach).
Defined.

(** X7: dfs terminates on every valid grid, for every goal and depth limit:
    it returns a sliding path from the start to the goal, or None. *)
Theorem dfs_terminates (start goal : Grid) (depth_limit : Z) :
  valid_grid start →
  ∃ fuel0, ∀ fuel, (fuel0 ≤ fuel)%nat →
    ∃ r, dfs fuel start goal depth_limit = Returns r ∧
      ∀ path, r = Some path → path_from_to start goal path.
Proof.
  intros Hv. exists (5 * size valid_grids + 2)%nat. intros fuel Hfuel.
  destruct (dfs_total valid_grids start goal depth_limit fuel) as [r Hr];
    [apply valid_grids_closed|by apply elem_of_valid_grids|done|].
  exists r. split; [done|]. intros path ->. by apply (dfs_sound fuel _ _ depth_limit).
Qed.

Lemma dfs_terminates_witness :
  valid_grid one_slide_start ∧
  ∃ fuel0, ∀ fuel, (fuel0 ≤ fuel)%nat →
    ∃ r, dfs fuel one_slide_start goal_state 50 = Returns r ∧
      ∀ path, r = Some path → path_from_to one_slide_start goal_state path.
Proof.
  split; [exact one_slide_start_valid|].
  exact (dfs_terminates one_slide_start goal_state 50 one_slide_start_valid).
Defined.

(** X8: from a valid start from which the goal can be reached by slides,
    [ucs] returns once it has enough fuel, and the list it returns, with
    the start put in front, is a shortest path from the start to the
    goal. *)
Theorem ucs_finds_a_shortest_path (start goal : Grid) (j : nat) :
  valid_grid start → reach start j goal →
  ∃ fuel0, ∀ fuel, (fuel0 ≤ fuel)%nat →
    ∃ path,
      ucs fuel start goal = Returns (Some path) ∧
      path_from_to start goal (start :: path) ∧
      ∀ q, path_from_to start goal q →
           edge_count (start :: path) ≤ edge_count q.
Proof.
  intros Hv Hreach. exists (10 * size valid_grids + 4)%nat. intros fuel Hfuel.
  destruct (ucs_total valid_grids start goal j fuel) as [path Hpath];
    [apply valid_grids_closed|by apply elem_of_valid_grids|done..|].
  exists path. split; [done|]. by apply (ucs_shortest fuel).
Qed.

Lemma ucs_finds_a_shortest_path_witness :
  valid_grid one_slide_start ∧ reach one_slide_start 1 goal_state ∧
  ∃ fuel0, ∀ fuel, (fuel0 ≤ fuel)%nat →
    ∃ path,
      ucs fuel one_slide_start goal_state = Returns (Some path) ∧
      path_from_to one_slide_start goal_state (one_slide_start :: path) ∧
      ∀ q, path_from_to one_slide_start goal_state q →
           edge_count (one_slide_start :: path) ≤ edge_count q.
Proof.
  split; [exact one_slide_start_valid|]. split; [exact one_slide_reach|].
  exact (ucs_finds_a_shortest_path one_slide_start goal_state 1
           one_slide_start_valid one_slide_reach).
Defined.

(** X9: a path returned by [dfs] has at most [depth_limit] slides. *)
Theorem dfs_path_within_depth_limit (fuel : nat) (start goal : Grid)
    (depth_limit : Z) (path : list Grid) :
  dfs fuel start goal depth_limit = Returns (Some path) →
  edge_count path ≤ depth_limit.
Proof. intros Hrun. by destruct (dfs_bounded fuel start goal depth_limit path Hrun). Qed.

Lemma dfs_path_within_depth_limit_witness :
  dfs 9 one_slide_start goal_state 1 =
    Returns (Some [one_slide_start; goal_state]) ∧
  edge_count [one_slide_start; goal_state] ≤ 1.
Proof.
  assert (dfs 9 one_slide_start goal_state 1 =
            Returns (Some [one_slide_start; goal_state])) as Hrun
    by (vm_compute; reflexivity).
  split; [exact Hrun|].
  exact (dfs_path_within_depth_limit 9 one_slide_start goal_state 1 _ Hrun).
Defined.

(** X10: a path returned by [dfs] passes through no grid twice. *)
Theorem dfs_path_has_no_repeats (fuel : nat) (start goal : Grid)
    (depth_limit : Z) (path : list Grid) :
  dfs fuel start goal depth_limit = Returns (Some path) →
  NoDup path.
Proof. intros Hrun. by destruct (dfs_bounded fuel start goal depth_limit path Hrun). Qed.

Lemma dfs_path_has_no_repeats_witness :
  dfs 9 one_slide_start goal_state 1 =
    Returns (Some [one_slide_start; goal_state]) ∧
  NoDup [one_slide_start; goal_state].
Proof.
  assert (dfs 9 one_slide_start goal_state 1 =
            Returns (Some [one_slide_start; goal_state])) as Hrun
    by (vm_compute; reflexivity).
  split; [exact Hrun|].
  exact (dfs_path_has_no_repeats 9 one_slide_start goal_state 1 _ Hrun).
Defined.

(** X11: every slide can be undone: if [get_neighbors] on a valid grid
    [g] gives [n], then [get_neighbors] on [n] gives [g]. *)
Theorem slide_can_be_undone (g n : Grid) (ns : list Grid) :
  valid_grid g → get_neighbors g = Returns ns → n ∈ ns →
  ∃ ns', get_neighbors n = Returns ns' ∧ g ∈ ns'.
Proof.
  intros Hv Hns Hn. apply (is_neighbor_sym g n Hv). by exists ns.
Qed.

Lemma slide_can_be_undone_witness :
  valid_grid goal_state ∧
  get_neighbors goal_state =
    Returns [[[1; 2; 3]; [4; 5; 0]; [7; 8; 6]]; one_slide_start] ∧
  one_slide_start ∈ [[[1; 2; 3]; [4; 5; 0]; [7; 8; 6]]; one_slide_start] ∧
  ∃ ns', get_neighbors one_slide_start = Returns ns' ∧ goal_state ∈ ns'.
Proof.
  assert (get_neighbors goal_state =
            Returns [[[1; 2; 3]; [4; 5; 0]; [7; 8; 6]]; one_slide_start])
    as Hns by reflexivity.
  assert (one_slide_start ∈ [[[1; 2; 3]; [4; 5; 0]; [7; 8; 6]]; one_slide_start])
    as Hn by (rewrite !elem_of_cons; auto).
  split; [exact goal_state_valid|]. split; [exact Hns|]. split; [exact Hn|].
  exact (slide_can_be_undone goal_state one_slide_start _ goal_state_valid Hns Hn).
Defined.

(** X12: the neighbours [get_neighbors] gives for a valid grid are
    different from each other and from the grid. *)
Theorem neighbors_are_distinct (g : Grid) :
  valid_grid g →
  ∃ ns, get_neighbors g = Returns ns ∧ NoDup ns ∧ g ∉ ns.
Proof. apply neighbors_distinct. Qed.

Lemma neighbors_are_distinct_witness :
  valid_grid goal_state ∧
  ∃ ns, get_neighbors goal_state = Returns ns ∧ NoDup ns ∧ goal_state ∉ ns.
Proof.
  split; [exact goal_state_valid|].
  exact (neighbors_are_distinct goal_state goal_state_valid).
Defined.

(** X13: when [is_solvable] gives different answers for a valid start and
    for the goal, each of the three searches, once it has enough fuel,
    returns [None]: it runs through every grid it can reach and does not
    find the goal. *)
Theorem searches_miss_goal_of_other_parity (start goal : Grid) (depth_limit : Z) :
  valid_grid start → is_solvable start ≠ is_solvable goal →
  ∃ fuel0, ∀ fuel, (fuel0 ≤ fuel)%nat →
    bfs fuel start goal = Returns None ∧
    dfs fuel start goal depth_limit = Returns None ∧
    ucs fuel start goal = Returns None.
Proof. apply searches_other_parity. Qed.

Lemma searches_miss_goal_of_other_parity_witness :
  valid_grid exchanged_start ∧
  is_solvable exchanged_start ≠ is_solvable goal_state ∧
  ∃ fuel0, ∀ fuel, (fuel0 ≤ fuel)%nat →
    bfs fuel exchanged_start goal_state = Returns None ∧
    dfs fuel exchanged_start goal_state 50 = Returns None ∧
    ucs fuel exchanged_start goal_state = Returns None.
Proof.
  assert (is_solvable exchanged_start ≠ is_solvable goal_state)
    as Hne by (vm_compute; discriminate).
  split; [exact exchanged_valid|]. split; [exact Hne|].
  exact (searches_miss_goal_of_other_parity _ goal_state 50 exchanged_valid Hne).
Defined.

(** X14: [is_solvable] is right when it says no: from a valid grid on
    which it is false, no sequence of slides leads to the goal. *)
Theorem unsolvable_grid_cannot_reach_goal (g : Grid) (j : nat) :
  valid_grid g → is_solvable g = false → ¬ reach g j goal_state.
Proof.
  intros Hv Hs. apply other_parity_unreachable; [done|].
  rewrite Hs, goal_state_solvable. discriminate.
Qed.

Lemma unsolvable_grid_cannot_reach_goal_witness :
  valid_grid exchanged_start ∧
  is_solvable exchanged_start = false ∧
  ¬ reach exchanged_start 1 goal_state.
Proof.
  split; [exact exchanged_valid|]. split; [reflexivity|].
  exact (unsolvable_grid_cannot_reach_goal _ 1 exchanged_valid eq_refl).
Defined.

(** X15: after an odd number of moves the grid [shuffle_puzzle] leaves
    is never the grid it began with, whatever the draws. *)
Theorem shuffle_odd_moves_changes_grid (rand : nat → nat) (h : heap) (l : loc)
    (g : Grid) (moves : Z) :
  valid_grid g → read_grid h l = Some g → 0 ≤ moves → Z.odd moves = true →
  ∃ h' g',
    shuffle_puzzle rand h l moves = Returns (l, h') ∧
    read_grid h' l = Some g' ∧ g' ≠ g.
Proof. apply shuffle_odd_moves. Qed.

Lemma shuffle_odd_moves_changes_grid_witness :
  valid_grid goal_state ∧ read_grid goal_heap goal_loc = Some goal_state ∧
  0 ≤ 3 ∧ Z.odd 3 = true ∧
  ∃ h' g',
    shuffle_puzzle (fun i => i) goal_heap goal_loc 3 = Returns (goal_loc, h') ∧
    read_grid h' goal_loc = Some g' ∧ g' ≠ goal_state.
Proof.
  assert (read_grid goal_heap goal_loc = Some goal_state) as Hread
    by (vm_compute; reflexivity).
  split; [exact goal_state_valid|]. split; [exact Hread|].
  split; [lia|]. split; [reflexivity|].
  apply (shuffle_odd_moves_changes_grid (fun i => i) goal_heap goal_loc
           goal_state 3 goal_state_valid Hread); [lia|reflexivity].
Defined.

(** X16: with an even number of moves [shuffle_puzzle] can end on the
    grid it began with: for every valid grid and every [n] there are
    draws for which [2 n] moves leave the grid as it was. *)
Theorem shuffle_can_return_to_start (h : heap) (l : loc) (g : Grid) (n : nat) :
  valid_grid g → read_grid h l = Some g →
  ∃ rand h',
    shuffle_puzzle rand h l (2 * Z.of_nat n) = Returns (l, h') ∧
    read_grid h' l = Some g.
Proof. apply shuffle_there_and_back. Qed.

Lemma shuffle_can_return_to_start_witness :
  valid_grid goal_state ∧ read_grid goal_heap goal_loc = Some goal_state ∧
  ∃ rand h',
    shuffle_puzzle rand goal_heap goal_loc (2 * Z.of_nat 15) =
      Returns (goal_loc, h') ∧
    read_grid h' goal_loc = Some goal_state.
Proof.
  assert (read_grid goal_heap goal_loc = Some goal_state) as Hread
    by (vm_compute; reflexivity).
  split; [exact goal_state_valid|]. split; [exact Hread|].
  exact (shuffle_can_return_to_start goal_heap goal_loc goal_state 15
           goal_state_valid Hread).
Defined.

(** X17: [reset_puzzle] leaves the goal object as it was and binds
    [initial_state] to a new object; the grid in it is valid, is one for
    which [is_solvable] is true, and is thirty slides from the goal. *)
Theorem reset_puzzle_keeps_goal (rand : nat → nat) (h : heap)
    (goal_state_ref : loc) :
  read_grid h goal_state_ref = Some goal_state →
  ∃ initial_state h' g,
    reset_puzzle rand h goal_state_ref =
      Returns ([ClearTerminal], initial_state, h') ∧
    h !! initial_state = None ∧
    read_grid h' goal_state_ref = Some goal_state ∧
    read_grid h' initial_state = Some g ∧
    valid_grid g ∧ is_solvable g = true ∧ reach g 30 goal_state.
Proof. apply reset_puzzle_correct. Qed.

Lemma reset_puzzle_keeps_goal_witness :
  read_grid goal_heap goal_loc = Some goal_state ∧
  ∃ initial_state h' g,
    reset_puzzle (fun i => i) goal_heap goal_loc =
      Returns ([ClearTerminal], initial_state, h') ∧
    goal_heap !! initial_state = None ∧
    read_grid h' goal_loc = Some goal_state ∧
    read_grid h' initial_state = Some g ∧
    valid_grid g ∧ is_solvable g = true ∧ reach g 30 goal_state.
Proof.
  assert (read_grid goal_heap goal_loc = Some goal_state) as Hread
    by (vm_compute; reflexivity).
  split; [exact Hread|].
  exact (reset_puzzle_keeps_goal (fun i => i) goal_heap goal_loc Hread).
Defined.

(** X18: [solve_puzzle] with [BFS], on a valid grid from which the goal
    can be reached in [j] slides: on the goal itself it reports that no
    solution was found; on any other grid it displays a list of at most
    [j] grids which, put after the grid, is a path to the goal. *)
Theorem solve_puzzle_bfs (initial_state : Grid) (j : nat) :
  valid_grid initial_state → reach initial_state j goal_state →
  ∃ fuel0, ∀ fuel, (fuel0 ≤ fuel)%nat →
    (initial_state = goal_state ∧
     solve_puzzle fuel initial_state "BFS" =
       Returns [ClearTerminal; Print "No solution found"]) ∨
    (initial_state ≠ goal_state ∧
     ∃ path,
       solve_puzzle fuel initial_state "BFS" =
         Returns (ClearTerminal :: display_path path) ∧
       path_from_to initial_state goal_state (initial_state :: path) ∧
       (length path ≤ j)%nat).
Proof. apply solve_puzzle_bfs_from. Qed.

Lemma solve_puzzle_bfs_witness :
  valid_grid one_slide_start ∧ reach one_slide_start 1 goal_state ∧
  ∃ fuel0, ∀ fuel, (fuel0 ≤ fuel)%nat →
    (one_slide_start = goal_state ∧
     solve_puzzle fuel one_slide_start "BFS" =
       Returns [ClearTerminal; Print "No solution found"]) ∨
    (one_slide_start ≠ goal_state ∧
     ∃ path,
       solve_puzzle fuel one_slide_start "BFS" =
         Returns (ClearTerminal :: display_path path) ∧
       path_from_to one_slide_start goal_state (one_slide_start :: path) ∧
       (length path ≤ 1)%nat).
Proof.
  split; [exact one_slide_start_valid|]. split; [exact one_slide_reach|].
  exact (solve_puzzle_bfs one_slide_start 1 one_slide_start_valid
           one_slide_reach).
Defined.

(** X19: the same with [UCS]. *)
Theorem solve_puzzle_ucs (initial_state : Grid) (j : nat) :
  valid_grid initial_state → reach initial_state j goal_state →
  ∃ fuel0, ∀ fuel, (fuel0 ≤ fuel)%nat →
    (initial_state = goal_state ∧
     solve_puzzle fuel initial_state "UCS" =
       Returns [ClearTerminal; Print "No solution found"]) ∨
    (initial_state ≠ goal_state ∧
     ∃ path,
       solve_puzzle fuel initial_state "UCS" =
         Returns (ClearTerminal :: display_path path) ∧
       path_from_to initial_state goal_state (initial_state :: path) ∧
       (length path ≤ j)%nat).
Proof. apply solve_puzzle_ucs_from. Qed.

Lemma solve_puzzle_ucs_witness :
  valid_grid one_slide_start ∧ reach one_slide_start 1 goal_state ∧
  ∃ fuel0, ∀ fuel, (fuel0 ≤ fuel)%nat →
    (one_slide_start = goal_state ∧
     solve_puzzle fuel one_slide_start "UCS" =
       Returns [ClearTerminal; Print "No solution found"]) ∨
    (one_slide_start ≠ goal_state ∧
     ∃ path,
       solve_puzzle fuel one_slide_start "UCS" =
         Returns (ClearTerminal :: display_path path) ∧
       path_from_to one_slide_start goal_state (one_slide_start :: path) ∧
       (length path ≤ 1)%nat).
Proof.
  split; [exact one_slide_start_valid|]. split; [exact one_slide_reach|].
  exact (solve_puzzle_ucs one_slide_start 1 one_slide_start_valid
           one_slide_reach).
Defined.

(** X20: [solve_puzzle] with [DFS], on a valid grid for which
    [is_solvable] is true: it either reports that no solution was found,
    or displays a path from the grid to the goal, the grid included, of at
    most fifty slides and through no grid twice. *)
Theorem solve_puzzle_dfs (initial_state : Grid) :
  valid_grid initial_state → is_solvable initial_state = true →
  ∃ fuel0, ∀ fuel, (fuel0 ≤ fuel)%nat →
    solve_puzzle fuel initial_state "DFS" =
      Returns [ClearTerminal; Print "No solution found"] ∨
    ∃ path,
      solve_puzzle fuel initial_state "DFS" =
        Returns (ClearTerminal :: display_path path) ∧
      path_from_to initial_state goal_state path ∧
      edge_count path ≤ 50 ∧ NoDup path.
Proof. apply solve_puzzle_dfs_from. Qed.

Lemma solve_puzzle_dfs_witness :
  valid_grid one_slide_start ∧ is_solvable one_slide_start = true ∧
  ∃ fuel0, ∀ fuel, (fuel0 ≤ fuel)%nat →
    solve_puzzle fuel one_slide_start "DFS" =
      Returns [ClearTerminal; Print "No solution found"] ∨
    ∃ path,
      solve_puzzle fuel one_slide_start "DFS" =
        Returns (ClearTerminal :: display_path path) ∧
      path_from_to one_slide_start goal_state path ∧
      edge_count path ≤ 50 ∧ NoDup path.
Proof.
  split; [exact one_slide_start_valid|]. split; [reflexivity|].
  exact (solve_puzzle_dfs one_slide_start one_slide_start_valid eq_refl).
Defined.

(** X21: on a valid grid [solve_puzzle] returns, whatever the method
    asked for: it raises nothing and does not run for ever. *)
Theorem solve_puzzle_returns (initial_state : Grid) (method : string) :
  valid_grid initial_state →
  ∃ fuel0, ∀ fuel, (fuel0 ≤ fuel)%nat →
    ∃ events, solve_puzzle fuel initial_state method = Returns events.
Proof. apply solve_puzzle_total. Qed.

Lemma solve_puzzle_returns_witness :
  valid_grid exchanged_start ∧
  ∃ fuel0, ∀ fuel, (fuel0 ≤ fuel)%nat →
    ∃ events,
      solve_puzzle fuel exchanged_start "UCS" =
        Returns events.
Proof.
  split; [exact exchanged_valid|].
  exact (solve_puzzle_returns _ "UCS" exchanged_valid).
Defined.

(** X22: a shuffle followed by a [BFS] solve: the shuffled grid is never
    reported unsolvable; unless the shuffle ended on the goal, at most
    thirty grids are displayed, the last of them the goal. *)
Theorem reset_then_solve_bfs (rand : nat → nat) (h : heap) (goal_state_ref : loc) :
  read_grid h goal_state_ref = Some goal_state →
  ∃ initial_state h' g,
    reset_puzzle rand h goal_state_ref =
      Returns ([ClearTerminal], initial_state, h') ∧
    read_grid h' initial_state = Some g ∧
    ∃ fuel0, ∀ fuel, (fuel0 ≤ fuel)%nat →
      (g = goal_state ∧
       solve_puzzle fuel g "BFS" =
         Returns [ClearTerminal; Print "No solution found"]) ∨
      (g ≠ goal_state ∧
       ∃ path,
         solve_puzzle fuel g "BFS" =
           Returns (ClearTerminal :: display_path path) ∧
         path_from_to g goal_state (g :: path) ∧
         (length path ≤ 30)%nat).
Proof. apply reset_then_solve_bfs_from. Qed.

Lemma reset_then_solve_bfs_witness :
  read_grid goal_heap goal_loc = Some goal_state ∧
  ∃ initial_state h' g,
    reset_puzzle (fun i => i) goal_heap goal_loc =
      Returns ([ClearTerminal], initial_state, h') ∧
    read_grid h' initial_state = Some g ∧
    ∃ fuel0, ∀ fuel, (fuel0 ≤ fuel)%nat →
      (g = goal_state ∧
       solve_puzzle fuel g "BFS" =
         Returns [ClearTerminal; Print "No solution found"]) ∨
      (g ≠ goal_state ∧
       ∃ path,
         solve_puzzle fuel g "BFS" =
           Returns (ClearTerminal :: display_path path) ∧
         path_from_to g goal_state (g :: path) ∧
         (length path ≤ 30)%nat).
Proof.
  assert (read_grid goal_heap goal_loc = Some goal_state) as Hread
    by (vm_compute; reflexivity).
  split; [exact Hread|].
  exact (reset_then_solve_bfs (fun i => i) goal_heap goal_loc Hread).
Defined.

(** X23: of the frames [display_path] draws, one per grid of the path and
    in the order of the path, the last is drawn as the solution and no
    other is. *)
Theorem display_path_marks_last_frame (path : list Grid) (g : Grid) :
  frames (display_path (path ++ [g])) =
  ((fun state => (state, false)) <$> path) ++ [(g, true)].
Proof. apply display_path_frames_last. Qed.

(** X24: a click sets off at most one call, [reset_puzzle] or
    [solve_puzzle] with one of the three methods it knows. *)
Theorem click_sets_off_at_most_one_call (x y : Z) :
  (length (on_mouse_button_down x y) ≤ 1)%nat ∧
  Forall (fun call =>
            call = ResetPuzzle ∨ call = SolvePuzzle "BFS" ∨
            call = SolvePuzzle "DFS" ∨ call = SolvePuzzle "UCS")
         (on_mouse_button_down x y).
Proof.
  destruct (on_mouse_button_down_cases x y) as [H|[H|[H|[H|H]]]]; rewrite H;
    (split; [simpl; lia|]); try apply Forall_nil_2;
    (apply Forall_cons; split; [auto|apply Forall_nil_2]).
Qed.

(** X25: no click makes [solve_puzzle] print that the method is unknown. *)
Theorem click_never_unknown_method (x y : Z) (method : string) (fuel : nat)
    (initial_state : Grid) (events : list event) :
  SolvePuzzle method ∈ on_mouse_button_down x y →
  solve_puzzle fuel initial_state method = Returns events →
  Print "Unknown method" ∉ events.
Proof.
  intros Hclick. apply solve_puzzle_known_method.
  destruct (on_mouse_button_down_cases x y) as [H|[H|[H|[H|H]]]];
    rewrite H in Hclick; set_unfold in Hclick; destruct_or?; try done;
    injection Hclick as ->; auto.
Qed.

Lemma click_never_unknown_method_witness :
  SolvePuzzle "BFS" ∈ on_mouse_button_down 150 450 ∧
  solve_puzzle 6 one_slide_start "BFS" =
    Returns (ClearTerminal :: display_path [goal_state]) ∧
  Print "Unknown method" ∉ ClearTerminal :: display_path [goal_state].
Proof.
  assert (on_mouse_button_down 150 450 = [SolvePuzzle "BFS"]) as Hcalls
    by (vm_compute; reflexivity).
  assert (SolvePuzzle "BFS" ∈ on_mouse_button_down 150 450) as Hclick
    by (rewrite Hcalls, elem_of_cons; by left).
  assert (solve_puzzle 6 one_slide_start "BFS" =
            Returns (ClearTerminal :: display_path [goal_state])) as Hrun
    by (vm_compute; reflexivity).
  split; [exact Hclick|]. split; [exact Hrun|].
  exact (click_never_unknown_method 150 450 "BFS" 6 one_slide_start _
           Hclick Hrun).
Defined.

(** X26: on a predecessor map with a cycle [reconstruct_path] does not
    return: when the grid it is given is a key, and every key it can come
    to is mapped to a key again, no amount of fuel is enough. *)
Theorem reconstruct_path_cycle (came_from : gmap Grid Grid) (P : Grid → Prop)
    (current : Grid) (fuel : nat) :
  (∀ k, P k → ∃ p, came_from !! k = Some p ∧ P p) → P current →
  reconstruct_path fuel came_from current = OutOfFuel.
Proof.
  intros Hcycle Hc. by apply (reconstruct_loop_cycle came_from P).
Qed.

Lemma reconstruct_path_cycle_witness :
  (∀ k, k = goal_state →
        ∃ p, ({[goal_state := goal_state]} : gmap Grid Grid) !! k = Some p ∧
             p = goal_state) ∧
  reconstruct_path 100 {[goal_state := goal_state]} goal_state = OutOfFuel.
Proof.
  assert (∀ k, k = goal_state →
            ∃ p, ({[goal_state := goal_state]} : gmap Grid Grid) !! k = Some p ∧
                 p = goal_state) as Hcycle.
  { intros k ->. exists goal_state. split; [vm_compute; reflexivity|reflexivity]. }
  split; [exact Hcycle|].
  exact (reconstruct_path_cycle {[goal_state := goal_state]}
           (fun k => k = goal_state) goal_state 100 Hcycle eq_refl).
Defined.

(** X27: on a grid of three rows of three cells without a blank that is
    not the goal, each of the three searches raises [TypeError], the
    error of [get_neighbors]. *)
Theorem searches_raise_without_blank (start goal : Grid) (depth_limit : Z)
    (fuel : nat) :
  shape33 start → 0 ∉ concat start → start ≠ goal →
  (1 ≤ fuel)%nat → 0 ≤ depth_limit →
  bfs fuel start goal = Raises TypeError ∧
  dfs fuel start goal depth_limit = Raises TypeError ∧
  ucs fuel start goal = Raises TypeError.
Proof. apply searches_no_blank. Qed.

Lemma searches_raise_without_blank_witness :
  shape33 blankless_start ∧
  (0 ∉ concat blankless_start) ∧
  blankless_start ≠ goal_state ∧
  (1 ≤ 1)%nat ∧ 0 ≤ 50 ∧
  bfs 1 blankless_start goal_state = Raises TypeError ∧
  dfs 1 blankless_start goal_state 50 = Raises TypeError ∧
  ucs 1 blankless_start goal_state = Raises TypeError.
Proof.
  assert (shape33 blankless_start) as Hs
    by (by split; [|repeat constructor]).
  assert ((0 ∉ concat blankless_start)) as Hnin
    by (simpl; rewrite !not_elem_of_cons; split_and!; try lia;
        apply not_elem_of_nil).
  assert (blankless_start ≠ goal_state) as Hne
    by (unfold blankless_start, goal_state; discriminate).
  split; [exact Hs|]. split; [exact Hnin|]. split; [exact Hne|].
  split; [lia|]. split; [lia|].
  apply (searches_raise_without_blank _ goal_state 50 1 Hs Hnin Hne); lia.
Defined.

(** X28: on an object holding such a grid [shuffle_puzzle] raises
    [TypeError] as soon as it has one move to make. *)
Theorem shuffle_raises_without_blank (rand : nat → nat) (h : heap) (l : loc)
    (g : Grid) (moves : Z) :
  read_grid h l = Some g → shape33 g → 0 ∉ concat g → 1 ≤ moves →
  shuffle_puzzle rand h l moves = Raises TypeError.
Proof. apply shuffle_no_blank. Qed.

Lemma shuffle_raises_without_blank_witness :
  read_grid (store_grid blankless_start ∅).2
            (store_grid blankless_start ∅).1 =
    Some blankless_start ∧
  shape33 blankless_start ∧
  (0 ∉ concat blankless_start) ∧
  1 ≤ 30 ∧
  shuffle_puzzle (fun i => i)
    (store_grid blankless_start ∅).2
    (store_grid blankless_start ∅).1 30 = Raises TypeError.
Proof.
  assert (read_grid (store_grid blankless_start ∅).2
            (store_grid blankless_start ∅).1 =
          Some blankless_start) as Hread
    by (vm_compute; reflexivity).
  assert (shape33 blankless_start) as Hs
    by (by split; [|repeat constructor]).
  assert ((0 ∉ concat blankless_start)) as Hnin
    by (simpl; rewrite !not_elem_of_cons; split_and!; try lia;
        apply not_elem_of_nil).
  split; [exact Hread|]. split; [exact Hs|]. split; [exact Hnin|].
  split; [lia|].
  apply (shuffle_raises_without_blank (fun i => i) _ _ _ 30 Hread Hs Hnin). lia.
Defined.

(** X29: a path [dfs] returns is never shorter than the one [bfs] finds:
    it has at least one grid more than the list [bfs] returns. *)
Theorem dfs_not_shorter_than_bfs (fuel fuel' : nat) (start goal : Grid)
    (depth_limit : Z) (p q : list Grid) :
  bfs fuel start goal = Returns (Some p) →
  dfs fuel' start goal depth_limit = Returns (Some q) →
  (length p + 1 ≤ length q)%nat.
Proof. apply dfs_not_shorter. Qed.

Lemma dfs_not_shorter_than_bfs_witness :
  bfs 6 one_slide_start goal_state = Returns (Some [goal_state]) ∧
  dfs 9 one_slide_start goal_state 1 =
    Returns (Some [one_slide_start; goal_state]) ∧
  (length [goal_state] + 1 ≤ length [one_slide_start; goal_state])%nat.
Proof.
  assert (bfs 6 one_slide_start goal_state = Returns (Some [goal_state]))
    as Hp by (vm_compute; reflexivity).
  assert (dfs 9 one_slide_start goal_state 1 =
            Returns (Some [one_slide_start; goal_state])) as Hq
    by (vm_compute; reflexivity).
  split; [exact Hp|]. split; [exact Hq|].
  exact (dfs_not_shorter_than_bfs 6 9 one_slide_start goal_state 1 _ _ Hp Hq).
Defined.
